(** * Rat25F front end: scanner (Lexer.cpp) and predictive parser (parser.cpp)

    A shallow embedding of the two components and the properties of the
    natural-language specification that were checked against them.

    - [Token.h]   : [TokenType], [Token]
    - [Lexer.h/.cpp]: the character cursor [Lexer] and its scanning
      procedures, as total functions on an explicit cursor state;
    - [parser.h/.cpp]: the recursive-descent procedures, as procedures of a
      small state-and-exception monad over the parser object, the output
      stream being part of the state. *)

From Stdlib Require Import Bool Arith NArith List String Ascii Lia.
From Stdlib Require Import DecimalString.
Import ListNotations.

Local Open Scope string_scope.
Local Open Scope bool_scope.
Local Open Scope nat_scope.

(* ================================================================== *)
(** * Token.h *)

Inductive TokenType : Type :=
| Keyword | Identifier | Integer | Real | Operator | Separator
| String_ (* TokenType::String *) | Unknown | EndOfFile.

Definition TokenType_eqb (a b : TokenType) : bool :=
  match a, b with
  | Keyword, Keyword | Identifier, Identifier | Integer, Integer
  | Real, Real | Operator, Operator | Separator, Separator
  | String_, String_ | Unknown, Unknown | EndOfFile, EndOfFile => true
  | _, _ => false
  end.

(** [size_t] is a 64-bit unsigned integer; increments wrap around. *)
Definition size_t := N.
Definition size_max : N := 2 ^ 64.
Definition size_incr (n : size_t) : size_t := ((n + 1) mod size_max)%N.

Record Token : Type := mkToken {
  type   : TokenType;
  lexeme : string;
  line   : size_t;
  col    : size_t
}.

(* ================================================================== *)
(** * Characters (<cctype> in the "C" locale) *)

Definition code (c : ascii) : nat := nat_of_ascii c.

Definition in_range (lo hi : nat) (c : ascii) : bool :=
  (lo <=? code c) && (code c <=? hi).

(** [std::isdigit]: '0'..'9'. *)
Definition isdigit (c : ascii) : bool := in_range 48 57 c.

(** [std::isspace]: space, \t, \n, \v, \f, \r. *)
Definition isspace (c : ascii) : bool := in_range 9 13 c || (code c =? 32).

(** [std::tolower]: 'A'..'Z' are moved to 'a'..'z'. *)
Definition tolower (c : ascii) : ascii :=
  if in_range 65 90 c then ascii_of_nat (code c + 32) else c.

Fixpoint transform_tolower (s : string) : string :=
  match s with
  | EmptyString => EmptyString
  | String c s' => String (tolower c) (transform_tolower s')
  end.

(** The double quote character. *)
Definition quote : ascii := "034".

(** [lex.push_back(c)] *)
Definition push_back (lex : string) (c : ascii) : string :=
  lex ++ String c EmptyString.

(* ================================================================== *)
(** * Lexer.h / Lexer.cpp *)

Module Lexer.

(** The scanner object.  [input] is what the stream [in] has not yet
    delivered; the other fields are the members of the class. *)
Record t : Type := mk {
  input   : string;
  current : ascii;
  eof     : bool;
  line    : size_t;
  col     : size_t
}.

(** [void Lexer::advance()] *)
Definition advance (l : t) : t :=
  match input l with
  | EmptyString =>                      (* in.get() == EOF *)
      mk EmptyString zero true (line l) (col l)
  | String ch rest =>
      if Ascii.eqb ch "010"
      then mk rest ch (eof l) (size_incr (line l)) 0%N
      else mk rest ch (eof l) (line l) (size_incr (col l))
  end.

(** [Lexer::Lexer(std::istream&)]: members at their defaults, then one
    [advance()]. *)
Definition init (src : string) : t :=
  advance (mk src zero false 1%N 0%N).

(** [char peek() const]: [static_cast<char>(in.peek())]; at end of input
    [in.peek()] is [EOF = -1], which the cast turns into the byte 255. *)
Definition peek (l : t) : ascii :=
  match input l with
  | EmptyString => ascii_of_nat 255
  | String ch _ => ch
  end.

Definition isLetter (c : ascii) : bool :=
  in_range 65 90 c || in_range 97 122 c.

Definition isIdentRest (c : ascii) : bool :=
  isLetter c || isdigit c || Ascii.eqb c "$" || Ascii.eqb c "_".

(** Every [while] of the scanner advances the cursor once per turn and
    stops at the latest when the stream is exhausted, so
    [S (length input)] turns always suffice ([loop_bound]). *)
Definition loop_bound (l : t) : nat := S (String.length (input l)).

(** [while (!eof && isspace(current)) advance();] *)
Fixpoint skipSpace_loop (n : nat) (l : t) : t :=
  match n with
  | O => l
  | S n' =>
      if negb (eof l) && isspace (current l)
      then skipSpace_loop n' (advance l)
      else l
  end.

Definition skipSpace (l : t) : t := skipSpace_loop (loop_bound l) l.

(** [while (!eof && p(current)) { lex.push_back(current); advance(); }]:
    the loop shared, with different tests [p], by [scanString],
    [scanIdentifierFSM], [scanNumberFSM] and [scanRealStartingWithDot]. *)
Fixpoint scan_loop (p : ascii -> bool) (n : nat) (l : t) (lex : string)
  : t * string :=
  match n with
  | O => (l, lex)
  | S n' =>
      if negb (eof l) && p (current l)
      then scan_loop p n' (advance l) (push_back lex (current l))
      else (l, lex)
  end.

Definition scan_while (p : ascii -> bool) (l : t) (lex : string) : t * string :=
  scan_loop p (loop_bound l) l lex.

(** [return { type, lex, line, col };] reads the cursor's position at the
    moment of the return, that is after the token was consumed. *)
Definition token_here (ty : TokenType) (lex : string) (l : t) : Token * t :=
  (mkToken ty lex (line l) (col l), l).

Definition not_quote (c : ascii) : bool := negb (Ascii.eqb c quote).

(** [Token Lexer::scanString()] *)
Definition scanString (l : t) : Token * t :=
  let l1 := advance l in                         (* skip opening quote *)
  let '(l2, lex) := scan_while not_quote l1 EmptyString in
  let l3 := if negb (eof l2) then advance l2 else l2 in
  token_here String_ lex l3.

(** The keyword table [K] of [isKeyword]. *)
Definition K : list string :=
  ["integer"; "int"; "real"; "if"; "else"; "fi"; "while"; "return"; "get"; "put"].

(** [static bool isKeyword(const std::string&)] *)
Definition isKeyword (s : string) : bool :=
  let k := transform_tolower s in
  existsb (String.eqb k) K.

(** [Token Lexer::scanIdentifierFSM()] *)
Definition scanIdentifierFSM (l : t) : Token * t :=
  let lex := push_back EmptyString (current l) in
  let l1 := advance l in
  let '(l2, lex) := scan_while isIdentRest l1 lex in
  if isKeyword lex then token_here Keyword lex l2
  else token_here Identifier lex l2.

(** [Token Lexer::scanNumberFSM()] *)
Definition scanNumberFSM (l : t) : Token * t :=
  let '(l1, lex) := scan_while isdigit l EmptyString in
  if negb (eof l1) && Ascii.eqb (current l1) "." && isdigit (peek l1) then
    let lex := push_back lex (current l1) in
    let l2 := advance l1 in
    let '(l3, lex) := scan_while isdigit l2 lex in
    token_here Real lex l3
  else token_here Integer lex l1.

(** [Token Lexer::scanRealStartingWithDot()] *)
Definition scanRealStartingWithDot (l : t) : Token * t :=
  let lex := push_back EmptyString (current l) in
  let l1 := advance l in
  let '(l2, lex) := scan_while isdigit l1 lex in
  token_here Real lex l2.

Definition mem_char (c : ascii) (s : string) : bool :=
  existsb (Ascii.eqb c) (list_ascii_of_string s).

(** [bool Lexer::isSeparator(char) const] *)
Definition isSeparator (c : ascii) : bool := mem_char c "(){}[],;".

(** [bool Lexer::isOperatorStart(char) const] *)
Definition isOperatorStart (c : ascii) : bool := mem_char c "+-*/=<>!&|".

Definition lone (c : ascii) : bool :=
  Ascii.eqb c "!" || Ascii.eqb c "&" || Ascii.eqb c "|".

(** [Token Lexer::scanOpOrSep()] *)
Definition scanOpOrSep (l : t) : Token * t :=
  let c := current l in
  let p := peek l in
  if (Ascii.eqb c "<" && Ascii.eqb p "=") ||
     (Ascii.eqb c ">" && Ascii.eqb p "=") ||
     (Ascii.eqb c "=" && Ascii.eqb p "=") ||
     (Ascii.eqb c "!" && Ascii.eqb p "=") ||
     (Ascii.eqb c "&" && Ascii.eqb p "&") ||
     (Ascii.eqb c "|" && Ascii.eqb p "|")
  then token_here Operator (String c (String p EmptyString)) (advance (advance l))
  else if isOperatorStart c && negb (lone c)
  then token_here Operator (String c EmptyString) (advance l)
  else if isSeparator c
  then token_here Separator (String c EmptyString) (advance l)
  else if lone c
  then token_here Operator (String c EmptyString) (advance l)
  else token_here Unknown (String c EmptyString) (advance l).

(** [Token Lexer::nextToken()] *)
Definition nextToken (l0 : t) : Token * t :=
  let l := skipSpace l0 in
  if eof l then token_here EndOfFile EmptyString l
  else if Ascii.eqb (current l) quote then scanString l
  else if Ascii.eqb (current l) "." && isdigit (peek l)
  then scanRealStartingWithDot l
  else if isLetter (current l) then scanIdentifierFSM l
  else if isdigit (current l) then scanNumberFSM l
  else if isSeparator (current l) || isOperatorStart (current l)
  then scanOpOrSep l
  else token_here Unknown (String (current l) EmptyString) (advance l).

(** [k] successive calls of [nextToken()]: the tokens returned, in order,
    and the scanner afterwards. *)
Fixpoint nextTokens (k : nat) (l : t) : list Token * t :=
  match k with
  | O => ([], l)
  | S k' =>
      let '(tk, l1) := nextToken l in
      let '(tks, l2) := nextTokens k' l1 in
      (tk :: tks, l2)
  end.

End Lexer.

(** The kind and lexeme of a token, without its position. *)
Definition kind_lexeme (tk : Token) : TokenType * string := (type tk, lexeme tk).

(** What a client sees when it drains the scanner over [src]: every token
    up to, and without, the first [EndOfFile].  Each call on a scanner that
    is not at the end consumes a character, so [S (length src)] calls
    reach the end. *)
Fixpoint drain (n : nat) (l : Lexer.t) : list Token :=
  match n with
  | O => []
  | S n' =>
      let '(tk, l1) := Lexer.nextToken l in
      if TokenType_eqb (type tk) EndOfFile then [] else tk :: drain n' l1
  end.

Definition tokens_of (src : string) : list Token :=
  drain (S (String.length src)) (Lexer.init src).

(* ================================================================== *)
(** * parser.h *)

(** [StartSymbol::Statement] and [StartSymbol::Expression] carry an
    underscore to keep them apart from the rules of the same name. *)
Inductive StartSymbol : Type := Program | Statement_ | Expression_.

Inductive Rule : Type :=
| Rat25F | OptFuncDefs | FuncDefs | FuncDefsPrime | Function
| OptParamList | ParamList | ParamListPrime | Parameter_ (* Rule::Parameter *) | Qualifier
| Body | OptDeclList | DeclList | DeclListPrime | Declaration | IDs | IDsPrime
| StatementList | StatementListPrime | Statement | Compound | Assign | If
| OptElse | Return | Print | Scan | While
| Condition | Relop | Expression | ExpressionPrime | Term | TermPrime
| Factor | Primary | PrimaryPrime.

Definition Rule_eq_dec (a b : Rule) : {a = b} + {a <> b}.
Proof. decide equality. Defined.

Definition Rule_eqb (a b : Rule) : bool :=
  if Rule_eq_dec a b then true else false.

(** [std::unordered_set<Rule>], through the two operations the parser
    uses: [empty()] and [count(r)]. *)
Definition RuleSet := list Rule.

Definition set_empty (s : RuleSet) : bool :=
  match s with [] => true | _ :: _ => false end.

Definition set_count (r : Rule) (s : RuleSet) : nat :=
  if existsb (Rule_eqb r) s then 1 else 0.

Record TraceConfig : Type := mkTrace {
  master          : bool;
  hideEpsilon     : bool;
  hideOpt         : bool;
  hideScaffolding : bool;
  enabled         : RuleSet
}.

(** The default member initialisers of [TraceConfig]. *)
Definition TraceConfig_default : TraceConfig :=
  mkTrace true true true true [Statement; Assign; If; Return; Print; Scan; While].

Record ParserPolicy : Type := mkPolicy {
  echoTokens         : bool;
  lenientKeywords    : bool;
  allowStringPrimary : bool
}.

Definition ParserPolicy_default : ParserPolicy := mkPolicy true true true.

(** One line of output.  [Echo] lines are written by [echoToken] to
    [std::cout]; [Emit] lines are handed to the [ProductionSink], whose
    only implementation [ConsoleSink] writes them to [std::cout] too. *)
Inductive OutLine : Type :=
| Echo (kind : TokenType) (lex : string)
| Emit (text : string).

(* ================================================================== *)
(** * parser.cpp *)

(** [const char* prettyTokenKind(TokenType)] *)
Definition prettyTokenKind (t : TokenType) : string :=
  match t with
  | Identifier => "Identifier"
  | Keyword    => "Keyword"
  | Integer    => "Integer"
  | Real       => "Real"
  | Operator   => "Operator"
  | Separator  => "Separator"
  | String_    => "String"
  | Unknown    => "Unknown"
  | EndOfFile  => "EOF"
  end.

(** The text of an output line, without its final newline. *)
Definition render (o : OutLine) : string :=
  match o with
  | Echo k lex => "Token: " ++ prettyTokenKind k ++ " Lexeme: " ++ lex
  | Emit text  => text
  end.

(** [static inline bool contains(string_view s, string_view sub)] *)
Fixpoint contains (s sub : string) : bool :=
  String.prefix sub s ||
  match s with
  | EmptyString => false
  | String _ s' => contains s' sub
  end.

(** [std::to_string(size_t)] *)
Definition to_string (n : size_t) : string :=
  NilEmpty.string_of_uint (N.to_uint n).

(** How a parsing procedure ends: it returns, it throws [ParseError], or
    its calls nest deeper than the depth it was allowed ([OutOfFuel]).  The
    program has no such bound of its own: its procedures recurse on the
    call stack, and a text that nests deeper than the stack has room for
    makes the process crash.  Nothing below takes [OutOfFuel] for a
    normal return or an error. *)
Inductive Result : Type :=
| Done
| ParseError (what : string)
| OutOfFuel.

Module Parser.

(** The parser object, with what it has written so far. *)
Record t : Type := mk {
  lex_    : Lexer.t;
  tok_    : Token;
  trace_  : TraceConfig;
  policy_ : ParserPolicy;
  out     : list OutLine
}.

(** A member function [void Parser::f()]: the object afterwards and how the
    call ended.  When it throws, the object is as the throw left it. *)
Definition M : Type := t -> t * Result.

Definition ret : M := fun p => (p, Done).

Definition bind (m k : M) : M := fun p =>
  match m p with
  | (p1, Done) => k p1
  | (p1, r)    => (p1, r)
  end.

Definition cond (c : t -> bool) (m1 m2 : M) : M := fun p =>
  if c p then m1 p else m2 p.

Definition por (c1 c2 : t -> bool) : t -> bool := fun p => c1 p || c2 p.
Definition pand (c1 c2 : t -> bool) : t -> bool := fun p => c1 p && c2 p.

Declare Scope parser_scope.
Delimit Scope parser_scope with parser.
Bind Scope parser_scope with M.
Notation "m ;; k" := (bind m k)
  (at level 61, right associativity) : parser_scope.
Notation "c1 ||| c2" := (por c1 c2)
  (at level 50, left associativity) : parser_scope.
Notation "c1 &&& c2" := (pand c1 c2)
  (at level 40, left associativity) : parser_scope.
Local Open Scope parser_scope.

(* ------------------------------------------------------------------ *)
(** ** Helpers *)

(** [void Parser::advance()] *)
Definition advance : M := fun p =>
  let '(tk, l) := Lexer.nextToken (lex_ p) in
  (mk l tk (trace_ p) (policy_ p) (out p), Done).

(** [tok_.type == ty], [tok_.lexeme == s] *)
Definition tokIs (ty : TokenType) : t -> bool := fun p =>
  TokenType_eqb (type (tok_ p)) ty.
Definition lexemeIs (s : string) : t -> bool := fun p =>
  String.eqb (lexeme (tok_ p)) s.

(** [bool Parser::isKw(const char* s) const] *)
Definition isKw (s : string) : t -> bool := fun p =>
  if negb (lenientKeywords (policy_ p))
  then tokIs Keyword p && lexemeIs s p
  else if tokIs Keyword p || tokIs Identifier p
       then lexemeIs s p
       else false.

(** [bool Parser::isOp(const char* s) const], [isSep] *)
Definition isOp  (s : string) : t -> bool := tokIs Operator  &&& lexemeIs s.
Definition isSep (s : string) : t -> bool := tokIs Separator &&& lexemeIs s.

(** The [what()] of the exception [errorHere] throws. *)
Definition error_text (msg : string) (tk : Token) : string :=
  "Syntax error: " ++ msg ++
  " at line " ++ to_string (line tk) ++
  ", col " ++ to_string (col tk) ++
  " (near '" ++ lexeme tk ++ "')".

(** [[[noreturn]] void Parser::errorHere(const std::string&) const] *)
Definition errorHere (msg : string) : M := fun p =>
  (p, ParseError (error_text msg (tok_ p))).

Definition write (o : OutLine) : M := fun p =>
  (mk (lex_ p) (tok_ p) (trace_ p) (policy_ p) (out p ++ [o]), Done).

(** [sink_->emit(line)] *)
Definition emit (text : string) : M := write (Emit text).

(** [void Parser::echoToken()] *)
Definition echoToken : M := fun p =>
  if negb (echoTokens (policy_ p)) then ret p
  else if tokIs EndOfFile p then ret p
  else write (Echo (type (tok_ p)) (lexeme (tok_ p))) p.

(** [void Parser::prod(Rule r, const char* text)] *)
Definition prod (r : Rule) (text : string) : M := fun p =>
  let tr := trace_ p in
  if negb (master tr) then ret p
  else if negb (set_empty (enabled tr)) && (set_count r (enabled tr) =? 0)
  then ret p
  else if hideEpsilon tr && contains text "ε" then ret p
  else if hideOpt tr && contains text "Opt " then ret p
  else if hideScaffolding tr &&
          (contains text "Rat25F" || contains text "Statement List") then ret p
  else emit text p.

(* ------------------------------------------------------------------ *)
(** ** expect *)

Definition expectIdentifier : M :=
  cond (tokIs Identifier)
    (echoToken ;; advance)
    (errorHere "identifier expected").

Definition expectKw (s : string) : M :=
  cond (isKw s)
    (echoToken ;; advance)
    (errorHere ("'" ++ s ++ "' expected")).

Definition expectOp (s : string) : M :=
  cond (isOp s)
    (echoToken ;; advance)
    (errorHere ("operator '" ++ s ++ "' expected")).

Definition expectSep (s : string) : M :=
  cond (isSep s)
    (echoToken ;; advance)
    (errorHere ("separator '" ++ s ++ "' expected")).

(* ------------------------------------------------------------------ *)
(** ** Grammar

    The procedures call one another recursively.  Each is written against a
    table [call] that stands for "call that member function"; [run] below
    ties the knot, counting nested calls. *)

Inductive Proc : Type :=
| P_Rat25F | P_OptFunctionDefinitions | P_FunctionDefinitions
| P_FunctionDefinitionsPrime | P_Function | P_OptParameterList
| P_ParameterList | P_ParameterListPrime | P_Parameter | P_Qualifier
| P_Body | P_OptDeclarationList | P_DeclarationList | P_DeclarationListPrime
| P_Declaration | P_IDs | P_IDsPrime
| P_StatementList | P_StatementListPrime | P_OptStatementList | P_Statement
| P_Compound | P_Assign | P_If | P_OptElse | P_Return | P_Print | P_Scan
| P_While
| P_Condition | P_Relop | P_Expression | P_ExpressionPrime | P_Term
| P_TermPrime | P_Factor | P_Primary | P_PrimaryPrime
| P_skipDocStrings | P_skipBannerStrings.

Section Grammar.

Variable call : Proc -> M.

(** [void Parser::skipDocStrings()]:
    [while (tok_.type == String) { echoToken(); advance(); }],
    the loop unrolled as a call of itself. *)
Definition skipDocStrings : M :=
  cond (tokIs String_)
    (echoToken ;; advance ;; call P_skipDocStrings)
    ret.

(** [void Parser::skipBannerStrings()]:
    [while (tok_.type == String) advance();] *)
Definition skipBannerStrings : M :=
  cond (tokIs String_)
    (advance ;; call P_skipBannerStrings)
    ret.

Definition parseRat25F : M :=
  prod Rat25F "<Rat25F> -> <Opt Function Definitions> <Opt Declaration List> <Statement List>" ;;
  call P_skipBannerStrings ;;
  call P_OptFunctionDefinitions ;;
  call P_skipBannerStrings ;;
  call P_OptDeclarationList ;;
  call P_skipBannerStrings ;;
  call P_StatementList.

Definition parseOptFunctionDefinitions : M :=
  call P_skipBannerStrings ;;
  cond (isKw "function")
    (prod OptFuncDefs "<Opt Function Definitions> -> <Function Definitions>" ;;
     call P_FunctionDefinitions)
    (prod OptFuncDefs "<Opt Function Definitions> -> ε").

Definition parseFunctionDefinitions : M :=
  prod FuncDefs "<Function Definitions> -> <Function> <Function Definitions Prime>" ;;
  call P_Function ;;
  call P_FunctionDefinitionsPrime.

Definition parseFunctionDefinitionsPrime : M :=
  call P_skipBannerStrings ;;
  cond (isKw "function")
    (prod FuncDefsPrime "<Function Definitions Prime> -> <Function> <Function Definitions Prime>" ;;
     call P_Function ;;
     call P_FunctionDefinitionsPrime)
    (prod FuncDefsPrime "<Function Definitions Prime> -> ε").

Definition parseFunction : M :=
  prod Function "<Function> -> function <Identifier> ( <Opt Parameter List> ) <Opt Declaration List> <Body>" ;;
  expectKw "function" ;;
  expectIdentifier ;;
  expectSep "(" ;;
  call P_OptParameterList ;;
  expectSep ")" ;;
  call P_OptDeclarationList ;;
  call P_Body.

Definition parseOptParameterList : M :=
  cond (tokIs Identifier)
    (prod OptParamList "<Opt Parameter List> -> <Parameter List>" ;;
     call P_ParameterList)
    (prod OptParamList "<Opt Parameter List> -> ε").

Definition parseParameterList : M :=
  prod ParamList "<Parameter List> -> <Parameter> <Parameter List Prime>" ;;
  call P_Parameter ;;
  call P_ParameterListPrime.

Definition parseParameterListPrime : M :=
  cond (isSep ",")
    (prod ParamListPrime "<Parameter List Prime> -> , <Parameter> <Parameter List Prime>" ;;
     expectSep "," ;;
     call P_Parameter ;;
     call P_ParameterListPrime)
    (prod ParamListPrime "<Parameter List Prime> -> ε").

Definition parseParameter : M :=
  prod Parameter_ "<Parameter> -> <IDs> <Qualifier>" ;;
  call P_IDs ;;
  call P_Qualifier.

Definition parseQualifier : M :=
  cond (isKw "integer" ||| isKw "boolean" ||| isKw "real")
    (prod Qualifier "<Qualifier> -> integer | boolean | real" ;;
     echoToken ;; advance)
    (errorHere "qualifier (integer|boolean|real) expected").

Definition parseBody : M :=
  prod Body "<Body> -> { <Opt Statement List> }" ;;
  expectSep "{" ;;
  call P_OptStatementList ;;
  expectSep "}".

Definition parseOptDeclarationList : M :=
  cond (isKw "integer" ||| isKw "boolean" ||| isKw "real")
    (prod OptDeclList "<Opt Declaration List> -> <Declaration List>" ;;
     call P_DeclarationList)
    (prod OptDeclList "<Opt Declaration List> -> ε").

Definition parseDeclarationList : M :=
  prod DeclList "<Declaration List> -> <Declaration> ; <Declaration List Prime>" ;;
  call P_Declaration ;;
  expectSep ";" ;;
  call P_DeclarationListPrime.

Definition parseDeclarationListPrime : M :=
  cond (isKw "integer" ||| isKw "boolean" ||| isKw "real")
    (prod DeclListPrime "<Declaration List Prime> -> <Declaration> ; <Declaration List Prime>" ;;
     call P_Declaration ;;
     expectSep ";" ;;
     call P_DeclarationListPrime)
    (prod DeclListPrime "<Declaration List Prime> -> ε").

Definition parseDeclaration : M :=
  prod Declaration "<Declaration> -> <Qualifier> <IDs>" ;;
  call P_Qualifier ;;
  call P_IDs.

Definition parseIDs : M :=
  prod IDs "<IDs> -> <Identifier> <IDs Prime>" ;;
  expectIdentifier ;;
  call P_IDsPrime.

Definition parseIDsPrime : M :=
  cond (isSep ",")
    (prod IDsPrime "<IDs Prime> -> , <IDs>" ;;
     expectSep "," ;;
     call P_IDs)
    (prod IDsPrime "<IDs Prime> -> ε").

(** The test both statement-list procedures apply to decide whether a
    statement can start at the lookahead. *)
Definition can_start_statement : t -> bool :=
  isSep "{" ||| tokIs Identifier ||| isKw "if" ||| isKw "return"
  ||| isKw "put" ||| isKw "get" ||| isKw "while".

Definition parseStatementList : M :=
  call P_skipBannerStrings ;;
  cond (tokIs EndOfFile ||| isSep "}")
    (prod StatementList "<Statement List> -> ε")
    (cond can_start_statement
       (prod StatementList "<Statement List> -> <Statement> <Statement List Prime>" ;;
        call P_Statement ;;
        call P_StatementListPrime)
       (prod StatementList "<Statement List> -> ε")).

Definition parseStatementListPrime : M :=
  call P_skipBannerStrings ;;
  cond (tokIs EndOfFile ||| isSep "}")
    (prod StatementListPrime "<Statement List Prime> -> ε")
    (cond can_start_statement
       (prod StatementListPrime "<Statement List Prime> -> <Statement> <Statement List Prime>" ;;
        call P_Statement ;;
        call P_StatementListPrime)
       (prod StatementListPrime "<Statement List Prime> -> ε")).

Definition parseOptStatementList : M :=
  cond (tokIs EndOfFile ||| isSep "}")
    (prod StatementList "<Statement List> -> ε")
    (call P_StatementList).

Definition parseStatement : M :=
  cond (tokIs String_)
    (advance ;;
     prod Statement "<Statement> -> ε")
    (cond (isSep "{")
       (prod Statement "<Statement> -> <Compound>" ;; call P_Compound)
    (cond (tokIs Identifier)
       (prod Statement "<Statement> -> <Assign>" ;; call P_Assign)
    (cond (isKw "if")
       (prod Statement "<Statement> -> <If>" ;; call P_If)
    (cond (isKw "return")
       (prod Statement "<Statement> -> <Return>" ;; call P_Return)
    (cond (isKw "put")
       (prod Statement "<Statement> -> <Print>" ;; call P_Print)
    (cond (isKw "get")
       (prod Statement "<Statement> -> <Scan>" ;; call P_Scan)
    (cond (isKw "while")
       (prod Statement "<Statement> -> <While>" ;; call P_While)
       (errorHere "statement expected")))))))).

Definition parseCompound : M :=
  prod Compound "<Compound> -> { <Statement List> }" ;;
  expectSep "{" ;;
  call P_StatementList ;;
  expectSep "}".

Definition parseAssign : M :=
  prod Assign "<Assign> -> <Identifier> = <Expression> ;" ;;
  expectIdentifier ;;
  expectOp "=" ;;
  call P_Expression ;;
  expectSep ";".

Definition parseIf : M :=
  prod If "<If> -> if ( <Condition> ) <Statement> <OptElse> fi" ;;
  expectKw "if" ;;
  expectSep "(" ;;
  call P_Condition ;;
  expectSep ")" ;;
  call P_Statement ;;
  call P_OptElse ;;
  expectKw "fi".

Definition parseOptElse : M :=
  cond (isKw "else")
    (prod OptElse "<OptElse> -> else <Statement>" ;;
     expectKw "else" ;;
     call P_Statement)
    (prod OptElse "<OptElse> -> ε").

Definition parseReturn : M :=
  prod Return "<Return> -> return ; | return <Expression> ;" ;;
  expectKw "return" ;;
  cond (isSep ";")
    (expectSep ";")
    (call P_Expression ;;
     expectSep ";").

Definition parsePrint : M :=
  prod Print "<Print> -> put ( <Expression> ) ;" ;;
  expectKw "put" ;;
  expectSep "(" ;;
  call P_Expression ;;
  expectSep ")" ;;
  expectSep ";".

Definition parseScan : M :=
  prod Scan "<Scan> -> get ( <IDs> ) ;" ;;
  expectKw "get" ;;
  expectSep "(" ;;
  call P_IDs ;;
  expectSep ")" ;;
  expectSep ";".

Definition parseWhile : M :=
  prod While "<While> -> while ( <Condition> ) <Statement>" ;;
  expectKw "while" ;;
  expectSep "(" ;;
  call P_Condition ;;
  expectSep ")" ;;
  call P_Statement.

Definition parseCondition : M :=
  prod Condition "<Condition> -> <Expression> <Relop> <Expression>" ;;
  call P_Expression ;;
  call P_Relop ;;
  call P_Expression.

(** [trace_.master && trace_.enabled.count(Rule::Relop)] *)
Definition relop_traced : t -> bool := fun p =>
  master (trace_ p) && negb (set_count Relop (enabled (trace_ p)) =? 0).

Definition parseRelop : M :=
  cond (isOp "==" ||| isOp "!=" ||| isOp ">" ||| isOp "<" ||| isOp "<=" ||| isOp ">=")
    (cond relop_traced
       (fun p => emit ("<Relop> -> " ++ lexeme (tok_ p)) p)
       ret ;;
     echoToken ;;
     advance)
    (errorHere "relational operator expected").

Definition parseExpression : M :=
  prod Expression "<Expression> -> <Term> <Expression Prime>" ;;
  call P_Term ;;
  call P_ExpressionPrime.

Definition parseExpressionPrime : M :=
  cond (isOp "+")
    (prod ExpressionPrime "<Expression Prime> -> + <Term> <Expression Prime>" ;;
     expectOp "+" ;;
     call P_Term ;;
     call P_ExpressionPrime)
    (cond (isOp "-")
       (prod ExpressionPrime "<Expression Prime> -> - <Term> <Expression Prime>" ;;
        expectOp "-" ;;
        call P_Term ;;
        call P_ExpressionPrime)
       (prod ExpressionPrime "<Expression Prime> -> ε")).

Definition parseTerm : M :=
  prod Term "<Term> -> <Factor> <Term Prime>" ;;
  call P_Factor ;;
  call P_TermPrime.

Definition parseTermPrime : M :=
  cond (isOp "*")
    (prod TermPrime "<Term Prime> -> * <Factor> <Term Prime>" ;;
     expectOp "*" ;;
     call P_Factor ;;
     call P_TermPrime)
    (cond (isOp "/")
       (prod TermPrime "<Term Prime> -> / <Factor> <Term Prime>" ;;
        expectOp "/" ;;
        call P_Factor ;;
        call P_TermPrime)
       (prod TermPrime "<Term Prime> -> ε")).

Definition parseFactor : M :=
  cond (isOp "-")
    (prod Factor "<Factor> -> - <Primary>" ;;
     expectOp "-" ;;
     call P_Primary)
    (prod Factor "<Factor> -> <Primary>" ;;
     call P_Primary).

Definition parsePrimary : M :=
  cond (tokIs Identifier)
    (prod Primary "<Primary> -> <Identifier> <Primary Prime>" ;;
     expectIdentifier ;;
     call P_PrimaryPrime)
  (cond (tokIs Integer)
    (prod Primary "<Primary> -> <Integer>" ;;
     echoToken ;; advance)
  (cond (tokIs Real)
    (prod Primary "<Primary> -> <Real>" ;;
     echoToken ;; advance)
  (cond (isSep "(")
    (prod Primary "<Primary> -> ( <Expression> )" ;;
     expectSep "(" ;;
     call P_Expression ;;
     expectSep ")")
  (cond ((lexemeIs "true" ||| lexemeIs "false")
         &&& (tokIs Identifier ||| tokIs Keyword))
    (prod Primary "<Primary> -> true | false" ;;
     echoToken ;; advance)
  (cond ((fun p => allowStringPrimary (policy_ p)) &&& tokIs String_)
    (prod Primary "<Primary> -> <String>" ;;
     echoToken ;; advance)
    (errorHere "primary expected")))))).

Definition parsePrimaryPrime : M :=
  cond (isSep "(")
    (prod PrimaryPrime "<Primary Prime> -> ( <IDs> )" ;;
     expectSep "(" ;;
     call P_IDs ;;
     expectSep ")")
    (prod PrimaryPrime "<Primary Prime> -> ε").

(** The body of each member function. *)
Definition body (f : Proc) : M :=
  match f with
  | P_Rat25F => parseRat25F
  | P_OptFunctionDefinitions => parseOptFunctionDefinitions
  | P_FunctionDefinitions => parseFunctionDefinitions
  | P_FunctionDefinitionsPrime => parseFunctionDefinitionsPrime
  | P_Function => parseFunction
  | P_OptParameterList => parseOptParameterList
  | P_ParameterList => parseParameterList
  | P_ParameterListPrime => parseParameterListPrime
  | P_Parameter => parseParameter
  | P_Qualifier => parseQualifier
  | P_Body => parseBody
  | P_OptDeclarationList => parseOptDeclarationList
  | P_DeclarationList => parseDeclarationList
  | P_DeclarationListPrime => parseDeclarationListPrime
  | P_Declaration => parseDeclaration
  | P_IDs => parseIDs
  | P_IDsPrime => parseIDsPrime
  | P_StatementList => parseStatementList
  | P_StatementListPrime => parseStatementListPrime
  | P_OptStatementList => parseOptStatementList
  | P_Statement => parseStatement
  | P_Compound => parseCompound
  | P_Assign => parseAssign
  | P_If => parseIf
  | P_OptElse => parseOptElse
  | P_Return => parseReturn
  | P_Print => parsePrint
  | P_Scan => parseScan
  | P_While => parseWhile
  | P_Condition => parseCondition
  | P_Relop => parseRelop
  | P_Expression => parseExpression
  | P_ExpressionPrime => parseExpressionPrime
  | P_Term => parseTerm
  | P_TermPrime => parseTermPrime
  | P_Factor => parseFactor
  | P_Primary => parsePrimary
  | P_PrimaryPrime => parsePrimaryPrime
  | P_skipDocStrings => skipDocStrings
  | P_skipBannerStrings => skipBannerStrings
  end.

End Grammar.

(** Calling member function [f] with room for [fuel] nested calls, [fuel]
    standing for the depth the call stack affords. *)
Fixpoint run (fuel : nat) (f : Proc) (p : t) {struct fuel} : t * Result :=
  match fuel with
  | O => (p, OutOfFuel)
  | S fuel' => body (run fuel') f p
  end.

(** [Parser::Parser(Lexer&, TraceConfig, ParserPolicy, sink)]: the members
    are stored, [tok_] is value-initialised, then [advance()] reads the
    first token. *)
Definition init (l : Lexer.t) (tr : TraceConfig) (po : ParserPolicy) : t :=
  fst (advance (mk l (mkToken Keyword EmptyString 0%N 0%N) tr po [])).

(** [void Parser::parse(StartSymbol)] *)
Definition parse (fuel : nat) (start : StartSymbol) : M :=
  match start with
  | Program     => run fuel P_Rat25F
  | Statement_  => run fuel P_Statement
  | Expression_ => run fuel P_Expression
  end.

End Parser.

(** [run_one] of main.cpp without its file handling: scanner and parser are
    built over the text, [parse(StartSymbol::Program)] runs, and the lines
    written are returned with the way the run ended. *)
Definition run_text (fuel : nat) (tr : TraceConfig) (po : ParserPolicy)
  (src : string) : list OutLine * Result :=
  let '(p, r) := Parser.parse fuel Program (Parser.init (Lexer.init src) tr po) in
  (Parser.out p, r).

(** The configuration [main] sets up. *)
Definition main_trace : TraceConfig :=
  mkTrace true false true true [Statement; Assign; If; Return; Print; Scan; While].
Definition main_policy : ParserPolicy := mkPolicy true true true.

(* ================================================================== *)
(** * Vocabulary of the properties *)

Import Parser.
Local Open Scope parser_scope.

(** The longest prefix of [s] whose characters pass [p] ... *)
Fixpoint take_while (p : ascii -> bool) (s : string) : string :=
  match s with
  | EmptyString => EmptyString
  | String c s' => if p c then String c (take_while p s') else EmptyString
  end.

(** ... and what is left of [s] behind it. *)
Fixpoint drop_while (p : ascii -> bool) (s : string) : string :=
  match s with
  | EmptyString => EmptyString
  | String c s' => if p c then drop_while p s' else s
  end.

(** Every character of [s] passes [p]. *)
Fixpoint all_chars (p : ascii -> bool) (s : string) : bool :=
  match s with
  | EmptyString => true
  | String c s' => p c && all_chars p s'
  end.

(** [s] without its first character. *)
Definition tail (s : string) : string :=
  match s with
  | EmptyString => EmptyString
  | String _ s' => s'
  end.

(** The text the scanner still has to look at: the current character and
    what the stream holds, nothing once [eof] is set. *)
Definition view (l : Lexer.t) : string :=
  if Lexer.eof l then EmptyString
  else String (Lexer.current l) (Lexer.input l).

(** [eof] is only ever set by an [advance()] that found the stream empty,
    and the stream stays empty from then on. *)
Definition stream_ok (l : Lexer.t) : Prop :=
  Lexer.eof l = true -> Lexer.input l = EmptyString.

(** The token [nextToken()] returns once the input is exhausted. *)
Definition eof_token (l : Lexer.t) : Token :=
  mkToken EndOfFile EmptyString (Lexer.line l) (Lexer.col l).

(** The condition under which [scanOpOrSep] reads a two-character operator. *)
Definition two_char_op (c p : ascii) : bool :=
  (Ascii.eqb c "<" && Ascii.eqb p "=") ||
  (Ascii.eqb c ">" && Ascii.eqb p "=") ||
  (Ascii.eqb c "=" && Ascii.eqb p "=") ||
  (Ascii.eqb c "!" && Ascii.eqb p "=") ||
  (Ascii.eqb c "&" && Ascii.eqb p "&") ||
  (Ascii.eqb c "|" && Ascii.eqb p "|").

(** The lexemes the scanner forms for each kind of token other than
    [String_] and [EndOfFile]. *)
Inductive shape : TokenType -> string -> Prop :=
| shape_word c w :
    Lexer.isLetter c = true -> all_chars Lexer.isIdentRest w = true ->
    shape (if Lexer.isKeyword (String c w) then Keyword else Identifier)
          (String c w)
| shape_integer d w :
    isdigit d = true -> all_chars isdigit w = true ->
    shape Integer (String d w)
| shape_real d w e v :
    isdigit d = true -> all_chars isdigit w = true ->
    isdigit e = true -> all_chars isdigit v = true ->
    shape Real (String d w ++ String "." (String e v))
| shape_dot_real e v :
    isdigit e = true -> all_chars isdigit v = true ->
    shape Real (String "." (String e v))
| shape_op2 c p :
    two_char_op c p = true ->
    shape Operator (String c (String p EmptyString))
| shape_op1 c :
    Lexer.isOperatorStart c = true ->
    shape Operator (String c EmptyString)
| shape_sep c :
    Lexer.isSeparator c = true ->
    shape Separator (String c EmptyString)
| shape_unknown c :
    isspace c = false -> Lexer.not_quote c = true ->
    Lexer.isLetter c = false -> isdigit c = false ->
    Lexer.isSeparator c = false -> Lexer.isOperatorStart c = false ->
    shape Unknown (String c EmptyString).

(** [peek()] in terms of the text still to be read. *)
Definition next_char (s : string) : ascii :=
  match s with
  | EmptyString => ascii_of_nat 255
  | String e _ => e
  end.

(** What [scanNumberFSM] makes of the text [s] in front of it. *)
Definition number_reading (s : string) : TokenType * string * string :=
  let w := take_while isdigit s in
  match drop_while isdigit s with
  | String dot (String e r) =>
      if Ascii.eqb dot "." && isdigit e
      then (Real, w ++ String dot (take_while isdigit (String e r)),
            drop_while isdigit (String e r))
      else (Integer, w, String dot (String e r))
  | rest => (Integer, w, rest)
  end.

(** What [scanOpOrSep] makes of the current character [c] and the text
    [s] behind it. *)
Definition op_reading (c : ascii) (s : string) : TokenType * string * string :=
  let p := next_char s in
  if two_char_op c p then (Operator, String c (String p ""), tail s)
  else if Lexer.isOperatorStart c && negb (Lexer.lone c) then (Operator, String c "", s)
  else if Lexer.isSeparator c then (Separator, String c "", s)
  else if Lexer.lone c then (Operator, String c "", s)
  else (Unknown, String c "", s).

(** The scanner and the parser as constructed over a source text. *)
Definition parser_at (src : string) (tr : TraceConfig) (po : ParserPolicy)
  : Parser.t :=
  Parser.init (Lexer.init src) tr po.

(** Procedure [m], run from [p], ends with the property [J] of the parser
    object; and an error it ends with was raised by [errorHere] on the token
    the parser stopped at ... *)
Definition kept (J : Parser.t -> Prop) (m : M) (p : Parser.t) : Prop :=
  J (fst (m p)) /\
  forall msg, snd (m p) = ParseError msg ->
    exists d, msg = error_text d (tok_ (fst (m p))).

(** ... from every parser object that has the property. *)
Definition keeps (J : Parser.t -> Prop) (m : M) : Prop :=
  forall p, J p -> kept J m p.

(** [m2] ends as [m1] does whenever [m1] does not run out of fuel. *)
Definition refines (m1 m2 : M) : Prop :=
  forall p, snd (m1 p) <> OutOfFuel -> m2 p = m1 p.

(** The parser object after it wrote [lines]. *)
Definition wrote (p : Parser.t) (lines : list OutLine) : Parser.t :=
  Parser.mk (lex_ p) (tok_ p) (trace_ p) (policy_ p) (out p ++ lines).

(** Whether [prod r text] lets the line through under configuration [tr]. *)
Definition shown (r : Rule) (text : string) (tr : TraceConfig) : bool :=
  master tr &&
  (set_empty (enabled tr) || negb (set_count r (enabled tr) =? 0)) &&
  negb (hideEpsilon tr && contains text "ε") &&
  negb (hideOpt tr && contains text "Opt ") &&
  negb (hideScaffolding tr &&
        (contains text "Rat25F" || contains text "Statement List")).

(** The four expect checks of the parser. *)
Inductive Expect : Type :=
| ExpectIdentifier
| ExpectKw (s : string)
| ExpectOp (s : string)
| ExpectSep (s : string).

(** The member function that performs the check. *)
Definition expect (e : Expect) : M :=
  match e with
  | ExpectIdentifier => expectIdentifier
  | ExpectKw s => expectKw s
  | ExpectOp s => expectOp s
  | ExpectSep s => expectSep s
  end.

(** The test an expect check applies to the current token. *)
Definition expected (e : Expect) : Parser.t -> bool :=
  match e with
  | ExpectIdentifier => tokIs Identifier
  | ExpectKw s => isKw s
  | ExpectOp s => isOp s
  | ExpectSep s => isSep s
  end.

(** How the error message names what was expected. *)
Definition description (e : Expect) : string :=
  match e with
  | ExpectIdentifier => "identifier expected"
  | ExpectKw s => "'" ++ s ++ "' expected"
  | ExpectOp s => "operator '" ++ s ++ "' expected"
  | ExpectSep s => "separator '" ++ s ++ "' expected"
  end.

(** Lenient keywords off. *)
Definition strict_policy : ParserPolicy := mkPolicy true false true.

(** The test that guards the alternative in [parsePrimary]. *)
Definition true_false_guard : Parser.t -> bool :=
  (lexemeIs "true" ||| lexemeIs "false") &&& (tokIs Identifier ||| tokIs Keyword).

(** The token the parser holds always came from the scanner. *)
Definition from_scanner (p : Parser.t) : Prop :=
  exists l, tok_ p = fst (Lexer.nextToken l).

(** The trace line of the alternative. *)
Definition true_false_line : string := "<Primary> -> true | false".

(** The token came from the scanner and the line has not been written. *)
Definition no_true_false_line (p : Parser.t) : Prop :=
  from_scanner p /\ ~ In (Emit true_false_line) (out p).

(** Tracing on, nothing hidden, the allow-set empty. *)
Definition show_all : TraceConfig := mkTrace true false false false [].

(** The scanner states a run over [src] goes through. *)
Inductive reachable (src : string) : Lexer.t -> Prop :=
| reach_init : reachable src (Lexer.init src)
| reach_next l : reachable src l -> reachable src (snd (Lexer.nextToken l)).

(** The tokens the scanner returns over [src]. *)
Definition scanned (src : string) (tk : Token) : Prop :=
  exists l, reachable src l /\ tk = fst (Lexer.nextToken l).

(** The lexemes of the echo lines, in order. *)
Fixpoint echoed_lexemes (lines : list OutLine) : list string :=
  match lines with
  | [] => []
  | Echo _ lex :: rest => lex :: echoed_lexemes rest
  | Emit _ :: rest => echoed_lexemes rest
  end.

(** An echo line shows the kind and lexeme of a token scanned over [src]. *)
Definition echo_ok (src : string) (o : OutLine) : Prop :=
  match o with
  | Echo k lex =>
      exists tk, scanned src tk /\ kind_lexeme tk = (k, lex) /\ k <> EndOfFile
  | Emit _ => True
  end.

(** What holds of the parser throughout a run over [src]. *)
Definition echo_inv (src : string) (p : Parser.t) : Prop :=
  reachable src (lex_ p) /\ scanned src (tok_ p) /\ Forall (echo_ok src) (out p).

(** Tracing off: only the token echo is written. *)
Definition quiet : TraceConfig := mkTrace false true true true [].

(* ------------------------------------------------------------------ *)
(** ** What the scanner reads *)

(** What [nextToken()] makes of the unread text [s]: the kind of the token,
    its lexeme, and the text left unread. *)
Definition reading (s : string) : TokenType * string * string :=
  match drop_while isspace s with
  | EmptyString => (EndOfFile, EmptyString, EmptyString)
  | String c r =>
      if Ascii.eqb c quote
      then (String_, take_while Lexer.not_quote r,
            tail (drop_while Lexer.not_quote r))
      else if Ascii.eqb c "." && isdigit (next_char r)
      then (Real, String c (take_while isdigit r), drop_while isdigit r)
      else if Lexer.isLetter c
      then (if Lexer.isKeyword (String c (take_while Lexer.isIdentRest r))
            then Keyword else Identifier,
            String c (take_while Lexer.isIdentRest r),
            drop_while Lexer.isIdentRest r)
      else if isdigit c then number_reading (String c r)
      else if Lexer.isSeparator c || Lexer.isOperatorStart c then op_reading c r
      else (Unknown, String c EmptyString, r)
  end.

(** The lexemes of [Operator] and of [Separator] tokens. *)
Definition operator_lexemes : list string :=
  ["<="; ">="; "=="; "!="; "&&"; "||";
   "+"; "-"; "*"; "/"; "="; "<"; ">"; "!"; "&"; "|"].

Definition separator_lexemes : list string :=
  ["("; ")"; "{"; "}"; "["; "]"; ","; ";"].

(** A letter followed by letters, digits, '$' and '_'. *)
Definition is_word (lex : string) : bool :=
  match lex with
  | EmptyString => false
  | String c w => Lexer.isLetter c && all_chars Lexer.isIdentRest w
  end.

(** Digits (none allowed), a dot, and at least one digit. *)
Definition is_real (lex : string) : bool :=
  match drop_while isdigit lex with
  | String dot (String e v) =>
      Ascii.eqb dot "." && isdigit e && all_chars isdigit v
  | _ => false
  end.

(** Whether [lex] is a lexeme a token of kind [k] can carry. *)
Definition lexeme_ok (k : TokenType) (lex : string) : bool :=
  match k with
  | Keyword    => is_word lex && Lexer.isKeyword lex
  | Identifier => is_word lex && negb (Lexer.isKeyword lex)
  | Integer    => negb (String.eqb lex EmptyString) && all_chars isdigit lex
  | Real       => is_real lex
  | Operator   => existsb (String.eqb lex) operator_lexemes
  | Separator  => existsb (String.eqb lex) separator_lexemes
  | String_    => all_chars Lexer.not_quote lex
  | Unknown    =>
      match lex with
      | String c EmptyString =>
          negb (isspace c) && Lexer.not_quote c && negb (Lexer.isLetter c) &&
          negb (isdigit c) && negb (Lexer.isSeparator c) &&
          negb (Lexer.isOperatorStart c)
      | _ => false
      end
  | EndOfFile  => String.eqb lex EmptyString
  end.

(** The text [s] is empty or starts with a character that fails [p]. *)
Definition stops (p : ascii -> bool) (s : string) : bool :=
  match s with
  | EmptyString => true
  | String c _ => negb (p c)
  end.

(** The text [s] starts with a dot and a digit. *)
Definition starts_fraction (s : string) : bool :=
  match s with
  | String dot (String e _) => Ascii.eqb dot "." && isdigit e
  | _ => false
  end.

(** Longest match: behind a token of kind [k] with lexeme [lex], the unread
    text [rest] does not continue the token. *)
Definition munched (k : TokenType) (lex rest : string) : bool :=
  match k with
  | Keyword | Identifier => stops Lexer.isIdentRest rest
  | Integer => stops isdigit rest && negb (starts_fraction rest)
  | Real => stops isdigit rest
  | Operator =>
      match lex with
      | String c EmptyString => negb (two_char_op c (next_char rest))
      | _ => true
      end
  | _ => true
  end.

(* ------------------------------------------------------------------ *)
(** ** Line and column *)

(** The line feed, on which [advance()] starts a new line. *)
Definition newline : ascii := "010".

Definition not_newline (c : ascii) : bool := negb (Ascii.eqb c newline).

(** The number of line feeds in [s]. *)
Fixpoint count_newlines (s : string) : N :=
  match s with
  | EmptyString => 0%N
  | String c r => ((if Ascii.eqb c newline then 1 else 0) + count_newlines r)%N
  end.

Fixpoint string_rev (s : string) : string :=
  match s with
  | EmptyString => EmptyString
  | String c r => string_rev r ++ String c EmptyString
  end.

(** The number of characters of [s] behind its last line feed. *)
Definition chars_since_newline (s : string) : N :=
  N.of_nat (String.length (take_while not_newline (string_rev s))).

(** The scanner has read the text [pre] of [src], and its counters say so. *)
Definition positioned (src : string) (l : Lexer.t) (pre : string) : Prop :=
  src = pre ++ Lexer.input l /\
  Lexer.line l = ((1 + count_newlines pre) mod size_max)%N /\
  Lexer.col l = (chars_since_newline pre mod size_max)%N.

Definition tracks (src : string) (l : Lexer.t) : Prop :=
  exists pre, positioned src l pre.

(* ------------------------------------------------------------------ *)
(** ** What a parse writes, and that it ends *)

(** The two kinds of output line. *)
Definition is_echo (o : OutLine) : bool :=
  match o with Echo _ _ => true | Emit _ => false end.

Definition is_emit (o : OutLine) : bool := negb (is_echo o).

(** The configuration is [tr] and [po], and all lines written pass [ok]. *)
Definition writes_only (ok : OutLine -> bool) (tr : TraceConfig)
  (po : ParserPolicy) (p : Parser.t) : Prop :=
  trace_ p = tr /\ policy_ p = po /\ forallb ok (out p) = true.

(** The tokens the parser has not consumed, counted generously: the
    characters the scanner has not read, and one for the current token
    unless it is the end-of-input token. *)
Definition tokens_left (p : Parser.t) : nat :=
  String.length (view (lex_ p)) + (if tokIs EndOfFile p then 0 else 1).

(** The parser's scanner is in order, and the end-of-input token is only
    held once the scanner is at the end. *)
Definition sound (p : Parser.t) : Prop :=
  stream_ok (lex_ p) /\
  (tokIs EndOfFile p = true -> Lexer.eof (lex_ p) = true).

(** The procedures that consume at least one token whenever they return
    normally. *)
Definition strict (f : Proc) : bool :=
  match f with
  | P_FunctionDefinitions | P_Function | P_ParameterList | P_Parameter
  | P_Qualifier | P_Body | P_DeclarationList | P_Declaration | P_IDs
  | P_Statement | P_Compound | P_Assign | P_If | P_Return | P_Print
  | P_Scan | P_While | P_Condition | P_Relop | P_Expression | P_Term
  | P_Factor | P_Primary => true
  | _ => false
  end.

(** How deep a procedure can call others before a token is consumed. *)
Definition rank (f : Proc) : nat :=
  match f with
  | P_Rat25F => 4
  | P_OptParameterList | P_OptDeclarationList | P_OptStatementList
  | P_Expression => 3
  | P_Condition => 4
  | P_OptFunctionDefinitions | P_ParameterList | P_DeclarationList
  | P_DeclarationListPrime | P_StatementList | P_StatementListPrime
  | P_Term => 2
  | P_FunctionDefinitions | P_FunctionDefinitionsPrime | P_Parameter
  | P_Declaration | P_Statement | P_Factor => 1
  | _ => 0
  end.

(** Procedure [m], run from [p], ends by returning or throwing; it leaves
    the parser in order and with no more tokens than it found, and with
    fewer if it is [s]trict and returned normally. *)
Definition ends (m : M) (s : bool) (p : Parser.t) : Prop :=
  snd (m p) <> OutOfFuel /\
  sound (fst (m p)) /\
  tokens_left (fst (m p)) <= tokens_left p /\
  (s = true -> snd (m p) = Done -> tokens_left (fst (m p)) < tokens_left p).

(** The budget left for the calls of a procedure body running with
    [S n]: before a token has been consumed ([c = false]) the callee must be
    of lower rank than [rk], afterwards any callee will do. *)
Definition allowed (n rk : nat) (c : bool) (p : Parser.t) : Prop :=
  if c then 5 * tokens_left p + 5 <= n else rk + 5 * tokens_left p <= n.

(** [m] ends from every parser in order that the budget allows and, if
    [ne], that does not hold the end-of-input token. *)
Definition ends_within (n rk : nat) (ne c : bool) (m : M) (s : bool) : Prop :=
  forall p, sound p -> (ne = true -> tokIs EndOfFile p = false) ->
            allowed n rk c p -> ends m s p.

(** [m] only writes: it returns normally and leaves token and scanner
    alone. *)
Definition writes_output_only (m : M) : Prop :=
  forall p, snd (m p) = Done /\ tok_ (fst (m p)) = tok_ p /\
            lex_ (fst (m p)) = lex_ p.

(** A recursion budget that suffices for a source text. *)
Definition enough_fuel (src : string) : nat := 5 + 5 * String.length src.

(** A test that never succeeds on the end-of-input token. *)
Definition guards (b : Parser.t -> bool) : Prop :=
  forall p, b p = true -> tokIs EndOfFile p = false.

(* ------------------------------------------------------------------ *)
(** ** main.cpp *)

(** What [ConsoleSink::emit] and [echoToken] send to [std::cout]: every
    line and a newline. *)
Fixpoint print_lines (lines : list OutLine) : string :=
  match lines with
  | [] => ""
  | o :: rest => render o ++ String newline (print_lines rest)
  end.

(** [e.what()] as [operator<<] prints it: a C string, which ends at the
    first NUL character of the message. *)
Definition c_str (s : string) : string :=
  take_while (fun c => negb (Ascii.eqb c zero)) s.

(** [run_one] from the point where both files are open: the text that
    reaches the output file, to which [std::cout] and [std::cerr] are both
    redirected, and the value returned.  [depth] is the nesting of calls
    the call stack has room for; when the parser needs more the process is
    killed and [run_one] does not return ([None]). *)
Definition run_one_opened (depth : nat) (trace : TraceConfig)
    (policy : ParserPolicy) (src : string) : option (string * N) :=
  let '(lines, r) := run_text depth trace policy src in
  match r with
  | Done =>
      Some (print_lines lines ++ "Parsing finished successfully."
              ++ String newline "",
            0%N)
  | ParseError what =>
      Some (print_lines lines ++ c_str what ++ String newline "", 1%N)
  | OutOfFuel => None
  end.

Section Main.

(** The file system and the terminal, with what [run_one] does to them for
    a pair of paths and what [std::cerr << text] does. *)
Variable World : Type.
Variable run_one :
  string -> string -> TraceConfig -> ParserPolicy -> World -> World * N.
Variable cerr : string -> World -> World.

Definition default_jobs : list (string * string) :=
  [("tests/test0.rat25f", "tests/output0.txt");
   ("tests/test1.rat25f", "tests/output1.txt");
   ("tests/test2.rat25f", "tests/output2.txt");
   ("tests/test3.rat25f", "tests/output3.txt")].

(** The two loops of [main], [rc |= run_one(...)] for each job in turn;
    the first also announces each job on [std::cerr]. *)
Fixpoint run_jobs (announce : bool) (jobs : list (string * string))
    (rc : N) (w : World) : World * N :=
  match jobs with
  | [] => (w, rc)
  | (inP, outP) :: rest =>
      let w1 :=
        if announce
        then cerr ("==> " ++ inP ++ " -> " ++ outP ++ String newline "") w
        else w in
      let '(w2, r) := run_one inP outP main_trace main_policy w1 in
      run_jobs announce rest (N.lor rc r) w2
  end.

(** [argv[i], argv[i+1]] for [i = 1, 3, ...] while [i + 1 < argc], given
    the arguments after [argv[0]]. *)
Fixpoint pairs (args : list string) : list (string * string) :=
  match args with
  | a :: b :: rest => (a, b) :: pairs rest
  | _ => []
  end.

(** [int main(int argc, char** argv)] *)
Definition main (argv : list string) (w : World) : World * N :=
  let argc := List.length argv in
  if argc =? 1 then run_jobs true default_jobs 0%N w
  else if (argc <? 3) || (argc mod 2 =? 0) then
    (cerr ("Or run with no args to process tests/test{0..3}.rat25f."
           ++ String newline "")
       (cerr ("Usage: " ++ hd "" argv
              ++ " <input1> <output1> [<input2> <output2> ...]"
              ++ String newline "") w),
     1%N)
  else run_jobs false (pairs (tl argv)) 0%N w.

(** The file system and terminal once [run_one] has run for every job in
    turn, whatever each call returned. *)
Fixpoint after_jobs (announce : bool) (jobs : list (string * string))
    (w : World) : World :=
  match jobs with
  | [] => w
  | (inP, outP) :: rest =>
      let w1 :=
        if announce
        then cerr ("==> " ++ inP ++ " -> " ++ outP ++ String newline "") w
        else w in
      after_jobs announce rest
        (fst (run_one inP outP main_trace main_policy w1))
  end.

(** The values [run_one] returns for the jobs, in order. *)
Fixpoint job_codes (announce : bool) (jobs : list (string * string))
    (w : World) : list N :=
  match jobs with
  | [] => []
  | (inP, outP) :: rest =>
      let w1 :=
        if announce
        then cerr ("==> " ++ inP ++ " -> " ++ outP ++ String newline "") w
        else w in
      let '(w2, r) := run_one inP outP main_trace main_policy w1 in
      r :: job_codes announce rest w2
  end.

End Main.

(* ------------------------------------------------------------------ *)
(** ** Where a token starts *)

(** The 1-based line and column of the character that follows [pre] in a
    text. *)
Definition start_of (pre : string) : N * N :=
  ((1 + count_newlines pre)%N, (1 + chars_since_newline pre)%N).

(** An identifier, a line feed, an identifier. *)
Definition x_newline_y : string := "x" ++ String newline "y".

(* ------------------------------------------------------------------ *)
(** ** The token echo and the tokens consumed *)

(** The kind and lexeme of the echo lines, in order. *)
Fixpoint echoed (lines : list OutLine) : list (TokenType * string) :=
  match lines with
  | [] => []
  | Echo k lex :: rest => (k, lex) :: echoed rest
  | Emit _ :: rest => echoed rest
  end.

Definition is_string (tk : Token) : bool := TokenType_eqb (type tk) String_.
Definition not_end (tk : Token) : bool :=
  negb (TokenType_eqb (type tk) EndOfFile).
Definition any_token (tk : Token) : bool := true.
Definition not_string (e : TokenType * string) : bool :=
  negb (TokenType_eqb (fst e) String_).

(** [es] is the kind and lexeme of the tokens [tks], in order, with some of
    the string literals left out. *)
Inductive strings_apart : list Token -> list (TokenType * string) -> Prop :=
| apart_nil : strings_apart [] []
| apart_echo tks es tk :
    strings_apart tks es ->
    strings_apart (tks ++ [tk]) (es ++ [kind_lexeme tk])
| apart_skip tks es tk :
    type tk = String_ ->
    strings_apart tks es ->
    strings_apart (tks ++ [tk]) es.

(** The echo is on; the parser has taken some [k] tokens from the scanner
    over [src] and holds the next one; none of the [k] is the end-of-input
    token, and the echo shows them in order, string literals apart. *)
Definition follows_echo (src : string) (p : Parser.t) : Prop :=
  echoTokens (policy_ p) = true /\
  exists k : nat,
    tok_ p = fst (Lexer.nextToken (snd (Lexer.nextTokens k (Lexer.init src)))) /\
    lex_ p = snd (Lexer.nextToken (snd (Lexer.nextTokens k (Lexer.init src)))) /\
    forallb not_end (fst (Lexer.nextTokens k (Lexer.init src))) = true /\
    strings_apart (fst (Lexer.nextTokens k (Lexer.init src))) (echoed (out p)).

(** [m] keeps [follows_echo] when started on a token of class [C]. *)
Definition echo_kept (src : string) (C : Token -> bool) (m : M) : Prop :=
  forall p, follows_echo src p -> C (tok_ p) = true ->
            follows_echo src (fst (m p)).

(** [m] touches neither token, scanner, policy nor echo. *)
Definition silent (m : M) : Prop :=
  forall p, tok_ (fst (m p)) = tok_ p /\ lex_ (fst (m p)) = lex_ p /\
            policy_ (fst (m p)) = policy_ p /\
            echoed (out (fst (m p))) = echoed (out p).

(** What the echo of a parse over [src] that ended in [p] is: for some [k],
    the parser holds token number [k] of the text (the end-of-input token
    if the text has only [k]), and the echo lines are the first [k] tokens,
    in order, string literals apart; if the parser holds the end-of-input
    token these are all the tokens of the text; and each echoed lexeme that
    is no string literal reads back as the token it came from. *)
Definition echo_is_consumed (src : string) (p : Parser.t) : Prop :=
  exists k : nat,
    k <= List.length (tokens_of src) /\
    kind_lexeme (tok_ p) =
      nth k (map kind_lexeme (tokens_of src)) (EndOfFile, "") /\
    strings_apart (firstn k (tokens_of src)) (echoed (out p)) /\
    filter not_string (echoed (out p)) =
      filter not_string (map kind_lexeme (firstn k (tokens_of src))) /\
    (tokIs EndOfFile p = true -> firstn k (tokens_of src) = tokens_of src) /\
    (forall (kd : TokenType) (lex : string),
        In (kd, lex) (echoed (out p)) -> kd <> String_ ->
        map kind_lexeme (tokens_of lex) = [(kd, lex)]).

(* ------------------------------------------------------------------ *)
(** ** Nested parentheses *)

(** [k] opening parentheses in front of [rest]. *)
Fixpoint parens (k : nat) (rest : string) : string :=
  match k with
  | O => rest
  | S k' => String "(" (parens k' rest)
  end.

(** The parser holds an opening parenthesis. *)
Definition at_paren (p : Parser.t) : Prop :=
  kind_lexeme (tok_ p) = (Separator, "(").

(* ================================================================== *)
(** * The scanner: basic facts *)

Lemma TokenType_eqb_eq (a b : TokenType) : TokenType_eqb a b = true <-> a = b.
Proof. destruct a, b; simpl; split; congruence. Qed.

Lemma TokenType_eqb_neq (a b : TokenType) : TokenType_eqb a b = false <-> a <> b.
Proof. destruct a, b; simpl; split; congruence. Qed.

Example scan_demo :
  map kind_lexeme (tokens_of "x = 3.5 + y1;") =
  [(Identifier, "x"); (Operator, "="); (Real, "3.5"); (Operator, "+");
   (Identifier, "y1"); (Separator, ";")].
Proof. vm_compute. reflexivity. Qed.

Lemma string_app_nil_r (s : string) : s ++ "" = s.
Proof. induction s; simpl; congruence. Qed.

Lemma string_app_assoc (a b c : string) : (a ++ b) ++ c = a ++ (b ++ c).
Proof. induction a; simpl; congruence. Qed.

Lemma push_back_app (lex : string) (c : ascii) (w : string) :
  push_back lex c ++ w = lex ++ String c w.
Proof. unfold push_back. now rewrite string_app_assoc. Qed.

Lemma take_while_all (p : ascii -> bool) (s : string) :
  all_chars p (take_while p s) = true.
Proof.
  induction s as [|c s IH]; simpl; auto.
  destruct (p c) eqn:E; simpl; auto. now rewrite E.
Qed.

Lemma take_while_id (p : ascii -> bool) (w : string) :
  all_chars p w = true -> take_while p w = w /\ drop_while p w = "".
Proof.
  induction w as [|c w IH]; simpl; auto.
  intros H. apply andb_prop in H as [Hc Hw]. rewrite Hc.
  destruct (IH Hw) as [-> ->]. auto.
Qed.

Lemma take_while_stop (p : ascii -> bool) (w : string) (d : ascii) (r : string) :
  all_chars p w = true -> p d = false ->
  take_while p (w ++ String d r) = w /\ drop_while p (w ++ String d r) = String d r.
Proof.
  induction w as [|c w IH]; simpl; intros Hw Hd.
  - now rewrite Hd.
  - apply andb_prop in Hw as [Hc Hw]. rewrite Hc.
    destruct (IH Hw Hd) as [-> ->]. auto.
Qed.

Lemma view_nil_iff (l : Lexer.t) : view l = "" <-> Lexer.eof l = true.
Proof. unfold view. destruct (Lexer.eof l); split; congruence. Qed.

Lemma view_cons (l : Lexer.t) (c : ascii) (s : string) :
  view l = String c s ->
  Lexer.eof l = false /\ Lexer.current l = c /\ Lexer.input l = s.
Proof. unfold view. destruct (Lexer.eof l); intros H; inversion H; auto. Qed.

Lemma view_length (l : Lexer.t) : String.length (view l) <= Lexer.loop_bound l.
Proof. unfold view, Lexer.loop_bound. destruct (Lexer.eof l); simpl; lia. Qed.

Lemma advance_view (l : Lexer.t) :
  stream_ok l -> view (Lexer.advance l) = tail (view l) /\ stream_ok (Lexer.advance l).
Proof.
  unfold stream_ok, view, Lexer.advance. intros Hok.
  destruct (Lexer.input l) as [|ch rest] eqn:Hin.
  - simpl. destruct (Lexer.eof l); auto.
  - destruct (Lexer.eof l) eqn:He.
    + specialize (Hok eq_refl). discriminate.
    + destruct (Ascii.eqb ch "010"); simpl; split; auto; discriminate.
Qed.

Lemma init_view (src : string) : view (Lexer.init src) = src /\ stream_ok (Lexer.init src).
Proof.
  unfold Lexer.init.
  assert (Hok : stream_ok (Lexer.mk src zero false 1%N 0%N)) by (intros H; discriminate).
  destruct (advance_view _ Hok) as [Hv Hs]. split; auto.
Qed.

(** The scanning loop reads exactly the longest run of characters that pass
    the test, and leaves the cursor on what follows. *)
Lemma scan_loop_spec (p : ascii -> bool) (n : nat) :
  forall (l : Lexer.t) (lex : string),
    stream_ok l -> String.length (view l) <= n ->
    snd (Lexer.scan_loop p n l lex) = lex ++ take_while p (view l) /\
    view (fst (Lexer.scan_loop p n l lex)) = drop_while p (view l) /\
    stream_ok (fst (Lexer.scan_loop p n l lex)).
Proof.
  induction n as [|n IH]; intros l lex Hok Hlen.
  - simpl. destruct (view l) eqn:Hv; simpl in Hlen; [|lia].
    simpl. rewrite string_app_nil_r. auto.
  - cbn [Lexer.scan_loop]. destruct (view l) as [|c s] eqn:Hv.
    + pose proof (proj1 (view_nil_iff l) Hv) as He. rewrite He. simpl.
      rewrite string_app_nil_r, Hv. auto.
    + destruct (view_cons _ _ _ Hv) as (He & Hc & Hi).
      rewrite He, Hc. cbn [negb andb].
      destruct (p c) eqn:Hp.
      * destruct (advance_view l Hok) as [Hav Hao]. rewrite Hv in Hav. simpl in Hav.
        assert (Hlen' : String.length (view (Lexer.advance l)) <= n)
          by (rewrite Hav; simpl in Hlen; lia).
        destruct (IH (Lexer.advance l) (push_back lex c) Hao Hlen') as (H1 & H2 & H3).
        rewrite H1, H2, Hav, push_back_app. simpl. rewrite Hp. auto.
      * simpl. rewrite Hp, string_app_nil_r, Hv. auto.
Qed.

Lemma scan_while_spec (p : ascii -> bool) (l : Lexer.t) (lex : string) :
  stream_ok l ->
  snd (Lexer.scan_while p l lex) = lex ++ take_while p (view l) /\
  view (fst (Lexer.scan_while p l lex)) = drop_while p (view l) /\
  stream_ok (fst (Lexer.scan_while p l lex)).
Proof. intros Hok. apply scan_loop_spec; auto using view_length. Qed.

Lemma skipSpace_loop_spec (n : nat) :
  forall l : Lexer.t,
    stream_ok l -> String.length (view l) <= n ->
    view (Lexer.skipSpace_loop n l) = drop_while isspace (view l) /\
    stream_ok (Lexer.skipSpace_loop n l).
Proof.
  induction n as [|n IH]; intros l Hok Hlen.
  - simpl. destruct (view l) eqn:Hv; simpl in Hlen; [|lia]. auto.
  - cbn [Lexer.skipSpace_loop]. destruct (view l) as [|c s] eqn:Hv.
    + pose proof (proj1 (view_nil_iff l) Hv) as He. rewrite He. simpl. rewrite Hv. auto.
    + destruct (view_cons _ _ _ Hv) as (He & Hc & Hi).
      rewrite He, Hc. cbn [negb andb].
      destruct (isspace c) eqn:Hp.
      * destruct (advance_view l Hok) as [Hav Hao]. rewrite Hv in Hav. simpl in Hav.
        assert (Hlen' : String.length (view (Lexer.advance l)) <= n)
          by (rewrite Hav; simpl in Hlen; lia).
        destruct (IH (Lexer.advance l) Hao Hlen') as (H1 & H2).
        rewrite H1, Hav. simpl. rewrite Hp. auto.
      * simpl. rewrite Hp, Hv. auto.
Qed.

Lemma skipSpace_spec (l : Lexer.t) :
  stream_ok l ->
  view (Lexer.skipSpace l) = drop_while isspace (view l) /\
  stream_ok (Lexer.skipSpace l).
Proof. intros Hok. apply skipSpace_loop_spec; auto using view_length. Qed.

Lemma skipSpace_eof (l : Lexer.t) : Lexer.eof l = true -> Lexer.skipSpace l = l.
Proof. unfold Lexer.skipSpace, Lexer.loop_bound. simpl. now intros ->. Qed.

Lemma nextToken_eof (l : Lexer.t) :
  Lexer.eof l = true -> Lexer.nextToken l = (eof_token l, l).
Proof.
  intros He. unfold Lexer.nextToken. rewrite (skipSpace_eof l He), He. reflexivity.
Qed.

(* ================================================================== *)
(** * Character classes *)

Ltac ascii_cases c :=
  destruct c as [[] [] [] [] [] [] [] []]; vm_compute;
  repeat split; try reflexivity; try discriminate.

Lemma letter_class (c : ascii) :
  Lexer.isLetter c = true ->
  isspace c = false /\ Ascii.eqb c quote = false /\ Ascii.eqb c "." = false.
Proof. ascii_cases c. Qed.

Lemma digit_class (c : ascii) :
  isdigit c = true ->
  isspace c = false /\ Ascii.eqb c quote = false /\ Ascii.eqb c "." = false /\
  Lexer.isLetter c = false.
Proof. ascii_cases c. Qed.

Lemma operator_class (c : ascii) :
  Lexer.isOperatorStart c = true ->
  isspace c = false /\ Ascii.eqb c quote = false /\ Ascii.eqb c "." = false /\
  Lexer.isLetter c = false /\ isdigit c = false /\ Lexer.isSeparator c = false.
Proof. ascii_cases c. Qed.

Lemma separator_class (c : ascii) :
  Lexer.isSeparator c = true ->
  isspace c = false /\ Ascii.eqb c quote = false /\ Ascii.eqb c "." = false /\
  Lexer.isLetter c = false /\ isdigit c = false /\ Lexer.isOperatorStart c = false.
Proof. ascii_cases c. Qed.

Lemma lone_operator (c : ascii) :
  Lexer.lone c = true -> Lexer.isOperatorStart c = true.
Proof. ascii_cases c. Qed.

Lemma two_char_op_start (c p : ascii) :
  two_char_op c p = true -> Lexer.isOperatorStart c = true.
Proof.
  unfold two_char_op. intros H.
  repeat (apply orb_prop in H as [H|H]);
    apply andb_prop in H as [H _]; apply Ascii.eqb_eq in H; subst c; reflexivity.
Qed.

Lemma two_char_op_at_end (c : ascii) : two_char_op c (ascii_of_nat 255) = false.
Proof.
  unfold two_char_op.
  replace (Ascii.eqb (ascii_of_nat 255) "=") with false by reflexivity.
  replace (Ascii.eqb (ascii_of_nat 255) "&") with false by reflexivity.
  replace (Ascii.eqb (ascii_of_nat 255) "|") with false by reflexivity.
  now rewrite !andb_false_r.
Qed.

Lemma drop_while_head (p : ascii -> bool) (s : string) (c : ascii) (r : string) :
  drop_while p s = String c r -> p c = false.
Proof.
  induction s as [|a s IH]; simpl; [discriminate|].
  destruct (p a) eqn:E; auto. intros H. inversion H; subst. exact E.
Qed.

Lemma drop_while_keep (p : ascii -> bool) (c : ascii) (s : string) :
  p c = false -> drop_while p (String c s) = String c s.
Proof. simpl. now intros ->. Qed.

(* ================================================================== *)
(** * The scanning procedures, by what they read *)

Lemma peek_view (l : Lexer.t) (c : ascii) (s : string) :
  view l = String c s -> Lexer.peek l = next_char s.
Proof.
  intros Hv. destruct (view_cons _ _ _ Hv) as (_ & _ & Hi).
  unfold Lexer.peek. now rewrite Hi.
Qed.

Lemma advance_cons (l : Lexer.t) (c : ascii) (s : string) :
  stream_ok l -> view l = String c s ->
  view (Lexer.advance l) = s /\ stream_ok (Lexer.advance l).
Proof.
  intros Hok Hv. destruct (advance_view l Hok) as [H1 H2].
  rewrite Hv in H1. auto.
Qed.

Lemma scanIdentifierFSM_spec (l : Lexer.t) (c : ascii) (s : string) :
  stream_ok l -> view l = String c s ->
  let w := take_while Lexer.isIdentRest s in
  let r := Lexer.scanIdentifierFSM l in
  lexeme (fst r) = String c w /\
  type (fst r) = (if Lexer.isKeyword (String c w) then Keyword else Identifier) /\
  view (snd r) = drop_while Lexer.isIdentRest s /\
  stream_ok (snd r).
Proof.
  intros Hok Hv. destruct (view_cons _ _ _ Hv) as (He & Hc & Hi).
  destruct (advance_cons l c s Hok Hv) as [Hav Hao].
  unfold Lexer.scanIdentifierFSM.
  pose proof (scan_while_spec Lexer.isIdentRest (Lexer.advance l)
                (push_back "" (Lexer.current l)) Hao) as (H1 & H2 & H3).
  destruct (Lexer.scan_while _ _ _) as [l2 lex]. simpl in H1, H2, H3.
  rewrite Hav, Hc in *. subst lex. simpl.
  destruct (Lexer.isKeyword _); simpl; auto.
Qed.

Lemma scanRealStartingWithDot_spec (l : Lexer.t) (c : ascii) (s : string) :
  stream_ok l -> view l = String c s ->
  let r := Lexer.scanRealStartingWithDot l in
  lexeme (fst r) = String c (take_while isdigit s) /\
  type (fst r) = Real /\
  view (snd r) = drop_while isdigit s /\
  stream_ok (snd r).
Proof.
  intros Hok Hv. destruct (view_cons _ _ _ Hv) as (He & Hc & Hi).
  destruct (advance_cons l c s Hok Hv) as [Hav Hao].
  unfold Lexer.scanRealStartingWithDot.
  pose proof (scan_while_spec isdigit (Lexer.advance l)
                (push_back "" (Lexer.current l)) Hao) as (H1 & H2 & H3).
  destruct (Lexer.scan_while _ _ _) as [l2 lex]. simpl in H1, H2, H3.
  rewrite Hav, Hc in *. subst lex. simpl. auto.
Qed.

Lemma scanNumberFSM_spec (l : Lexer.t) :
  stream_ok l ->
  let r := Lexer.scanNumberFSM l in
  (type (fst r), lexeme (fst r), view (snd r)) = number_reading (view l) /\
  stream_ok (snd r).
Proof.
  intros Hok. unfold Lexer.scanNumberFSM, number_reading.
  pose proof (scan_while_spec isdigit l "" Hok) as (H1 & H2 & H3).
  destruct (Lexer.scan_while isdigit l "") as [l1 lex]. simpl in H1, H2, H3.
  subst lex. rewrite <- H2.
  destruct (view l1) as [|dot rest] eqn:Hv1.
  - pose proof (proj1 (view_nil_iff l1) Hv1) as He1. rewrite He1. simpl.
    rewrite Hv1. auto.
  - destruct (view_cons _ _ _ Hv1) as (He1 & Hc1 & Hi1).
    rewrite He1, Hc1, (peek_view l1 dot rest Hv1). cbn [negb andb].
    destruct rest as [|e r].
    + simpl next_char.
      replace (isdigit (ascii_of_nat 255)) with false by reflexivity.
      rewrite andb_false_r. simpl. rewrite Hv1. auto.
    + simpl next_char.
      destruct (Ascii.eqb dot "." && isdigit e) eqn:Hc.
      * destruct (advance_cons l1 dot (String e r) H3 Hv1) as [Hav Hao].
        pose proof (scan_while_spec isdigit (Lexer.advance l1)
                      (push_back (take_while isdigit (view l)) dot) Hao)
          as (G1 & G2 & G3).
        destruct (Lexer.scan_while isdigit (Lexer.advance l1) _) as [l3 lex3].
        simpl in G1, G2, G3. rewrite Hav in *. subst lex3.
        rewrite push_back_app. cbn [Lexer.token_here fst snd type lexeme].
        rewrite G2. auto.
      * simpl. rewrite Hv1. auto.
Qed.

Lemma scanOpOrSep_spec (l : Lexer.t) (c : ascii) (s : string) :
  stream_ok l -> view l = String c s ->
  let r := Lexer.scanOpOrSep l in
  (type (fst r), lexeme (fst r), view (snd r)) = op_reading c s /\
  stream_ok (snd r).
Proof.
  intros Hok Hv. destruct (view_cons _ _ _ Hv) as (He & Hc & Hi).
  destruct (advance_cons l c s Hok Hv) as [Hav Hao].
  destruct (advance_view _ Hao) as [Hav2 Hao2]. rewrite Hav in Hav2.
  unfold Lexer.scanOpOrSep, op_reading.
  rewrite (peek_view l c s Hv), Hc.
  fold (two_char_op c (next_char s)).
  destruct (two_char_op c (next_char s)); [simpl; rewrite Hav2; auto|].
  destruct (Lexer.isOperatorStart c && negb (Lexer.lone c)); [simpl; rewrite Hav; auto|].
  destruct (Lexer.isSeparator c); [simpl; rewrite Hav; auto|].
  destruct (Lexer.lone c); simpl; rewrite Hav; auto.
Qed.

(** [nextToken()] after [skipSpace()], by the text in front of it. *)
Lemma nextToken_dispatch (l : Lexer.t) :
  Lexer.nextToken l =
  let l1 := Lexer.skipSpace l in
  if Lexer.eof l1 then (eof_token l1, l1)
  else if Ascii.eqb (Lexer.current l1) quote then Lexer.scanString l1
  else if Ascii.eqb (Lexer.current l1) "." && isdigit (Lexer.peek l1)
  then Lexer.scanRealStartingWithDot l1
  else if Lexer.isLetter (Lexer.current l1) then Lexer.scanIdentifierFSM l1
  else if isdigit (Lexer.current l1) then Lexer.scanNumberFSM l1
  else if Lexer.isSeparator (Lexer.current l1) || Lexer.isOperatorStart (Lexer.current l1)
  then Lexer.scanOpOrSep l1
  else Lexer.token_here Unknown (String (Lexer.current l1) "") (Lexer.advance l1).
Proof. reflexivity. Qed.

(* ================================================================== *)
(** * Every token has the shape of its kind, and is read back from it *)

Lemma op_reading_shape (c : ascii) (s : string) :
  Lexer.isSeparator c || Lexer.isOperatorStart c = true ->
  shape (fst (fst (op_reading c s))) (snd (fst (op_reading c s))).
Proof.
  intros Hso. unfold op_reading.
  destruct (two_char_op c (next_char s)) eqn:H2; [simpl; now constructor|].
  destruct (Lexer.isOperatorStart c) eqn:Ho.
  - destruct (Lexer.lone c) eqn:Hl; simpl.
    + destruct (operator_class c Ho) as (_ & _ & _ & _ & _ & Hs). rewrite Hs.
      simpl. now constructor.
    + now constructor.
  - rewrite orb_false_r in Hso. rewrite Hso. simpl. now constructor.
Qed.

Lemma number_reading_shape (d : ascii) (s : string) :
  isdigit d = true ->
  shape (fst (fst (number_reading (String d s))))
        (snd (fst (number_reading (String d s)))).
Proof.
  intros Hd. unfold number_reading. simpl. rewrite Hd.
  pose proof (take_while_all isdigit s) as Hw.
  destruct (drop_while isdigit s) as [|dot [|e r]]; simpl;
    try (now constructor).
  destruct (Ascii.eqb dot "." && isdigit e) eqn:Hc; simpl;
    try (now constructor).
  apply andb_prop in Hc as [Hdot He]. apply Ascii.eqb_eq in Hdot. subst dot.
  rewrite He. constructor; auto using take_while_all.
Qed.

(** The scanner's view after [skipSpace()] on a scanner that is not at the
    end: a character that is not white space, and the rest. *)
Lemma skipSpace_cases (l : Lexer.t) :
  stream_ok l ->
  let l1 := Lexer.skipSpace l in
  stream_ok l1 /\
  (Lexer.eof l1 = true \/
   exists c s, view l1 = String c s /\ isspace c = false /\
               Lexer.eof l1 = false /\ Lexer.current l1 = c).
Proof.
  intros Hok. destruct (skipSpace_spec l Hok) as [Hv Hok1]. split; auto.
  destruct (view (Lexer.skipSpace l)) as [|c s] eqn:E.
  - left. now apply view_nil_iff.
  - right. exists c, s. destruct (view_cons _ _ _ E) as (He & Hc & _).
    repeat split; auto. symmetry in Hv. eapply drop_while_head; eauto.
Qed.

Lemma token_shape (l : Lexer.t) :
  stream_ok l ->
  type (fst (Lexer.nextToken l)) <> String_ ->
  type (fst (Lexer.nextToken l)) <> EndOfFile ->
  shape (type (fst (Lexer.nextToken l))) (lexeme (fst (Lexer.nextToken l))).
Proof.
  intros Hok. rewrite nextToken_dispatch. cbv zeta.
  destruct (skipSpace_cases l Hok) as [Hok1 [He|(c & s & Hv & Hsp & He & Hc)]];
    rewrite He; [simpl; congruence|].
  rewrite Hc, (peek_view _ c s Hv). clear Hc.
  destruct (Ascii.eqb c quote) eqn:Hq; [unfold Lexer.scanString;
    destruct (Lexer.scan_while _ _ _); simpl; congruence|].
  destruct (Ascii.eqb c "." && isdigit (next_char s)) eqn:Hdot.
  { intros _ _. apply andb_prop in Hdot as [Hd He']. apply Ascii.eqb_eq in Hd. subst c.
    destruct (scanRealStartingWithDot_spec _ _ _ Hok1 Hv) as (H1 & H2 & _).
    rewrite H1, H2. destruct s as [|e r]; [discriminate|].
    simpl in He'. simpl. rewrite He'. constructor; auto using take_while_all. }
  destruct (Lexer.isLetter c) eqn:Hl.
  { intros _ _. destruct (scanIdentifierFSM_spec _ _ _ Hok1 Hv) as (H1 & H2 & _).
    rewrite H1, H2. constructor; auto using take_while_all. }
  destruct (isdigit c) eqn:Hd.
  { intros _ _. destruct (scanNumberFSM_spec _ Hok1) as (H1 & _).
    rewrite Hv in H1. pose proof (number_reading_shape c s Hd) as Hs.
    rewrite <- H1 in Hs. exact Hs. }
  destruct (Lexer.isSeparator c || Lexer.isOperatorStart c) eqn:Hso.
  { intros _ _. destruct (scanOpOrSep_spec _ _ _ Hok1 Hv) as (H1 & _).
    pose proof (op_reading_shape c s Hso) as Hs.
    rewrite <- H1 in Hs. exact Hs. }
  intros _ _. simpl. apply orb_false_elim in Hso as [Hs Ho].
  constructor; auto. unfold Lexer.not_quote. now rewrite Hq.
Qed.

(** The other direction: a scanner placed in front of exactly such a
    lexeme reads it as one token of that kind, and is then at the end. *)
Lemma skipSpace_keep (l : Lexer.t) (c : ascii) (s : string) :
  stream_ok l -> view l = String c s -> isspace c = false ->
  Lexer.skipSpace l = l.
Proof.
  intros Hok Hv Hsp. destruct (view_cons _ _ _ Hv) as (He & Hc & _).
  unfold Lexer.skipSpace, Lexer.loop_bound. simpl. now rewrite He, Hc, Hsp.
Qed.

Lemma shape_read_back (k : TokenType) (lex : string) :
  shape k lex ->
  forall l : Lexer.t,
    stream_ok l -> view l = lex ->
    type (fst (Lexer.nextToken l)) = k /\
    lexeme (fst (Lexer.nextToken l)) = lex /\
    Lexer.eof (snd (Lexer.nextToken l)) = true.
Proof.
  intros Hs l Hok Hv. rewrite nextToken_dispatch. cbv zeta.
  destruct Hs as [c w Hl Hw | d w Hd Hw | d w e v Hd Hw He Hv'
                 | e v He Hv' | c p H2 | c Ho | c Hsep
                 | c Hsp Hq Hl Hd Hsep Ho].
  - (* word *)
    destruct (letter_class c Hl) as (Hsp & Hq & Hdot).
    rewrite (skipSpace_keep l c w Hok Hv Hsp).
    destruct (view_cons _ _ _ Hv) as (He & Hc & _).
    rewrite He, Hc, Hq, Hdot, Hl. simpl.
    destruct (scanIdentifierFSM_spec _ _ _ Hok Hv) as (H1 & H2 & H3 & _).
    destruct (take_while_id _ _ Hw) as [Ht Hdr]. rewrite Ht in H1, H2.
    rewrite Hdr in H3. repeat split; auto. now apply view_nil_iff.
  - (* integer *)
    destruct (digit_class d Hd) as (Hsp & Hq & Hdot & Hl).
    rewrite (skipSpace_keep l d w Hok Hv Hsp).
    destruct (view_cons _ _ _ Hv) as (He & Hc & _).
    rewrite He, Hc, Hq, Hdot, Hl, Hd. simpl.
    destruct (scanNumberFSM_spec _ Hok) as (H1 & _). rewrite Hv in H1.
    unfold number_reading in H1. simpl in H1. rewrite Hd in H1.
    destruct (take_while_id _ _ Hw) as [Ht Hdr]. rewrite Ht, Hdr in H1.
    inversion H1 as [[E1 E2 E3]]. repeat split; auto. now apply view_nil_iff.
  - (* digits . digits *)
    destruct (digit_class d Hd) as (Hsp & Hq & Hdot & Hl).
    simpl in Hv.
    rewrite (skipSpace_keep l d _ Hok Hv Hsp).
    destruct (view_cons _ _ _ Hv) as (Heof & Hc & _).
    rewrite Heof, Hc, Hq, Hdot, Hl, Hd. simpl.
    destruct (scanNumberFSM_spec _ Hok) as (H1 & _). rewrite Hv in H1.
    unfold number_reading in H1. simpl in H1. rewrite Hd in H1.
    assert (Hnd : isdigit "." = false) by reflexivity.
    destruct (take_while_stop isdigit w "." (String e v) Hw Hnd) as [Ht Hdr].
    rewrite Ht, Hdr in H1. simpl in H1. rewrite He in H1.
    destruct (take_while_id _ _ Hv') as [Ht' Hdr']. rewrite Ht', Hdr' in H1.
    inversion H1 as [[E1 E2 E3]]. repeat split; auto. now apply view_nil_iff.
  - (* . digits *)
    assert (Hsp : isspace "." = false) by reflexivity.
    rewrite (skipSpace_keep l "." _ Hok Hv Hsp).
    destruct (view_cons _ _ _ Hv) as (Heof & Hc & _).
    rewrite Heof, Hc, (peek_view _ _ _ Hv). simpl. rewrite He. simpl.
    destruct (scanRealStartingWithDot_spec _ _ _ Hok Hv) as (H1 & H2 & H3 & _).
    simpl in H1, H3. rewrite He in H1, H3.
    destruct (take_while_id _ _ Hv') as [Ht' Hdr']. rewrite Ht' in H1. rewrite Hdr' in H3.
    repeat split; auto. now apply view_nil_iff.
  - (* two-character operator *)
    pose proof (two_char_op_start c p H2) as Ho.
    destruct (operator_class c Ho) as (Hsp & Hq & Hdot & Hl & Hd & Hsep).
    rewrite (skipSpace_keep l c _ Hok Hv Hsp).
    destruct (view_cons _ _ _ Hv) as (Heof & Hc & _).
    rewrite Heof, Hc, Hq, Hdot, Hl, Hd, Hsep, Ho. simpl.
    destruct (scanOpOrSep_spec _ _ _ Hok Hv) as (H1 & _).
    unfold op_reading in H1. simpl in H1. rewrite H2 in H1.
    inversion H1 as [[E1 E2 E3]]. repeat split; auto. now apply view_nil_iff.
  - (* one-character operator *)
    destruct (operator_class c Ho) as (Hsp & Hq & Hdot & Hl & Hd & Hsep).
    rewrite (skipSpace_keep l c _ Hok Hv Hsp).
    destruct (view_cons _ _ _ Hv) as (Heof & Hc & _).
    rewrite Heof, Hc, Hq, Hdot, Hl, Hd, Hsep, Ho. simpl.
    destruct (scanOpOrSep_spec _ _ _ Hok Hv) as (H1 & _).
    unfold op_reading in H1. simpl in H1.
    rewrite two_char_op_at_end, Ho, Hsep in H1.
    destruct (Lexer.lone c); simpl in H1;
      inversion H1 as [[E1 E2 E3]]; repeat split; auto; now apply view_nil_iff.
  - (* separator *)
    destruct (separator_class c Hsep) as (Hsp & Hq & Hdot & Hl & Hd & Ho).
    rewrite (skipSpace_keep l c _ Hok Hv Hsp).
    destruct (view_cons _ _ _ Hv) as (Heof & Hc & _).
    rewrite Heof, Hc, Hq, Hdot, Hl, Hd, Hsep, Ho. simpl.
    destruct (scanOpOrSep_spec _ _ _ Hok Hv) as (H1 & _).
    unfold op_reading in H1. simpl in H1.
    rewrite two_char_op_at_end, Ho, Hsep in H1. simpl in H1.
    inversion H1 as [[E1 E2 E3]]. repeat split; auto. now apply view_nil_iff.
  - (* unknown character *)
    rewrite (skipSpace_keep l c _ Hok Hv Hsp).
    destruct (view_cons _ _ _ Hv) as (Heof & Hc & _).
    unfold Lexer.not_quote in Hq. apply negb_true_iff in Hq.
    rewrite Heof, Hc, Hq, Hl, Hd, Hsep, Ho, (peek_view _ _ _ Hv). simpl.
    replace (isdigit (ascii_of_nat 255)) with false by reflexivity.
    rewrite andb_false_r.
    destruct (advance_cons l c "" Hok Hv) as [Hav _].
    repeat split; auto. now apply view_nil_iff.
Qed.

Lemma not_eof_stream_ok (l : Lexer.t) : Lexer.eof l = false -> stream_ok l.
Proof. unfold stream_ok. congruence. Qed.

Lemma view_stream_ok (l : Lexer.t) (c : ascii) (s : string) :
  view l = String c s -> stream_ok l.
Proof. intros Hv. apply not_eof_stream_ok. now destruct (view_cons _ _ _ Hv). Qed.

Lemma scanString_spec (l : Lexer.t) (c : ascii) (s : string) :
  stream_ok l -> view l = String c s ->
  let r := Lexer.scanString l in
  type (fst r) = String_ /\
  lexeme (fst r) = take_while Lexer.not_quote s /\
  view (snd r) = tail (drop_while Lexer.not_quote s) /\
  stream_ok (snd r).
Proof.
  intros Hok Hv. destruct (advance_cons l c s Hok Hv) as [Hav Hao].
  unfold Lexer.scanString.
  pose proof (scan_while_spec Lexer.not_quote (Lexer.advance l) "" Hao)
    as (H1 & H2 & H3).
  destruct (Lexer.scan_while _ _ _) as [l2 lex]. simpl in H1, H2, H3.
  rewrite Hav in *. subst lex. simpl.
  destruct (Lexer.eof l2) eqn:He2; simpl.
  - apply view_nil_iff in He2 as Hv2. rewrite <- H2, Hv2. auto.
  - destruct (advance_view l2 H3) as [G1 G2]. rewrite G1, H2. auto.
Qed.

Lemma token_shape_any (l : Lexer.t) :
  type (fst (Lexer.nextToken l)) <> String_ ->
  type (fst (Lexer.nextToken l)) <> EndOfFile ->
  shape (type (fst (Lexer.nextToken l))) (lexeme (fst (Lexer.nextToken l))).
Proof.
  destruct (Lexer.eof l) eqn:He.
  - rewrite (nextToken_eof l He). simpl. congruence.
  - apply token_shape. now apply not_eof_stream_ok.
Qed.

Lemma shape_keyword (k : TokenType) (lex : string) :
  shape k lex -> k = Keyword -> Lexer.isKeyword lex = true.
Proof.
  intros H. destruct H; try discriminate.
  destruct (Lexer.isKeyword (String c w)); congruence.
Qed.

(** A [Keyword] token always carries a lexeme of the keyword table. *)
Lemma keyword_token (l : Lexer.t) :
  type (fst (Lexer.nextToken l)) = Keyword ->
  Lexer.isKeyword (lexeme (fst (Lexer.nextToken l))) = true.
Proof.
  intros Hk. eapply shape_keyword; [apply token_shape_any|]; congruence.
Qed.

(** Every call of [nextToken()] on a scanner that is not at the end takes
    at least one character off the text. *)
Lemma drop_while_length (p : ascii -> bool) (s : string) :
  String.length (drop_while p s) <= String.length s.
Proof. induction s as [|c s IH]; simpl; auto. destruct (p c); simpl; lia. Qed.

Lemma tail_length (s : string) : String.length (tail s) <= String.length s.
Proof. destruct s; simpl; lia. Qed.

Lemma number_reading_length (s : string) :
  String.length (snd (number_reading s)) <= String.length (drop_while isdigit s).
Proof.
  unfold number_reading.
  destruct (drop_while isdigit s) as [|dot [|e r]]; simpl; auto.
  destruct (Ascii.eqb dot "." && isdigit e); cbn [snd]; auto.
  pose proof (drop_while_length isdigit (String e r)). simpl in *. lia.
Qed.

Lemma op_reading_length (c : ascii) (s : string) :
  String.length (snd (op_reading c s)) <= String.length s.
Proof.
  unfold op_reading. pose proof (tail_length s).
  repeat match goal with |- context [if ?b then _ else _] => destruct b end;
    simpl; lia.
Qed.

Lemma nextToken_progress (l : Lexer.t) :
  stream_ok l -> Lexer.eof l = false ->
  stream_ok (snd (Lexer.nextToken l)) /\
  String.length (view (snd (Lexer.nextToken l))) < String.length (view l).
Proof.
  intros Hok Heof. rewrite nextToken_dispatch. cbv zeta.
  destruct (skipSpace_spec l Hok) as [Hdw _].
  pose proof (drop_while_length isspace (view l)) as Hle. rewrite <- Hdw in Hle.
  assert (Hpos : 0 < String.length (view l)).
  { unfold view. rewrite Heof. simpl. lia. }
  destruct (skipSpace_cases l Hok) as [Hok1 [He|(c & s & Hv & Hsp & He & Hc)]];
    rewrite He.
  { simpl. split; auto. apply view_nil_iff in He. rewrite He. simpl. lia. }
  rewrite Hv in Hle. simpl in Hle.
  destruct (Ascii.eqb (Lexer.current (Lexer.skipSpace l)) quote).
  { destruct (scanString_spec _ _ _ Hok1 Hv) as (_ & _ & H3 & H4). split; auto.
    rewrite H3. pose proof (tail_length (drop_while Lexer.not_quote s)).
    pose proof (drop_while_length Lexer.not_quote s). lia. }
  destruct (_ && isdigit _).
  { destruct (scanRealStartingWithDot_spec _ _ _ Hok1 Hv) as (_ & _ & H3 & H4).
    split; auto. rewrite H3. pose proof (drop_while_length isdigit s). lia. }
  destruct (Lexer.isLetter _).
  { destruct (scanIdentifierFSM_spec _ _ _ Hok1 Hv) as (_ & _ & H3 & H4).
    split; auto. rewrite H3. pose proof (drop_while_length Lexer.isIdentRest s). lia. }
  destruct (isdigit (Lexer.current _)) eqn:Hd.
  { destruct (scanNumberFSM_spec _ Hok1) as (H1 & H4). split; auto.
    pose proof (number_reading_length (view (Lexer.skipSpace l))) as Hn.
    rewrite <- H1 in Hn. cbn [snd] in Hn. rewrite Hv in Hn.
    rewrite Hc in Hd. simpl in Hn. rewrite Hd in Hn.
    pose proof (drop_while_length isdigit s). lia. }
  destruct (_ || _).
  { destruct (scanOpOrSep_spec _ _ _ Hok1 Hv) as (H1 & H4). split; auto.
    pose proof (op_reading_length c s) as Hn. rewrite <- H1 in Hn. cbn [snd] in Hn. lia. }
  destruct (advance_cons _ _ _ Hok1 Hv) as [Hav Hao]. simpl. split; auto.
  rewrite Hav. lia.
Qed.

(** The scanning loops end because their test fails, not because the
    bound on their turns was reached. *)
Lemma scan_while_stops (p : ascii -> bool) (l : Lexer.t) (lex : string) :
  stream_ok l ->
  Lexer.eof (fst (Lexer.scan_while p l lex)) = true \/
  p (Lexer.current (fst (Lexer.scan_while p l lex))) = false.
Proof.
  intros Hok. destruct (scan_while_spec p l lex Hok) as (_ & Hv & _).
  destruct (view (fst (Lexer.scan_while p l lex))) as [|c r] eqn:E.
  - left. now apply view_nil_iff.
  - right. destruct (view_cons _ _ _ E) as (_ & Hc & _). rewrite Hc.
    symmetry in Hv. eapply drop_while_head; eauto.
Qed.

(** [drain] is given enough calls: with more of them it returns the same
    tokens. *)
Lemma drain_enough (n : nat) :
  forall (l : Lexer.t) (m : nat),
    stream_ok l -> String.length (view l) < n -> n <= m ->
    drain m l = drain n l.
Proof.
  induction n as [|n IH]; intros l m Hok Hlen Hle; [lia|].
  destruct m as [|m]; [lia|]. cbn [drain].
  destruct (Lexer.eof l) eqn:He.
  - rewrite (nextToken_eof l He). reflexivity.
  - destruct (nextToken_progress l Hok He) as [Hok' Hlt].
    destruct (Lexer.nextToken l) as [tk l1]. simpl in Hok', Hlt.
    destruct (TokenType_eqb (type tk) EndOfFile); auto.
    f_equal. apply IH; auto; lia.
Qed.

Lemma tokens_of_enough (src : string) (m : nat) :
  S (String.length src) <= m -> drain m (Lexer.init src) = tokens_of src.
Proof.
  intros Hm. destruct (init_view src) as [Hv Hok].
  apply drain_enough; auto. rewrite Hv. lia.
Qed.

Lemma nextTokens_eof (k : nat) (l : Lexer.t) :
  Lexer.eof l = true -> Lexer.nextTokens k l = (repeat (eof_token l) k, l).
Proof.
  intros He. induction k as [|k IH]; simpl; auto.
  now rewrite (nextToken_eof l He), IH.
Qed.

Lemma nextTokens_reach_eof (n : nat) :
  forall l : Lexer.t,
    stream_ok l -> String.length (view l) <= n ->
    Lexer.eof (snd (Lexer.nextTokens n l)) = true.
Proof.
  induction n as [|n IH]; intros l Hok Hlen.
  - simpl. apply view_nil_iff. destruct (view l); simpl in *; auto; lia.
  - simpl. destruct (Lexer.eof l) eqn:He.
    + rewrite (nextToken_eof l He), (nextTokens_eof n l He). exact He.
    + destruct (nextToken_progress l Hok He) as [Hok' Hlt].
      destruct (Lexer.nextToken l) as [tk l1]. simpl in *.
      specialize (IH l1 Hok' ltac:(lia)).
      destruct (Lexer.nextTokens n l1). exact IH.
Qed.

(* ================================================================== *)
(** * The scanner: boundary cases *)

Lemma nextTokens_length (k : nat) :
  forall l : Lexer.t, List.length (fst (Lexer.nextTokens k l)) = k.
Proof.
  induction k as [|k IH]; intros l; simpl; auto.
  destruct (Lexer.nextToken l) as [tk l1]. specialize (IH l1).
  destruct (Lexer.nextTokens k l1). simpl in *. congruence.
Qed.

(** C6.  The scanner stands, white space apart, in front of a double quote
    that is followed by [s], and [s] holds no double quote.  Then
    [nextToken()] returns a String token whose lexeme is all of [s], the
    scanner is at the end of the input afterwards, and every later call
    returns the end-of-input token. *)
Theorem string_open_at_end_of_input (l : Lexer.t) (s : string) :
  drop_while isspace (view l) = String quote s ->
  all_chars Lexer.not_quote s = true ->
  type (fst (Lexer.nextToken l)) = String_ /\
  lexeme (fst (Lexer.nextToken l)) = s /\
  Lexer.eof (snd (Lexer.nextToken l)) = true /\
  forall k : nat,
    fst (Lexer.nextTokens k (snd (Lexer.nextToken l))) =
    repeat (eof_token (snd (Lexer.nextToken l))) k.
Proof.
  intros Hdw Hs.
  assert (Hok : stream_ok l).
  { destruct (view l) as [|c r] eqn:Hv; [discriminate|]. eapply view_stream_ok; eauto. }
  destruct (skipSpace_spec l Hok) as [Hv1 Hok1]. rewrite Hdw in Hv1.
  destruct (view_cons _ _ _ Hv1) as (He & Hc & _).
  destruct (scanString_spec _ _ _ Hok1 Hv1) as (H1 & H2 & H3 & _).
  destruct (take_while_id _ _ Hs) as [Ht Hd]. rewrite Ht in H2. rewrite Hd in H3.
  assert (Hnt : Lexer.nextToken l = Lexer.scanString (Lexer.skipSpace l)).
  { rewrite nextToken_dispatch. cbv zeta. rewrite He, Hc. reflexivity. }
  rewrite Hnt. apply view_nil_iff in H3.
  repeat split; auto. intros k. now rewrite (nextTokens_eof k _ H3).
Qed.

Lemma string_open_at_end_of_input_witness :
  drop_while isspace (view (Lexer.init (String " " (String quote "abc def")))) = String quote "abc def" /\
  all_chars Lexer.not_quote "abc def" = true /\
  type (fst (Lexer.nextToken (Lexer.init (String " " (String quote "abc def"))))) = String_ /\
  lexeme (fst (Lexer.nextToken (Lexer.init (String " " (String quote "abc def"))))) = "abc def" /\
  Lexer.eof (snd (Lexer.nextToken (Lexer.init (String " " (String quote "abc def"))))) = true.
Proof.
  split; [reflexivity|]. split; [reflexivity|].
  destruct (string_open_at_end_of_input (Lexer.init (String " " (String quote "abc def"))) "abc def")
    as (H1 & H2 & H3 & _); [reflexivity | reflexivity |].
  split; [exact H1|]. split; [exact H2|exact H3].
Defined.

(** C5.  "123." is scanned as the Integer "123" and then the Unknown ".";
    ".5" is scanned as the single Real ".5". *)
Theorem number_and_dot_boundaries :
  fst (Lexer.nextTokens 3 (Lexer.init "123.")) =
    [ mkToken Integer "123" 1%N 4%N; mkToken Unknown "." 1%N 4%N;
      mkToken EndOfFile "" 1%N 4%N ] /\
  fst (Lexer.nextTokens 2 (Lexer.init ".5")) =
    [ mkToken Real ".5" 1%N 2%N; mkToken EndOfFile "" 1%N 2%N ].
Proof. split; vm_compute; reflexivity. Qed.

(** Over any source text the scanner is at the end after at most as many
    calls as the text has characters. *)
Lemma scanner_reaches_end (src : string) :
  Lexer.eof (snd (Lexer.nextTokens (String.length src) (Lexer.init src))) = true.
Proof.
  destruct (init_view src) as [Hv Hok].
  apply nextTokens_reach_eof; auto. rewrite Hv. lia.
Qed.

(** C7.  [nextToken()] is a total function: each call returns one token.
    On a scanner whose input is exhausted, any number [k] of calls returns
    [k] tokens of kind [EndOfFile] with the empty lexeme, and leaves the
    scanner as it was. *)
Theorem end_of_input_is_repeated (l : Lexer.t) (k : nat) :
  Lexer.eof l = true ->
  Lexer.nextTokens k l =
    (repeat (mkToken EndOfFile "" (Lexer.line l) (Lexer.col l)) k, l) /\
  Lexer.nextToken l = (mkToken EndOfFile "" (Lexer.line l) (Lexer.col l), l) /\
  forall l' : Lexer.t, List.length (fst (Lexer.nextTokens k l')) = k.
Proof.
  intros He. split; [|split].
  - apply (nextTokens_eof k l He).
  - apply (nextToken_eof l He).
  - apply nextTokens_length.
Qed.

Lemma end_of_input_is_repeated_witness :
  Lexer.eof (snd (Lexer.nextToken (Lexer.init "x"))) = true /\
  Lexer.nextTokens 3 (snd (Lexer.nextToken (Lexer.init "x"))) =
    (repeat (mkToken EndOfFile "" 1%N 1%N) 3, snd (Lexer.nextToken (Lexer.init "x"))).
Proof.
  split; [reflexivity|].
  apply (end_of_input_is_repeated (snd (Lexer.nextToken (Lexer.init "x"))) 3).
  reflexivity.
Defined.

(* ================================================================== *)
(** * The parser: what every procedure preserves *)

Section Keeps.

(** A property [J] of the parser object that reading a token, echoing the
    current token and handing a line to the sink preserve is preserved by
    every procedure of the grammar; and whatever error a procedure ends
    with was raised by [errorHere] on the token the parser stopped at. *)
Variable J : Parser.t -> Prop.
Hypothesis J_advance : forall p, J p -> J (fst (advance p)).
Hypothesis J_echo : forall p, J p -> J (fst (echoToken p)).

Lemma keeps_ret : keeps J ret.
Proof. intros p Hp. unfold kept. simpl. split; auto. discriminate. Qed.

Lemma keeps_bind (m k : M) : keeps J m -> keeps J k -> keeps J (m ;; k).
Proof.
  intros Hm Hk p Hp. unfold kept, bind. destruct (Hm p Hp) as [H1 H2].
  destruct (m p) as [p1 [| what |]]; simpl in *.
  - exact (Hk p1 H1).
  - split; auto.
  - split; auto; discriminate.
Qed.

Lemma kept_cond (c : Parser.t -> bool) (m1 m2 : M) (p : Parser.t) :
  (c p = true -> kept J m1 p) -> (c p = false -> kept J m2 p) ->
  kept J (cond c m1 m2) p.
Proof. unfold kept, cond. destruct (c p); auto. Qed.

Lemma keeps_cond (c : Parser.t -> bool) (m1 m2 : M) :
  keeps J m1 -> keeps J m2 -> keeps J (cond c m1 m2).
Proof. intros H1 H2 p Hp. apply kept_cond; auto. Qed.

Lemma keeps_advance : keeps J advance.
Proof.
  intros p Hp. unfold kept. split; auto. unfold advance.
  destruct (Lexer.nextToken (lex_ p)). discriminate.
Qed.

Lemma keeps_echoToken : keeps J echoToken.
Proof.
  intros p Hp. unfold kept. split; auto. unfold echoToken, ret, write.
  repeat match goal with |- context [if ?b then _ else _] => destruct b end;
    discriminate.
Qed.

Lemma keeps_emit (f : Parser.t -> string) :
  (forall p, J p -> J (fst (emit (f p) p))) ->
  keeps J (fun p => emit (f p) p).
Proof. intros Hf p Hp. unfold kept. split; auto. discriminate. Qed.

Lemma keeps_prod (r : Rule) (text : string) :
  (forall p, J p -> J (fst (emit text p))) ->
  keeps J (prod r text).
Proof.
  intros Ht p Hp. unfold kept, prod.
  repeat match goal with |- context [if ?b then _ else _] => destruct b end;
    try apply (keeps_ret p Hp).
  apply (keeps_emit (fun _ => text) Ht p Hp).
Qed.

Lemma keeps_errorHere (msg : string) : keeps J (errorHere msg).
Proof.
  intros p Hp. unfold kept. simpl. split; auto. intros what H. inversion H. now exists msg.
Qed.

End Keeps.

(** One step through the text of a procedure: [prims] settles the reading
    and the echoing of a token, [emits] the lines handed to the sink, [H]
    the calls of other procedures. *)
Ltac keeps_step prims emits H :=
  lazymatch goal with
  | |- keeps _ (bind _ _) => apply keeps_bind
  | |- keeps _ (cond _ _ _) => apply keeps_cond
  | |- keeps _ (prod _ _) => apply keeps_prod; emits
  | |- keeps _ advance => apply keeps_advance; prims
  | |- keeps _ echoToken => apply keeps_echoToken; prims
  | |- keeps _ (errorHere _) => apply keeps_errorHere
  | |- keeps _ ret => apply keeps_ret
  | |- keeps _ (fun p => emit _ p) => apply keeps_emit; emits
  | |- keeps _ _ => apply H
  end.

Ltac unfold_procedures :=
  cbv [body];
  cbv [parseRat25F parseOptFunctionDefinitions parseFunctionDefinitions
       parseFunctionDefinitionsPrime parseFunction parseOptParameterList
       parseParameterList parseParameterListPrime parseParameter
       parseQualifier parseBody parseOptDeclarationList parseDeclarationList
       parseDeclarationListPrime parseDeclaration parseIDs parseIDsPrime
       parseStatementList parseStatementListPrime parseOptStatementList
       parseStatement parseCompound parseAssign parseIf parseOptElse
       parseReturn parsePrint parseScan parseWhile parseCondition parseRelop
       parseExpression parseExpressionPrime parseTerm parseTermPrime
       parseFactor parsePrimary parsePrimaryPrime skipDocStrings
       skipBannerStrings expectIdentifier expectKw expectOp expectSep].

Section KeepsAll.

Variable J : Parser.t -> Prop.
Hypothesis J_advance : forall p, J p -> J (fst (advance p)).
Hypothesis J_echo : forall p, J p -> J (fst (echoToken p)).
Hypothesis J_emit : forall text p, J p -> J (fst (emit text p)).

Lemma keeps_body (call : Proc -> M) :
  (forall f, keeps J (call f)) -> forall f, keeps J (body call f).
Proof.
  intros H f.
  destruct f; unfold_procedures;
    repeat keeps_step ltac:(assumption)
                      ltac:(intros; apply J_emit; assumption) H.
Qed.

Lemma keeps_run (n : nat) : forall f, keeps J (run n f).
Proof.
  induction n as [|n IH]; intros f.
  - intros p Hp. unfold kept. simpl. split; auto. discriminate.
  - change (run (S n) f) with (fun p => body (run n) f p).
    intros p Hp. apply (keeps_body (run n) IH f p Hp).
Qed.

End KeepsAll.

(* ------------------------------------------------------------------ *)
(** ** More fuel never changes a result *)

Lemma refines_refl (m : M) : refines m m.
Proof. intros p _. reflexivity. Qed.

Lemma refines_bind (m1 m2 k1 k2 : M) :
  refines m1 m2 -> refines k1 k2 -> refines (m1 ;; k1) (m2 ;; k2).
Proof.
  intros Hm Hk p. unfold bind. specialize (Hm p).
  destruct (m1 p) as [p1 [| what |]] eqn:E; simpl in *; intros Hne.
  - rewrite Hm by discriminate. now apply Hk.
  - rewrite Hm by discriminate. reflexivity.
  - congruence.
Qed.

Lemma refines_cond (c : Parser.t -> bool) (a1 a2 b1 b2 : M) :
  refines a1 a2 -> refines b1 b2 -> refines (cond c a1 b1) (cond c a2 b2).
Proof. intros Ha Hb p. unfold cond. destruct (c p); auto. Qed.

Lemma refines_body (c1 c2 : Proc -> M) :
  (forall f, refines (c1 f) (c2 f)) -> forall f, refines (body c1 f) (body c2 f).
Proof.
  intros H f.
  destruct f; cbv [body];
    cbv [parseRat25F parseOptFunctionDefinitions parseFunctionDefinitions
         parseFunctionDefinitionsPrime parseFunction parseOptParameterList
         parseParameterList parseParameterListPrime parseParameter
         parseQualifier parseBody parseOptDeclarationList parseDeclarationList
         parseDeclarationListPrime parseDeclaration parseIDs parseIDsPrime
         parseStatementList parseStatementListPrime parseOptStatementList
         parseStatement parseCompound parseAssign parseIf parseOptElse
         parseReturn parsePrint parseScan parseWhile parseCondition parseRelop
         parseExpression parseExpressionPrime parseTerm parseTermPrime
         parseFactor parsePrimary parsePrimaryPrime skipDocStrings
         skipBannerStrings];
    repeat lazymatch goal with
           | |- refines (bind _ _) (bind _ _) => apply refines_bind
           | |- refines (cond _ _ _) (cond _ _ _) => apply refines_cond
           | |- refines (c1 _) (c2 _) => apply H
           | |- refines _ _ => apply refines_refl
           end.
Qed.

Lemma run_step (n : nat) : forall f, refines (run n f) (run (S n) f).
Proof.
  induction n as [|n IH]; intros f.
  - intros p Hne. simpl in Hne. congruence.
  - change (refines (fun p => body (run n) f p) (fun p => body (run (S n)) f p)).
    intros p. apply (refines_body (run n) (run (S n)) IH f p).
Qed.

(** Once a call has returned or thrown within some budget, it ends the
    same way within any larger one. *)
Lemma run_more_fuel (n m : nat) (f : Proc) (p : Parser.t) :
  n <= m -> snd (run n f p) <> OutOfFuel -> run m f p = run n f p.
Proof.
  induction 1 as [|m Hle IH]; intros Hne; auto.
  rewrite <- (IH Hne). apply run_step. now rewrite (IH Hne).
Qed.

(* ================================================================== *)
(** * The parser: helpers *)

Lemma prod_spec (r : Rule) (text : string) (p : Parser.t) :
  prod r text p =
  (if shown r text (trace_ p) then wrote p [Emit text] else p, Done).
Proof.
  unfold prod, shown, emit, write, wrote, ret.
  destruct (master (trace_ p)); simpl; auto.
  destruct (set_empty (enabled (trace_ p))); simpl;
    destruct (set_count r (enabled (trace_ p)) =? 0); simpl; auto;
    destruct (hideEpsilon (trace_ p) && contains text "ε"); simpl; auto;
    destruct (hideOpt (trace_ p) && contains text "Opt "); simpl; auto;
    destruct (hideScaffolding (trace_ p) &&
              (contains text "Rat25F" || contains text "Statement List"));
    simpl; auto.
Qed.

(** An [isKw] test passes only on a [Keyword] or [Identifier] token with
    that very lexeme. *)
Lemma isKw_true (s : string) (p : Parser.t) :
  isKw s p = true ->
  lexeme (tok_ p) = s /\
  (type (tok_ p) = Keyword \/
   (lenientKeywords (policy_ p) = true /\ type (tok_ p) = Identifier)).
Proof.
  unfold isKw, tokIs, lexemeIs.
  destruct (lenientKeywords (policy_ p)); simpl.
  - destruct (TokenType_eqb (type (tok_ p)) Keyword) eqn:Ek; simpl.
    + intros H. apply String.eqb_eq in H. apply TokenType_eqb_eq in Ek. auto.
    + destruct (TokenType_eqb (type (tok_ p)) Identifier) eqn:Ei; [|discriminate].
      intros H. apply String.eqb_eq in H. apply TokenType_eqb_eq in Ei. auto.
  - intros H. apply andb_prop in H as [Ek H].
    apply String.eqb_eq in H. apply TokenType_eqb_eq in Ek. auto.
Qed.


Lemma isKw_other_kind (s : string) (p : Parser.t) :
  type (tok_ p) <> Keyword -> type (tok_ p) <> Identifier -> isKw s p = false.
Proof.
  intros Hk Hi. unfold isKw, tokIs.
  apply TokenType_eqb_neq in Hk. apply TokenType_eqb_neq in Hi.
  rewrite Hk, Hi. now destruct (lenientKeywords (policy_ p)).
Qed.

(* ================================================================== *)
(** * The parser: errors *)

Lemma bind_error (m k : M) (p p1 : Parser.t) (msg : string) :
  m p = (p1, ParseError msg) -> (m ;; k) p = (p1, ParseError msg).
Proof. intros H. unfold bind. now rewrite H. Qed.

Lemma run_error_text (n : nat) (f : Proc) (p p1 : Parser.t) (msg : string) :
  run n f p = (p1, ParseError msg) -> exists d, msg = error_text d (tok_ p1).
Proof.
  intros H.
  assert (K : keeps (fun _ => True) (run n f)) by (apply keeps_run; auto).
  destruct (K p I) as [_ K2]. rewrite H in K2. simpl in K2. now apply K2.
Qed.

(** The error of the specification's own example, end to end. *)
Example missing_semicolon :
  run_text 40 main_trace main_policy "integer x x = 1;" =
  ([Echo Keyword "integer"; Echo Identifier "x"],
   ParseError "Syntax error: separator ';' expected at line 1, col 12 (near 'x')").
Proof. vm_compute. reflexivity. Qed.



Lemma advance_done (p : Parser.t) : snd (advance p) = Done.
Proof. unfold advance. now destruct (Lexer.nextToken (lex_ p)). Qed.


(* ================================================================== *)
(** * C10: the qualifier [boolean] *)



(* ================================================================== *)
(** * C9: the alternative [<Primary> -> true | false] *)

Lemma init_from_scanner (l : Lexer.t) (tr : TraceConfig) (po : ParserPolicy) :
  from_scanner (Parser.init l tr po).
Proof.
  exists l. unfold Parser.init, advance. simpl.
  now destruct (Lexer.nextToken l).
Qed.

Lemma advance_from_scanner (p : Parser.t) : from_scanner (fst (advance p)).
Proof.
  exists (lex_ p). unfold advance. now destruct (Lexer.nextToken (lex_ p)).
Qed.

Lemma echoToken_tok (p : Parser.t) :
  tok_ (fst (echoToken p)) = tok_ p /\
  (out (fst (echoToken p)) = out p \/
   out (fst (echoToken p)) = (out p ++ [Echo (type (tok_ p)) (lexeme (tok_ p))])%list).
Proof.
  unfold echoToken, ret, write.
  repeat match goal with |- context [if ?b then _ else _] => destruct b end;
    simpl; auto.
Qed.

Lemma run_from_scanner (n : nat) (f : Proc) (p : Parser.t) :
  from_scanner p -> from_scanner (fst (run n f p)).
Proof.
  intros Hp. apply (keeps_run from_scanner); auto.
  - intros q _. apply advance_from_scanner.
  - intros q [l Hq]. exists l. now rewrite (proj1 (echoToken_tok q)).
Qed.

(** A scanner token that passes the guard of the alternative is an
    [Identifier]: it cannot be a [Keyword]. *)
Lemma guard_means_identifier (p : Parser.t) :
  from_scanner p -> true_false_guard p = true -> tokIs Identifier p = true.
Proof.
  intros [l Htok] Hg. unfold true_false_guard, pand, por in Hg.
  apply andb_prop in Hg as [Hlex Hty].
  apply orb_prop in Hty as [H|H]; auto.
  unfold tokIs in H. apply TokenType_eqb_eq in H. exfalso.
  rewrite Htok in H. pose proof (keyword_token l H) as K. rewrite <- Htok in K.
  unfold lexemeIs in Hlex.
  apply orb_prop in Hlex as [E|E]; apply String.eqb_eq in E;
    rewrite E in K; discriminate.
Qed.

Lemma no_true_false_line_advance (p : Parser.t) :
  no_true_false_line p -> no_true_false_line (fst (advance p)).
Proof.
  intros [_ Hout]. split; [apply advance_from_scanner|].
  unfold advance. now destruct (Lexer.nextToken (lex_ p)).
Qed.

Lemma no_true_false_line_echo (p : Parser.t) :
  no_true_false_line p -> no_true_false_line (fst (echoToken p)).
Proof.
  intros [[l Hl] Hout]. destruct (echoToken_tok p) as [Ht [Ho|Ho]].
  - split; [exists l; congruence|]. now rewrite Ho.
  - split; [exists l; congruence|]. rewrite Ho. intros H.
    apply in_app_or in H as [H|[H|[]]]; [auto|discriminate].
Qed.

Lemma no_true_false_line_emit (text : string) (p : Parser.t) :
  text <> true_false_line ->
  no_true_false_line p -> no_true_false_line (fst (emit text p)).
Proof.
  intros Hne [Hs Hout]. split; [exact Hs|]. simpl. intros H.
  apply in_app_or in H as [H|[H|[]]]; [auto|]. inversion H. contradiction.
Qed.

Ltac other_line :=
  intros; apply no_true_false_line_emit; [simpl; discriminate | assumption].

Ltac no_true_false_step H :=
  keeps_step ltac:(auto using no_true_false_line_advance, no_true_false_line_echo)
             ltac:(other_line) H.

(** Every procedure keeps [no_true_false_line]: all but [parsePrimary] write
    other lines only, and in [parsePrimary] the alternative lies behind
    the failed Identifier test. *)
Lemma no_true_false_line_body (call : Proc -> M) :
  (forall f, keeps no_true_false_line (call f)) ->
  forall f, keeps no_true_false_line (body call f).
Proof.
  intros H f.
  destruct f;
    try (unfold_procedures; repeat no_true_false_step H; fail).
  cbv [body parsePrimary]. intros p Hp.
  apply kept_cond; intros Eid.
  { apply (fun K : keeps no_true_false_line _ => K p Hp).
    unfold expectIdentifier. repeat no_true_false_step H. }
  apply kept_cond; intros _.
  { apply (fun K : keeps no_true_false_line _ => K p Hp).
    repeat no_true_false_step H. }
  apply kept_cond; intros _.
  { apply (fun K : keeps no_true_false_line _ => K p Hp).
    repeat no_true_false_step H. }
  apply kept_cond; intros _.
  { apply (fun K : keeps no_true_false_line _ => K p Hp).
    unfold expectSep. repeat no_true_false_step H. }
  apply kept_cond; intros Eg.
  { fold true_false_guard in Eg.
    rewrite (guard_means_identifier p (proj1 Hp) Eg) in Eid. discriminate. }
  apply (fun K : keeps no_true_false_line _ => K p Hp).
  repeat no_true_false_step H.
Qed.

Lemma no_true_false_line_run (n : nat) :
  forall f, keeps no_true_false_line (run n f).
Proof.
  induction n as [|n IH]; intros f.
  - intros p Hp. unfold kept. simpl. split; auto. discriminate.
  - change (run (S n) f) with (fun p => body (run n) f p).
    intros p Hp. apply (no_true_false_line_body (run n) IH f p Hp).
Qed.

(** C9.  "true" and "false" are not keywords of the scanner.  Whenever the
    current token came from the scanner and passes the test that guards
    [<Primary> -> true | false], it is an [Identifier], and [parsePrimary]
    has taken its first alternative, [<Primary> -> <Identifier> <Primary Prime>]:
    the alternative [true | false] is never the one selected.  Accordingly
    no parse of any source text, from any start symbol and under any
    configuration, writes the trace line of that alternative. *)
Theorem true_false_alternative_never_selected
  (call : Proc -> M) (p : Parser.t) (l : Lexer.t) :
  tok_ p = fst (Lexer.nextToken l) ->
  true_false_guard p = true ->
  Lexer.isKeyword "true" = false /\ Lexer.isKeyword "false" = false /\
  type (tok_ p) = Identifier /\
  parsePrimary call p =
  (prod Primary "<Primary> -> <Identifier> <Primary Prime>" ;;
   expectIdentifier ;;
   call P_PrimaryPrime) p /\
  forall (src : string) (tr : TraceConfig) (po : ParserPolicy)
         (n : nat) (start : StartSymbol),
    ~ In (Emit "<Primary> -> true | false")
         (out (fst (parse n start (parser_at src tr po)))).
Proof.
  intros Htok Hg.
  assert (Hid : tokIs Identifier p = true).
  { apply guard_means_identifier; auto. now exists l. }
  split; [reflexivity|]. split; [reflexivity|]. split; [|split].
  - unfold tokIs in Hid. now apply TokenType_eqb_eq.
  - unfold parsePrimary at 1. unfold cond at 1. now rewrite Hid.
  - intros src tr po n start.
    assert (H0 : no_true_false_line (parser_at src tr po)).
    { split; [apply init_from_scanner|]. unfold parser_at, Parser.init, advance.
      simpl. destruct (Lexer.nextToken (Lexer.init src)). simpl. auto. }
    destruct start; apply (no_true_false_line_run n _ _ H0).
Qed.

Lemma true_false_alternative_never_selected_witness :
  tok_ (parser_at "true" main_trace main_policy) =
    fst (Lexer.nextToken (Lexer.init "true")) /\
  true_false_guard (parser_at "true" main_trace main_policy) = true /\
  type (tok_ (parser_at "true" main_trace main_policy)) = Identifier.
Proof.
  split; [reflexivity|]. split; [reflexivity|].
  apply (true_false_alternative_never_selected (run 0)
           (parser_at "true" main_trace main_policy) (Lexer.init "true"));
    reflexivity.
Defined.

(** Were the alternative selected, its line would be written whenever
    nothing is filtered. *)
Lemma true_false_line_is_visible (p : Parser.t) :
  trace_ p = show_all ->
  prod Primary true_false_line p = (wrote p [Emit true_false_line], Done).
Proof. intros Ht. rewrite prod_spec, Ht. reflexivity. Qed.

Example true_is_an_identifier :
  run_text 40 (mkTrace true true true true []) main_policy "x = true;" =
  ([Emit "<Statement> -> <Assign>";
    Emit "<Assign> -> <Identifier> = <Expression> ;";
    Echo Identifier "x"; Echo Operator "=";
    Emit "<Expression> -> <Term> <Expression Prime>";
    Emit "<Term> -> <Factor> <Term Prime>";
    Emit "<Factor> -> <Primary>";
    Emit "<Primary> -> <Identifier> <Primary Prime>";
    Echo Identifier "true"; Echo Separator ";"], Done).
Proof. vm_compute. reflexivity. Qed.

(* ================================================================== *)
(** * The parser: a statement list at a stray token *)

Lemma skipBannerStrings_no_banner (n : nat) (p : Parser.t) :
  tokIs String_ p = false -> run (S n) P_skipBannerStrings p = (p, Done).
Proof. intros H. simpl. unfold skipBannerStrings, cond. now rewrite H. Qed.

(** The lookahead is the integer 5: not end-of-input, not '}', not a
    banner string, and no statement starts with it.  The statement list is
    closed by epsilon all the same, without any error, and the whole
    program "5" is accepted. *)
Lemma statement_list_accepts_stray_token :
  tok_ (parser_at "5" show_all main_policy) = mkToken Integer "5" 1%N 1%N /\
  (tokIs EndOfFile ||| isSep "}") (parser_at "5" show_all main_policy) = false /\
  tokIs String_ (parser_at "5" show_all main_policy) = false /\
  can_start_statement (parser_at "5" show_all main_policy) = false /\
  run 2 P_StatementList (parser_at "5" show_all main_policy) =
    (wrote (parser_at "5" show_all main_policy) [Emit "<Statement List> -> ε"], Done) /\
  run_text 3 show_all main_policy "5" =
  ([Emit "<Rat25F> -> <Opt Function Definitions> <Opt Declaration List> <Statement List>";
    Emit "<Opt Function Definitions> -> ε";
    Emit "<Opt Declaration List> -> ε";
    Emit "<Statement List> -> ε"], Done).
Proof. vm_compute. repeat split; reflexivity. Qed.

(** Only at the end of the input is an [EndOfFile] token returned, and its
    lexeme is empty. *)
Lemma end_token_lexeme (l : Lexer.t) :
  type (fst (Lexer.nextToken l)) = EndOfFile ->
  lexeme (fst (Lexer.nextToken l)) = "".
Proof.
  rewrite nextToken_dispatch. cbv zeta.
  destruct (Lexer.eof (Lexer.skipSpace l)); [reflexivity|].
  unfold Lexer.scanString, Lexer.scanRealStartingWithDot,
    Lexer.scanIdentifierFSM, Lexer.scanNumberFSM, Lexer.scanOpOrSep,
    Lexer.token_here.
  repeat match goal with
         | |- context [if ?b then _ else _] => destruct b
         | |- context [let '(_, _) := ?x in _] => destruct x
         end; simpl; congruence.
Qed.

(* ================================================================== *)
(** * The scanner: the word [if] *)


(* ================================================================== *)
(** * C2: tracing with an empty allow-set *)

(** With an empty allow-set, [prod] lets every line through that the three
    hiding flags do not hide. *)
Lemma prod_with_empty_allow_set (r : Rule) (text : string) (tr : TraceConfig) :
  master tr = true -> enabled tr = [] ->
  shown r text tr =
  negb (hideEpsilon tr && contains text "ε") &&
  negb (hideOpt tr && contains text "Opt ") &&
  negb (hideScaffolding tr &&
        (contains text "Rat25F" || contains text "Statement List")).
Proof. intros Hm He. unfold shown. rewrite Hm, He. reflexivity. Qed.

(** [parseRelop] does not go through [prod]: with an empty allow-set (and
    indeed whenever [Rule::Relop] is not in it) it writes no trace line. *)
Lemma parseRelop_with_empty_allow_set (p : Parser.t) :
  enabled (trace_ p) = [] ->
  parseRelop p =
  cond (isOp "==" ||| isOp "!=" ||| isOp ">" ||| isOp "<" ||| isOp "<=" ||| isOp ">=")
    (echoToken ;; advance)
    (errorHere "relational operator expected") p.
Proof.
  intros He. unfold parseRelop, cond, relop_traced, ret.
  destruct ((isOp "==" ||| isOp "!=" ||| isOp ">" ||| isOp "<" ||| isOp "<="
             ||| isOp ">=") p); [|reflexivity].
  unfold bind at 1. rewrite He. rewrite andb_false_r. reflexivity.
Qed.

(** C2, at the failing input: tracing on, allow-set empty, nothing hidden,
    source "while (a < b) x = 1;".  The relational operator is matched and
    echoed, the lines of the other procedures are there, but no
    "<Relop> -> <" line is written. *)
Theorem relop_line_missing_with_empty_allow_set :
  snd (run_text 40 show_all main_policy "while (a < b) x = 1;") = Done /\
  In (Emit "<Condition> -> <Expression> <Relop> <Expression>")
     (fst (run_text 40 show_all main_policy "while (a < b) x = 1;")) /\
  In (Echo Operator "<")
     (fst (run_text 40 show_all main_policy "while (a < b) x = 1;")) /\
  ~ In (Emit "<Relop> -> <")
       (fst (run_text 40 show_all main_policy "while (a < b) x = 1;")) /\
  forall lex : string,
    ~ In (Emit ("<Relop> -> " ++ lex))
         (fst (run_text 40 show_all main_policy "while (a < b) x = 1;")).
Proof.
  vm_compute. split; [reflexivity|].
  split; [intuition|]. split; [intuition|].
  split.
  - intros H. repeat (destruct H as [H|H]; [discriminate|]). exact H.
  - intros lex H. repeat (destruct H as [H|H]; [discriminate|]). exact H.
Qed.

(* ================================================================== *)
(** * The token echo: every line is a scanned token *)

Lemma echo_inv_init (src : string) (tr : TraceConfig) (po : ParserPolicy) :
  echo_inv src (Parser.init (Lexer.init src) tr po).
Proof.
  unfold echo_inv, Parser.init, advance. simpl.
  destruct (Lexer.nextToken (Lexer.init src)) as [tk l] eqn:E. simpl.
  split; [|split]; auto.
  - replace l with (snd (Lexer.nextToken (Lexer.init src))) by now rewrite E.
    constructor. constructor.
  - exists (Lexer.init src). split; [constructor|]. now rewrite E.
Qed.

Lemma echo_inv_run (src : string) (n : nat) (f : Proc) (p : Parser.t) :
  echo_inv src p -> echo_inv src (fst (run n f p)).
Proof.
  intros Hp. apply (keeps_run (echo_inv src)); auto.
  - intros q (H1 & H2 & H3). unfold echo_inv, advance.
    destruct (Lexer.nextToken (lex_ q)) as [tk l] eqn:E. simpl.
    split; [|split]; auto.
    + replace l with (snd (Lexer.nextToken (lex_ q))) by now rewrite E.
      now constructor.
    + exists (lex_ q). split; auto. now rewrite E.
  - intros q (H1 & H2 & H3). unfold echoToken, ret, write.
    destruct (negb (echoTokens (policy_ q))); [repeat split; auto|].
    destruct (tokIs EndOfFile q) eqn:E; [repeat split; auto|].
    unfold echo_inv. simpl. repeat split; auto.
    apply Forall_app. split; auto. constructor; [|constructor].
    simpl. exists (tok_ q). repeat split; auto.
    unfold tokIs in E. now apply TokenType_eqb_neq.
  - intros text q (H1 & H2 & H3). unfold echo_inv, emit, write. simpl.
    repeat split; auto. apply Forall_app. split; auto.
    constructor; [exact I|constructor].
Qed.

Lemma shape_nonempty (k : TokenType) (lex : string) :
  shape k lex -> 1 <= String.length lex.
Proof. intros H. destruct H; simpl; lia. Qed.

Lemma shape_not_end (k : TokenType) (lex : string) :
  shape k lex -> k <> EndOfFile.
Proof.
  intros H. destruct H; try discriminate.
  destruct (Lexer.isKeyword _); discriminate.
Qed.

(** Scanning a lexeme of the right shape on its own gives that one token. *)
Lemma shape_tokens_of (k : TokenType) (lex : string) :
  shape k lex -> map kind_lexeme (tokens_of lex) = [(k, lex)].
Proof.
  intros Hs. unfold tokens_of.
  destruct (init_view lex) as [Hv Hok].
  destruct (shape_read_back k lex Hs (Lexer.init lex) Hok Hv) as (H1 & H2 & H3).
  pose proof (shape_nonempty k lex Hs) as Hlen.
  pose proof (shape_not_end k lex Hs) as Hne.
  destruct (String.length lex) as [|n]; [lia|].
  cbn [drain]. destruct (Lexer.nextToken (Lexer.init lex)) as [tk l1].
  simpl in H1, H2, H3. subst k lex.
  apply TokenType_eqb_neq in Hne. rewrite Hne.
  cbn [drain]. rewrite (nextToken_eof l1 H3). simpl. reflexivity.
Qed.

(** Every line of the token echo carries the kind and lexeme of a token the
    scanner returned over the source text; unless that token is a string
    literal, scanning its lexeme on its own gives back that one token. *)
Lemma echo_line_reads_back
  (src : string) (tr : TraceConfig) (po : ParserPolicy)
  (n : nat) (start : StartSymbol) (k : TokenType) (lex : string) :
  In (Echo k lex)
     (out (fst (parse n start (Parser.init (Lexer.init src) tr po)))) ->
  (exists tk, scanned src tk /\ kind_lexeme tk = (k, lex)) /\
  (k <> String_ -> map kind_lexeme (tokens_of lex) = [(k, lex)]).
Proof.
  intros Hin.
  assert (Hinv : echo_inv src (fst (parse n start (Parser.init (Lexer.init src) tr po)))).
  { destruct start; apply echo_inv_run, echo_inv_init. }
  destruct Hinv as (_ & _ & Hall).
  rewrite Forall_forall in Hall. specialize (Hall _ Hin).
  destruct Hall as (tk & Hsc & Hkl & Hne). split; [eauto|].
  intros Hns. destruct Hsc as (l & _ & ->).
  unfold kind_lexeme in Hkl. inversion Hkl as [[Hk Hl]]. clear Hkl.
  apply shape_tokens_of.
  apply token_shape_any; congruence.
Qed.

(** "return x;" parses, echo on.  Its echoed lexemes glued together give
    "returnx;", which the scanner reads as two tokens, not as the three of
    the source. *)
Lemma glued_echo_reads_differently :
  snd (run_text 40 main_trace main_policy "return x;") = Done /\
  echoed_lexemes (fst (run_text 40 main_trace main_policy "return x;")) =
    ["return"; "x"; ";"] /\
  map kind_lexeme (tokens_of (String.concat ""
     (echoed_lexemes (fst (run_text 40 main_trace main_policy "return x;"))))) =
    [(Identifier, "returnx"); (Separator, ";")] /\
  map kind_lexeme (tokens_of "return x;") =
    [(Keyword, "return"); (Identifier, "x"); (Separator, ";")] /\
  map kind_lexeme (tokens_of (String.concat ""
     (echoed_lexemes (fst (run_text 40 main_trace main_policy "return x;"))))) <>
  map kind_lexeme (tokens_of "return x;").
Proof. vm_compute. repeat split; try reflexivity. discriminate. Qed.

(* ================================================================== *)
(** * The scanner as a function of the unread text *)

Lemma take_drop_while (p : ascii -> bool) (s : string) :
  take_while p s ++ drop_while p s = s.
Proof.
  induction s as [|c s IH]; simpl; auto.
  destruct (p c); simpl; congruence.
Qed.

Lemma nextToken_reading_eq (l : Lexer.t) :
  stream_ok l ->
  (type (fst (Lexer.nextToken l)), lexeme (fst (Lexer.nextToken l)),
   view (snd (Lexer.nextToken l))) = reading (view l) /\
  stream_ok (snd (Lexer.nextToken l)).
Proof.
  intros Hok. rewrite nextToken_dispatch. cbv zeta. unfold reading.
  destruct (skipSpace_spec l Hok) as [Hdw _]. rewrite <- Hdw.
  destruct (skipSpace_cases l Hok) as [Hok1 [He|(c & s & Hv & Hsp & He & Hc)]];
    rewrite He.
  { apply view_nil_iff in He as Hv. rewrite Hv. simpl. rewrite Hv. auto. }
  rewrite Hv, Hc, (peek_view _ c s Hv).
  destruct (Ascii.eqb c quote).
  { destruct (scanString_spec _ _ _ Hok1 Hv) as (H1 & H2 & H3 & H4).
    rewrite H1, H2, H3. auto. }
  destruct (Ascii.eqb c "." && isdigit (next_char s)).
  { destruct (scanRealStartingWithDot_spec _ _ _ Hok1 Hv) as (H1 & H2 & H3 & H4).
    rewrite H1, H2, H3. auto. }
  destruct (Lexer.isLetter c).
  { destruct (scanIdentifierFSM_spec _ _ _ Hok1 Hv) as (H1 & H2 & H3 & H4).
    rewrite H1, H2, H3. auto. }
  destruct (isdigit c).
  { destruct (scanNumberFSM_spec _ Hok1) as (H1 & H4). rewrite Hv in H1. auto. }
  destruct (Lexer.isSeparator c || Lexer.isOperatorStart c).
  { destruct (scanOpOrSep_spec _ _ _ Hok1 Hv) as (H1 & H4). auto. }
  destruct (advance_cons _ _ _ Hok1 Hv) as [Hav Hao]. simpl. rewrite Hav. auto.
Qed.

Lemma shape_lexeme_ok (k : TokenType) (lex : string) :
  shape k lex -> lexeme_ok k lex = true.
Proof.
  intros H.
  destruct H as [c w Hl Hw | d w Hd Hw | d w e v Hd Hw He Hv
                | e v He Hv | c p H2 | c Ho | c Hsep
                | c Hsp Hq Hl Hd Hsep Ho].
  - destruct (Lexer.isKeyword (String c w)) eqn:E; simpl; now rewrite Hl, Hw, E.
  - simpl. now rewrite Hd, Hw.
  - unfold lexeme_ok, is_real. simpl. rewrite Hd.
    assert (Hnd : isdigit "." = false) by reflexivity.
    destruct (take_while_stop isdigit w "." (String e v) Hw Hnd) as [_ ->].
    simpl. now rewrite He, Hv.
  - unfold lexeme_ok, is_real. simpl. now rewrite He, Hv.
  - unfold two_char_op in H2.
    repeat (apply orb_prop in H2 as [H2|H2]);
      apply andb_prop in H2 as [Hc Hp];
      apply Ascii.eqb_eq in Hc; apply Ascii.eqb_eq in Hp; subst; reflexivity.
  - revert Ho. ascii_cases c.
  - revert Hsep. ascii_cases c.
  - simpl. now rewrite Hsp, Hq, Hl, Hd, Hsep, Ho.
Qed.

Lemma string_token_lexeme (l : Lexer.t) :
  type (fst (Lexer.nextToken l)) = String_ ->
  all_chars Lexer.not_quote (lexeme (fst (Lexer.nextToken l))) = true.
Proof.
  destruct (Lexer.eof l) eqn:He.
  { rewrite (nextToken_eof l He). discriminate. }
  pose proof (not_eof_stream_ok l He) as Hok.
  destruct (nextToken_reading_eq l Hok) as [Hr _].
  unfold reading in Hr. intros Ht.
  destruct (drop_while isspace (view l)) as [|c r]; [inversion Hr; congruence|].
  destruct (Ascii.eqb c quote).
  { inversion Hr as [[H1 H2 H3]]. rewrite H2. apply take_while_all. }
  exfalso. revert Hr.
  destruct (Ascii.eqb c "." && isdigit (next_char r)); [intros Hr; inversion Hr; congruence|].
  destruct (Lexer.isLetter c).
  { destruct (Lexer.isKeyword _); intros Hr; inversion Hr; congruence. }
  destruct (isdigit c).
  { unfold number_reading.
    repeat match goal with
           | |- context [match ?x with _ => _ end] => destruct x
           end; intros Hr; inversion Hr; congruence. }
  destruct (_ || _).
  { unfold op_reading.
    repeat match goal with
           | |- context [if ?x then _ else _] => destruct x
           end; intros Hr; inversion Hr; congruence. }
  intros Hr; inversion Hr; congruence.
Qed.

(** X1.  Whatever the scanner is given, the token [nextToken()] returns
    carries a lexeme that is well formed for its kind: a word that is (for
    a Keyword) or is not (for an Identifier) in the keyword table, a
    non-empty run of digits, digits-dot-digits with at least one digit
    behind the dot, one of the sixteen operators, one of the eight
    separators, a text without a double quote, a single character outside
    every class, and the empty lexeme at the end of the input. *)
Theorem token_lexeme_is_well_formed (l : Lexer.t) :
  lexeme_ok (type (fst (Lexer.nextToken l))) (lexeme (fst (Lexer.nextToken l)))
  = true.
Proof.
  destruct (TokenType_eqb (type (fst (Lexer.nextToken l))) String_) eqn:Es.
  { apply TokenType_eqb_eq in Es. rewrite Es. simpl. now apply string_token_lexeme. }
  destruct (TokenType_eqb (type (fst (Lexer.nextToken l))) EndOfFile) eqn:Ee.
  { apply TokenType_eqb_eq in Ee. rewrite Ee. simpl.
    now rewrite (end_token_lexeme l Ee). }
  apply TokenType_eqb_neq in Es. apply TokenType_eqb_neq in Ee.
  apply shape_lexeme_ok. now apply token_shape_any.
Qed.

Lemma nextToken_reading_any (l : Lexer.t) :
  (type (fst (Lexer.nextToken l)), lexeme (fst (Lexer.nextToken l)),
   view (snd (Lexer.nextToken l))) = reading (view l).
Proof.
  destruct (Lexer.eof l) eqn:He.
  - rewrite (nextToken_eof l He). simpl.
    apply view_nil_iff in He. now rewrite He.
  - apply nextToken_reading_eq. now apply not_eof_stream_ok.
Qed.

Ltac reading_cases s c r :=
  unfold reading;
  let Hd := fresh "Hdrop" in
  destruct (drop_while isspace s) as [|c r] eqn:Hd;
  [ | let Hq := fresh "Hquote" in
      destruct (Ascii.eqb c quote) eqn:Hq;
      [ | let Hf := fresh "Hfrac" in
          destruct (Ascii.eqb c "." && isdigit (next_char r)) eqn:Hf;
          [ | let Hl := fresh "Hletter" in
              destruct (Lexer.isLetter c) eqn:Hl;
              [ | let Hg := fresh "Hdigit" in
                  destruct (isdigit c) eqn:Hg;
                  [ | let Ho := fresh "Hopsep" in
                      destruct (Lexer.isSeparator c || Lexer.isOperatorStart c) eqn:Ho ]]]]].

(** X2.  The kind and lexeme of the token [nextToken()] returns, and the
    text it leaves unread, are what [reading] makes of the text that was
    unread before the call: white space is skipped, the first rule that
    applies decides, and neither the line and column counters nor anything
    read earlier play a part. *)
Theorem nextToken_is_reading (l l' : Lexer.t) :
  (type (fst (Lexer.nextToken l)), lexeme (fst (Lexer.nextToken l)),
   view (snd (Lexer.nextToken l))) = reading (view l) /\
  (view l = view l' ->
   kind_lexeme (fst (Lexer.nextToken l)) = kind_lexeme (fst (Lexer.nextToken l')) /\
   view (snd (Lexer.nextToken l)) = view (snd (Lexer.nextToken l'))).
Proof.
  split; [apply nextToken_reading_any|].
  intros Hv. pose proof (nextToken_reading_any l) as H1.
  pose proof (nextToken_reading_any l') as H2. rewrite Hv, <- H2 in H1.
  unfold kind_lexeme. inversion H1. auto.
Qed.

Lemma number_reading_tiles (s : string) :
  snd (fst (number_reading s)) ++ snd (number_reading s) = s.
Proof.
  unfold number_reading. pose proof (take_drop_while isdigit s) as H.
  destruct (drop_while isdigit s) as [|dot [|e r]]; simpl; auto.
  destruct (Ascii.eqb dot "." && isdigit e) eqn:E; cbn [fst snd]; auto.
  rewrite string_app_assoc. simpl.
  pose proof (take_drop_while isdigit (String e r)) as H2. simpl in H2.
  now rewrite H2.
Qed.

Lemma op_reading_tiles (c : ascii) (s : string) :
  snd (fst (op_reading c s)) ++ snd (op_reading c s) = String c s.
Proof.
  unfold op_reading.
  destruct (two_char_op c (next_char s)) eqn:E.
  - destruct s as [|e r]; simpl; auto.
    now rewrite two_char_op_at_end in E.
  - repeat match goal with |- context [if ?b then _ else _] => destruct b end;
      reflexivity.
Qed.

Lemma reading_tiles (s : string) :
  fst (fst (reading s)) <> String_ ->
  snd (fst (reading s)) ++ snd (reading s) = drop_while isspace s.
Proof.
  reading_cases s c r; cbn [fst snd]; intros Hns; try congruence;
    try (simpl; now rewrite take_drop_while);
    try reflexivity.
  - apply number_reading_tiles.
  - apply op_reading_tiles.
Qed.

(** X3.  No character is lost or made up: unless the token is a string
    literal, the text that was unread before the call is white space, then
    exactly the token's lexeme, then exactly the text left unread after
    the call. *)
Theorem lexeme_is_the_text_read (l : Lexer.t) :
  type (fst (Lexer.nextToken l)) <> String_ ->
  drop_while isspace (view l) =
  lexeme (fst (Lexer.nextToken l)) ++ view (snd (Lexer.nextToken l)).
Proof.
  intros Hns. pose proof (nextToken_reading_any l) as H.
  pose proof (reading_tiles (view l)) as T. rewrite <- H in T.
  simpl in T. symmetry. now apply T.
Qed.

Lemma lexeme_is_the_text_read_witness :
  type (fst (Lexer.nextToken (Lexer.init "  x1 = 2;"))) <> String_ /\
  drop_while isspace (view (Lexer.init "  x1 = 2;")) =
  lexeme (fst (Lexer.nextToken (Lexer.init "  x1 = 2;"))) ++
  view (snd (Lexer.nextToken (Lexer.init "  x1 = 2;"))).
Proof.
  split; [discriminate|].
  apply (lexeme_is_the_text_read (Lexer.init "  x1 = 2;")). discriminate.
Defined.

Lemma drop_while_stops (p : ascii -> bool) (s : string) :
  stops p (drop_while p s) = true.
Proof.
  induction s as [|c s IH]; simpl; auto.
  destruct (p c) eqn:E; auto. simpl. now rewrite E.
Qed.

Lemma number_reading_munched (d : ascii) (s : string) :
  isdigit d = true ->
  munched (fst (fst (number_reading (String d s))))
          (snd (fst (number_reading (String d s))))
          (snd (number_reading (String d s))) = true.
Proof.
  intros Hd. unfold number_reading.
  pose proof (drop_while_stops isdigit (String d s)) as Hs.
  destruct (drop_while isdigit (String d s)) as [|dot [|e r]]; auto.
  - simpl in *. now rewrite Hs.
  - destruct (Ascii.eqb dot "." && isdigit e) eqn:E; cbn [fst snd munched].
    + apply drop_while_stops.
    + rewrite Hs. simpl. now rewrite E.
Qed.

Lemma op_reading_munched (c : ascii) (s : string) :
  munched (fst (fst (op_reading c s))) (snd (fst (op_reading c s)))
          (snd (op_reading c s)) = true.
Proof.
  unfold op_reading.
  destruct (two_char_op c (next_char s)) eqn:E; [reflexivity|].
  repeat match goal with |- context [if ?b then _ else _] => destruct b end;
    cbn [fst snd munched]; now rewrite ?E.
Qed.

Lemma reading_munched (s : string) :
  munched (fst (fst (reading s))) (snd (fst (reading s))) (snd (reading s)) = true.
Proof.
  reading_cases s c r; cbn [fst snd]; try reflexivity.
  - apply drop_while_stops.
  - destruct (Lexer.isKeyword _); apply drop_while_stops.
  - now apply number_reading_munched.
  - apply op_reading_munched.
Qed.

(** X4.  Longest match.  Behind an Identifier or Keyword the unread text
    does not start with a letter, digit, '$' or '_'; behind an Integer it
    starts neither with a digit nor with a dot and a digit; behind a Real it
    does not start with a digit; and behind a one-character operator it does
    not start with the character that would have made a two-character
    operator. *)
Theorem token_is_longest_match (l : Lexer.t) :
  munched (type (fst (Lexer.nextToken l))) (lexeme (fst (Lexer.nextToken l)))
          (view (snd (Lexer.nextToken l))) = true.
Proof.
  pose proof (reading_munched (view l)) as H.
  rewrite <- (nextToken_reading_any l) in H. exact H.
Qed.

(* ------------------------------------------------------------------ *)
(** ** String literals *)

(** X5.  A string literal that is closed: the scanner stands, white space
    apart, in front of a double quote, a text [s] without double quotes
    (line breaks and blanks included) and a closing double quote.  The
    token is a String whose lexeme is [s] as written, without the quotes,
    and scanning goes on right behind the closing quote. *)
Theorem closed_string_literal (l : Lexer.t) (s rest : string) :
  drop_while isspace (view l) = String quote (s ++ String quote rest) ->
  all_chars Lexer.not_quote s = true ->
  type (fst (Lexer.nextToken l)) = String_ /\
  lexeme (fst (Lexer.nextToken l)) = s /\
  view (snd (Lexer.nextToken l)) = rest.
Proof.
  intros Hd Hs. pose proof (nextToken_reading_any l) as H.
  unfold reading in H. rewrite Hd in H.
  replace (Ascii.eqb quote quote) with true in H by reflexivity.
  assert (Hq : Lexer.not_quote quote = false) by reflexivity.
  destruct (take_while_stop Lexer.not_quote s quote rest Hs Hq) as [Ht Hdr].
  rewrite Ht, Hdr in H. simpl in H. inversion H. auto.
Qed.

Lemma closed_string_literal_witness :
  drop_while isspace
    (view (Lexer.init (String " " (String quote ("a b" ++ String quote " + 1"))))) =
    String quote ("a b" ++ String quote " + 1") /\
  all_chars Lexer.not_quote "a b" = true /\
  type (fst (Lexer.nextToken
    (Lexer.init (String " " (String quote ("a b" ++ String quote " + 1")))))) = String_.
Proof.
  split; [reflexivity|]. split; [reflexivity|].
  apply (closed_string_literal
           (Lexer.init (String " " (String quote ("a b" ++ String quote " + 1"))))
           "a b" " + 1"); reflexivity.
Defined.

(* ------------------------------------------------------------------ *)
(** ** The token stream of a text *)

Lemma drain_spec (n : nat) :
  forall l : Lexer.t,
    stream_ok l -> String.length (view l) < n ->
    List.length (drain n l) <= String.length (view l) /\
    Forall (fun tk => type tk <> EndOfFile) (drain n l) /\
    fst (Lexer.nextTokens (List.length (drain n l)) l) = drain n l /\
    type (fst (Lexer.nextToken
                 (snd (Lexer.nextTokens (List.length (drain n l)) l)))) = EndOfFile.
Proof.
  induction n as [|n IH]; intros l Hok Hlen; [lia|].
  cbn [drain]. destruct (Lexer.eof l) eqn:He.
  { rewrite (nextToken_eof l He). simpl. rewrite (nextToken_eof l He).
    repeat split; auto; lia. }
  destruct (nextToken_progress l Hok He) as [Hok' Hlt].
  destruct (Lexer.nextToken l) as [tk l1] eqn:E. simpl in Hok', Hlt.
  destruct (TokenType_eqb (type tk) EndOfFile) eqn:Et.
  { simpl. rewrite E. simpl. apply TokenType_eqb_eq in Et.
    repeat split; auto; lia. }
  destruct (IH l1 Hok' ltac:(lia)) as (H1 & H2 & H3 & H4).
  apply TokenType_eqb_neq in Et.
  cbn [List.length Lexer.nextTokens]. rewrite E.
  destruct (Lexer.nextTokens (List.length (drain n l1)) l1) as [ts l2] eqn:E2.
  simpl in *. repeat split; auto; try lia. now rewrite H3.
Qed.

(** X6.  The token stream of a source text, taken up to the first
    end-of-input token, has at most as many tokens as the text has
    characters; it is what that many calls of [nextToken()] return, none of
    them an end-of-input token, and the call after them returns the
    end-of-input token. *)
Theorem token_stream_of_text (src : string) :
  List.length (tokens_of src) <= String.length src /\
  Forall (fun tk => type tk <> EndOfFile) (tokens_of src) /\
  fst (Lexer.nextTokens (List.length (tokens_of src)) (Lexer.init src)) =
    tokens_of src /\
  type (fst (Lexer.nextToken
               (snd (Lexer.nextTokens (List.length (tokens_of src))
                       (Lexer.init src))))) = EndOfFile.
Proof.
  destruct (init_view src) as [Hv Hok]. unfold tokens_of.
  destruct (drain_spec (S (String.length src)) (Lexer.init src) Hok) as (H1 & H2 & H3 & H4).
  { rewrite Hv. lia. }
  rewrite Hv in H1. auto.
Qed.

(* ------------------------------------------------------------------ *)
(** ** Line and column *)

Section AdvanceClosed.

(** What every [advance()] preserves, every scanning procedure preserves:
    the cursor moves by [advance()] only. *)
Variable P : Lexer.t -> Prop.
Hypothesis P_advance : forall l, P l -> P (Lexer.advance l).

Lemma scan_loop_closed (p : ascii -> bool) (n : nat) :
  forall l lex, P l -> P (fst (Lexer.scan_loop p n l lex)).
Proof.
  induction n as [|n IH]; intros l lex Hl; simpl; auto.
  destruct (negb (Lexer.eof l) && p (Lexer.current l)); auto.
Qed.

Lemma skipSpace_loop_closed (n : nat) :
  forall l, P l -> P (Lexer.skipSpace_loop n l).
Proof.
  induction n as [|n IH]; intros l Hl; simpl; auto.
  destruct (negb (Lexer.eof l) && isspace (Lexer.current l)); auto.
Qed.

Lemma nextToken_closed (l : Lexer.t) : P l -> P (snd (Lexer.nextToken l)).
Proof.
  intros Hl. rewrite nextToken_dispatch. cbv zeta.
  assert (H1 : P (Lexer.skipSpace l)) by now apply skipSpace_loop_closed.
  set (l1 := Lexer.skipSpace l) in *.
  destruct (Lexer.eof l1); [exact H1|].
  destruct (Ascii.eqb (Lexer.current l1) quote).
  { unfold Lexer.scanString, Lexer.scan_while.
    pose proof (scan_loop_closed Lexer.not_quote
                  (Lexer.loop_bound (Lexer.advance l1)) (Lexer.advance l1) ""
                  (P_advance _ H1)) as H2.
    destruct (Lexer.scan_loop _ _ _ _) as [l2 lex]. simpl in *.
    destruct (negb (Lexer.eof l2)); auto. }
  destruct (_ && isdigit _).
  { unfold Lexer.scanRealStartingWithDot, Lexer.scan_while.
    pose proof (scan_loop_closed isdigit
                  (Lexer.loop_bound (Lexer.advance l1)) (Lexer.advance l1)
                  (push_back "" (Lexer.current l1)) (P_advance _ H1)) as H2.
    destruct (Lexer.scan_loop _ _ _ _) as [l2 lex]. exact H2. }
  destruct (Lexer.isLetter _).
  { unfold Lexer.scanIdentifierFSM, Lexer.scan_while.
    pose proof (scan_loop_closed Lexer.isIdentRest
                  (Lexer.loop_bound (Lexer.advance l1)) (Lexer.advance l1)
                  (push_back "" (Lexer.current l1)) (P_advance _ H1)) as H2.
    destruct (Lexer.scan_loop _ _ _ _) as [l2 lex].
    destruct (Lexer.isKeyword lex); exact H2. }
  destruct (isdigit (Lexer.current l1)).
  { unfold Lexer.scanNumberFSM, Lexer.scan_while.
    pose proof (scan_loop_closed isdigit (Lexer.loop_bound l1) l1 "" H1) as H2.
    destruct (Lexer.scan_loop isdigit (Lexer.loop_bound l1) l1 "") as [l2 lex].
    simpl in H2.
    destruct (_ && _ && _); [|exact H2].
    pose proof (scan_loop_closed isdigit
                  (Lexer.loop_bound (Lexer.advance l2)) (Lexer.advance l2)
                  (push_back lex (Lexer.current l2)) (P_advance _ H2)) as H3.
    destruct (Lexer.scan_loop _ _ _ _) as [l3 lex3]. exact H3. }
  destruct (_ || _).
  { unfold Lexer.scanOpOrSep.
    repeat match goal with |- context [if ?b then _ else _] => destruct b end;
      simpl; auto. }
  simpl. auto.
Qed.

Lemma nextTokens_closed (k : nat) :
  forall l, P l -> P (snd (Lexer.nextTokens k l)).
Proof.
  induction k as [|k IH]; intros l Hl; simpl; auto.
  pose proof (nextToken_closed l Hl) as H1.
  destruct (Lexer.nextToken l) as [tk l1]. simpl in H1.
  specialize (IH l1 H1). destruct (Lexer.nextTokens k l1). exact IH.
Qed.

End AdvanceClosed.

Lemma string_rev_snoc (s : string) (c : ascii) :
  string_rev (s ++ String c "") = String c (string_rev s).
Proof. induction s as [|a s IH]; simpl; auto. now rewrite IH. Qed.

Lemma count_newlines_snoc (s : string) (c : ascii) :
  count_newlines (s ++ String c "") =
  (count_newlines s + (if Ascii.eqb c newline then 1 else 0))%N.
Proof.
  induction s as [|a s IH]; simpl.
  - destruct (Ascii.eqb c newline); reflexivity.
  - rewrite IH. lia.
Qed.

Lemma tracks_advance (src : string) (l : Lexer.t) :
  tracks src l -> tracks src (Lexer.advance l).
Proof.
  intros (pre & Hsrc & Hline & Hcol). unfold Lexer.advance.
  destruct (Lexer.input l) as [|ch rest] eqn:Hin.
  - exists pre. unfold positioned. simpl. auto.
  - exists (pre ++ String ch "").
    assert (Hs : src = (pre ++ String ch "") ++ rest)
      by (rewrite string_app_assoc; exact Hsrc).
    assert (Hmax : size_max <> 0%N) by discriminate.
    unfold positioned, chars_since_newline, size_incr.
    rewrite string_rev_snoc, count_newlines_snoc.
    change (Ascii.eqb ch "010") with (Ascii.eqb ch newline).
    destruct (Ascii.eqb ch newline) eqn:E; simpl Lexer.input; simpl Lexer.line;
      simpl Lexer.col; cbn [take_while]; unfold not_newline; rewrite E; simpl negb;
      cbv iota.
    + repeat split; auto.
      rewrite Hline, N.Div0.add_mod_idemp_l. f_equal. lia.
    + repeat split; auto.
      * now rewrite Hline, N.add_0_r.
      * rewrite Hcol, N.Div0.add_mod_idemp_l. f_equal.
        unfold chars_since_newline, not_newline. simpl String.length. lia.
Qed.

Lemma token_position (l : Lexer.t) :
  line (fst (Lexer.nextToken l)) = Lexer.line (snd (Lexer.nextToken l)) /\
  col (fst (Lexer.nextToken l)) = Lexer.col (snd (Lexer.nextToken l)).
Proof.
  rewrite nextToken_dispatch. cbv zeta.
  unfold eof_token, Lexer.scanString, Lexer.scanRealStartingWithDot,
    Lexer.scanIdentifierFSM, Lexer.scanNumberFSM, Lexer.scanOpOrSep,
    Lexer.token_here.
  repeat match goal with
         | |- context [if ?b then _ else _] => destruct b
         | |- context [let '(_, _) := ?x in _] => destruct x
         end; simpl; auto.
Qed.

(** X7.  Line and column.  After any number of calls on a scanner built
    over [src], the next token carries the line and column counters as they
    stand when it is returned; and at that moment the scanner has read some
    initial part [pre] of [src] (the token's own characters and the one
    character of lookahead behind it included), the line is one more than
    the number of line feeds in [pre], and the column is the number of
    characters of [pre] behind its last line feed, both modulo 2^64. *)
Theorem token_line_and_column (src : string) (k : nat) :
  let l0 := snd (Lexer.nextTokens k (Lexer.init src)) in
  let tk := fst (Lexer.nextToken l0) in
  let l := snd (Lexer.nextToken l0) in
  line tk = Lexer.line l /\ col tk = Lexer.col l /\
  exists pre : string,
    src = pre ++ Lexer.input l /\
    Lexer.line l = ((1 + count_newlines pre) mod size_max)%N /\
    Lexer.col l = (chars_since_newline pre mod size_max)%N.
Proof.
  cbv zeta.
  destruct (token_position (snd (Lexer.nextTokens k (Lexer.init src)))) as [H1 H2].
  split; [exact H1|]. split; [exact H2|].
  apply (nextToken_closed (tracks src) (tracks_advance src)).
  apply (nextTokens_closed (tracks src) (tracks_advance src)).
  unfold Lexer.init. apply tracks_advance.
  exists "". unfold positioned. simpl. repeat split; reflexivity.
Qed.

Example position_demo :
  map (fun tk => (lexeme tk, line tk, col tk))
      (tokens_of ("ab" ++ String newline "  c = 1;")) =
  [("ab", 2%N, 0%N); ("c", 2%N, 4%N); ("=", 2%N, 6%N); ("1", 2%N, 8%N);
   (";", 2%N, 8%N)].
Proof. vm_compute. reflexivity. Qed.

(* ================================================================== *)
(** * The parser: its helpers on their own *)

Lemma prefix_app (sub : string) :
  forall s, String.prefix sub s = true <-> exists post, s = sub ++ post.
Proof.
  induction sub as [|a sub IH]; intros s.
  - destruct s; simpl; split; eauto.
  - destruct s as [|b s]; simpl.
    + split; [discriminate|]. intros [post H]. discriminate.
    + destruct (ascii_dec a b) as [->|Hne].
      * rewrite IH. split; intros [post H]; exists post; congruence.
      * split; [discriminate|]. intros [post H]. congruence.
Qed.

(** X8.  [contains s sub] says whether [sub] occurs in [s]: it holds exactly
    when [s] is some text, then [sub], then some text. *)
Theorem contains_iff_occurs (s sub : string) :
  contains s sub = true <-> exists pre post, s = pre ++ sub ++ post.
Proof.
  induction s as [|c s IH]; cbn [contains].
  - rewrite orb_false_r, prefix_app. split.
    + intros [post H]. exists "", post. exact H.
    + intros (pre & post & H). destruct pre; simpl in H; [eauto|discriminate].
  - rewrite orb_true_iff, prefix_app, IH. split.
    + intros [[post H]|(pre & post & H)].
      * exists "", post. exact H.
      * exists (String c pre), post. simpl. now rewrite H.
    + intros (pre & post & H). destruct pre as [|a pre]; simpl in H.
      * left. eauto.
      * right. exists pre, post. congruence.
Qed.

(* ================================================================== *)
(** * The parser: output that is switched off *)

Lemma forallb_snoc {A : Type} (f : A -> bool) (xs : list A) (x : A) :
  forallb f xs = true -> f x = true -> forallb f (xs ++ [x]) = true.
Proof. intros H1 H2. rewrite forallb_app, H1. simpl. now rewrite H2. Qed.

Lemma writes_only_advance ok tr po (p : Parser.t) :
  writes_only ok tr po p -> writes_only ok tr po (fst (advance p)).
Proof.
  intros (H1 & H2 & H3). unfold advance.
  destruct (Lexer.nextToken (lex_ p)). repeat split; auto.
Qed.

Lemma no_echo_body tr po (call : Proc -> M) :
  echoTokens po = false ->
  (forall f, keeps (writes_only is_emit tr po) (call f)) ->
  forall f, keeps (writes_only is_emit tr po) (body call f).
Proof.
  intros Hoff. apply keeps_body.
  - apply writes_only_advance.
  - intros p (H1 & H2 & H3). unfold echoToken. rewrite H2, Hoff. simpl.
    repeat split; auto.
  - intros text p (H1 & H2 & H3). repeat split; auto. simpl.
    now apply forallb_snoc.
Qed.

Lemma no_echo_run tr po (n : nat) :
  echoTokens po = false ->
  forall f, keeps (writes_only is_emit tr po) (run n f).
Proof.
  intros Hoff. induction n as [|n IH]; intros f.
  - intros p Hp. unfold kept. simpl. split; auto. discriminate.
  - change (run (S n) f) with (fun p => body (run n) f p).
    intros p Hp. apply (no_echo_body tr po (run n) Hoff IH f p Hp).
Qed.

Lemma prod_master_off (r : Rule) (text : string) (p : Parser.t) :
  master (trace_ p) = false -> prod r text p = (p, Done).
Proof. intros H. unfold prod. now rewrite H. Qed.

Lemma keeps_direct (J : Parser.t -> Prop) (m : M) :
  (forall p, J p -> m p = (p, Done)) -> keeps J m.
Proof.
  intros H p Hp. unfold kept. rewrite (H p Hp). simpl. split; auto. discriminate.
Qed.

Ltac no_emit_step Hoff H :=
  lazymatch goal with
  | |- keeps _ (prod _ _) =>
      apply keeps_direct; intros ? (?Ht & _ & _);
      apply prod_master_off; rewrite Ht; exact Hoff
  | |- keeps _ _ =>
      keeps_step
        ltac:(first [ apply writes_only_advance
                    | intros ? (? & ? & ?); unfold echoToken, ret, write;
                      repeat match goal with
                             | |- context [if ?b then _ else _] => destruct b
                             end;
                      repeat split; auto; simpl; now apply forallb_snoc ])
        ltac:(fail) H
  end.

Lemma no_emit_body tr po (call : Proc -> M) :
  master tr = false ->
  (forall f, keeps (writes_only is_echo tr po) (call f)) ->
  forall f, keeps (writes_only is_echo tr po) (body call f).
Proof.
  intros Hoff H f.
  destruct f;
    try (unfold_procedures; repeat no_emit_step Hoff H; fail).
  cbv [body parseRelop]. intros p Hp.
  apply kept_cond; intros _.
  - apply (fun K : keeps (writes_only is_echo tr po) _ => K p Hp).
    apply keeps_bind; [|repeat no_emit_step Hoff H].
    intros q Hq. apply kept_cond; intros E.
    + unfold relop_traced in E. destruct Hq as (Ht & _).
      rewrite Ht, Hoff in E. discriminate.
    + now apply keeps_ret.
  - apply (fun K : keeps (writes_only is_echo tr po) _ => K p Hp).
    repeat no_emit_step Hoff H.
Qed.

Lemma no_emit_run tr po (n : nat) :
  master tr = false ->
  forall f, keeps (writes_only is_echo tr po) (run n f).
Proof.
  intros Hoff. induction n as [|n IH]; intros f.
  - intros p Hp. unfold kept. simpl. split; auto. discriminate.
  - change (run (S n) f) with (fun p => body (run n) f p).
    intros p Hp. apply (no_emit_body tr po (run n) Hoff IH f p Hp).
Qed.

Lemma parser_at_writes_only ok (src : string) tr po :
  writes_only ok tr po (parser_at src tr po).
Proof.
  unfold parser_at, Parser.init, advance. simpl.
  destruct (Lexer.nextToken (Lexer.init src)). repeat split; auto.
Qed.

(** X9.  Output that is switched off stays off, whatever the source text:
    with the token echo off a parse writes trace lines only, with the trace
    master switch off it writes echo lines only (the hand-written trace line
    of [parseRelop] included), and no procedure ever changes the trace
    configuration or the policy. *)
Theorem switched_off_output_is_not_written
  (src : string) (tr : TraceConfig) (po : ParserPolicy)
  (n : nat) (start : StartSymbol) :
  let p := fst (parse n start (parser_at src tr po)) in
  trace_ p = tr /\ policy_ p = po /\
  (echoTokens po = false -> forallb is_emit (out p) = true) /\
  (master tr = false -> forallb is_echo (out p) = true) /\
  (echoTokens po = false -> master tr = false -> out p = []).
Proof.
  cbv zeta.
  assert (Hecho : echoTokens po = false ->
                  writes_only is_emit tr po (fst (parse n start (parser_at src tr po)))).
  { intros Hoff. destruct start;
      apply (no_echo_run tr po n Hoff), parser_at_writes_only. }
  assert (Hemit : master tr = false ->
                  writes_only is_echo tr po (fst (parse n start (parser_at src tr po)))).
  { intros Hoff. destruct start;
      apply (no_emit_run tr po n Hoff), parser_at_writes_only. }
  assert (Hcfg : writes_only (fun _ => true) tr po
                   (fst (parse n start (parser_at src tr po)))).
  { assert (K : forall f, keeps (writes_only (fun _ => true) tr po) (run n f)).
    { intros f. apply keeps_run.
      - apply writes_only_advance.
      - intros p (H1 & H2 & H3). unfold echoToken, ret, write.
        repeat match goal with |- context [if ?b then _ else _] => destruct b end;
          repeat split; auto; simpl; now apply forallb_snoc.
      - intros text p (H1 & H2 & H3). repeat split; auto. simpl.
        now apply forallb_snoc. }
    destruct start; apply K, parser_at_writes_only. }
  destruct Hcfg as (H1 & H2 & _).
  split; [exact H1|]. split; [exact H2|]. split; [|split].
  - intros Hoff. now destruct (Hecho Hoff) as (_ & _ & H).
  - intros Hoff. now destruct (Hemit Hoff) as (_ & _ & H).
  - intros Ho1 Ho2. destruct (Hecho Ho1) as (_ & _ & Ha).
    destruct (Hemit Ho2) as (_ & _ & Hb).
    destruct (out (fst (parse n start (parser_at src tr po)))) as [|o os]; auto.
    simpl in Ha, Hb. unfold is_emit in Ha. destruct (is_echo o); discriminate.
Qed.

(* ================================================================== *)
(** * The parser: where a statement list stops *)

Lemma bind_done_inv (m k : M) (p p' : Parser.t) :
  (m ;; k) p = (p', Done) -> exists q, m p = (q, Done) /\ k q = (p', Done).
Proof.
  unfold bind. destruct (m p) as [q [| what |]]; intros H;
    [eauto | discriminate | discriminate].
Qed.

Lemma prod_same_token (r : Rule) (text : string) (p q : Parser.t) (res : Result) :
  prod r text p = (q, res) ->
  tok_ q = tok_ p /\ policy_ q = policy_ p /\ lex_ q = lex_ p.
Proof.
  rewrite prod_spec. destruct (shown r text (trace_ p));
    intros H; inversion H; subst; auto.
Qed.

Lemma can_start_same_token (p q : Parser.t) :
  tok_ q = tok_ p -> policy_ q = policy_ p ->
  can_start_statement q = can_start_statement p /\
  tokIs String_ q = tokIs String_ p.
Proof.
  intros Ht Hp.
  unfold can_start_statement, por, isSep, pand, isKw, tokIs, lexemeIs.
  now rewrite Ht, Hp.
Qed.

Lemma closing_token_starts_nothing (p : Parser.t) :
  (tokIs EndOfFile ||| isSep "}") p = true -> can_start_statement p = false.
Proof.
  unfold can_start_statement, por, isSep, pand, isKw, tokIs, lexemeIs.
  destruct (type (tok_ p)); simpl; try discriminate.
  - intros H. rewrite ?orb_false_r in H.
    apply String.eqb_eq in H. rewrite H.
    now destruct (lenientKeywords (policy_ p)).
  - intros _. now destruct (lenientKeywords (policy_ p)).
Qed.

Lemma skipBannerStrings_stops (n : nat) :
  forall (p p' : Parser.t) (r : Result),
    run n P_skipBannerStrings p = (p', r) -> r <> OutOfFuel ->
    r = Done /\ tokIs String_ p' = false /\ out p' = out p /\
    trace_ p' = trace_ p /\ policy_ p' = policy_ p.
Proof.
  induction n as [|n IH]; intros p p' r H Hr.
  - simpl in H. inversion H; subst. contradiction.
  - change (run (S n) P_skipBannerStrings p)
      with (skipBannerStrings (run n) p) in H.
    unfold skipBannerStrings, cond in H.
    destruct (tokIs String_ p) eqn:E.
    + unfold bind, advance in H.
      destruct (Lexer.nextToken (lex_ p)) as [tk l].
      apply IH in H; auto.
    + inversion H; subst. auto.
Qed.

Lemma statement_list_prime_stops (n : nat) :
  forall p p' : Parser.t,
    run n P_StatementListPrime p = (p', Done) ->
    tokIs String_ p' = false /\ can_start_statement p' = false.
Proof.
  induction n as [|n IH]; intros p p' H; [discriminate|].
  change (run (S n) P_StatementListPrime p)
    with (parseStatementListPrime (run n) p) in H.
  unfold parseStatementListPrime in H.
  apply bind_done_inv in H as (q & Hskip & H).
  apply skipBannerStrings_stops in Hskip as (_ & Hq & _); [|discriminate].
  unfold cond in H.
  destruct ((tokIs EndOfFile ||| isSep "}") q) eqn:Ec.
  - apply prod_same_token in H as (Ht & Hp & _).
    destruct (can_start_same_token q p' Ht Hp) as [-> ->].
    split; auto. now apply closing_token_starts_nothing.
  - destruct (can_start_statement q) eqn:Es.
    + apply bind_done_inv in H as (q1 & _ & H).
      apply bind_done_inv in H as (q2 & _ & H). now apply IH in H.
    + apply prod_same_token in H as (Ht & Hp & _).
      destruct (can_start_same_token q p' Ht Hp) as [-> ->]. auto.
Qed.

Lemma statement_list_stops (n : nat) (p p' : Parser.t) :
  run n P_StatementList p = (p', Done) ->
  tokIs String_ p' = false /\ can_start_statement p' = false.
Proof.
  destruct n as [|n]; [discriminate|]. intros H.
  change (run (S n) P_StatementList p) with (parseStatementList (run n) p) in H.
  unfold parseStatementList in H.
  apply bind_done_inv in H as (q & Hskip & H).
  apply skipBannerStrings_stops in Hskip as (_ & Hq & _); [|discriminate].
  unfold cond in H.
  destruct ((tokIs EndOfFile ||| isSep "}") q) eqn:Ec.
  - apply prod_same_token in H as (Ht & Hp & _).
    destruct (can_start_same_token q p' Ht Hp) as [-> ->].
    split; auto. now apply closing_token_starts_nothing.
  - destruct (can_start_statement q) eqn:Es.
    + apply bind_done_inv in H as (q1 & _ & H).
      apply bind_done_inv in H as (q2 & _ & H).
      now apply statement_list_prime_stops in H.
    + apply prod_same_token in H as (Ht & Hp & _).
      destruct (can_start_same_token q p' Ht Hp) as [-> ->]. auto.
Qed.

(** X10.  Where parsing stops.  When [parseStatementList],
    [parseStatementListPrime] or the whole [parse(Program)] returns
    normally, the token the parser is left with is not a string literal and
    can start no statement.  Nothing requires it to be the end of the
    input: what follows is left unread. *)
Theorem parse_stops_at_a_non_starter (n : nat) (p p' : Parser.t) :
  run n P_StatementList p = (p', Done) \/
  run n P_StatementListPrime p = (p', Done) \/
  parse n Program p = (p', Done) ->
  tokIs String_ p' = false /\ can_start_statement p' = false.
Proof.
  intros [H|[H|H]].
  - now apply statement_list_stops in H.
  - now apply statement_list_prime_stops in H.
  - simpl in H. destruct n as [|n]; [discriminate|].
    change (run (S n) P_Rat25F p) with (parseRat25F (run n) p) in H.
    unfold parseRat25F in H.
    repeat (apply bind_done_inv in H as (? & _ & H)).
    now apply statement_list_stops in H.
Qed.

Lemma parse_stops_at_a_non_starter_witness :
  parse 40 Program (parser_at "x = 1; ) y = 2;" quiet main_policy) =
    (fst (parse 40 Program (parser_at "x = 1; ) y = 2;" quiet main_policy)), Done) /\
  lexeme (tok_ (fst (parse 40 Program (parser_at "x = 1; ) y = 2;" quiet main_policy))))
    = ")" /\
  can_start_statement
    (fst (parse 40 Program (parser_at "x = 1; ) y = 2;" quiet main_policy))) = false.
Proof.
  assert (H : parse 40 Program (parser_at "x = 1; ) y = 2;" quiet main_policy) =
    (fst (parse 40 Program (parser_at "x = 1; ) y = 2;" quiet main_policy)), Done))
    by (vm_compute; reflexivity).
  split; [exact H|]. split; [vm_compute; reflexivity|].
  apply (parse_stops_at_a_non_starter 40
           (parser_at "x = 1; ) y = 2;" quiet main_policy)
           (fst (parse 40 Program (parser_at "x = 1; ) y = 2;" quiet main_policy)))).
  right. right. exact H.
Defined.

(* ================================================================== *)
(** * The parser: every call ends within a bounded depth *)

Lemma end_token_at_end (l : Lexer.t) :
  type (fst (Lexer.nextToken l)) = EndOfFile ->
  Lexer.eof (snd (Lexer.nextToken l)) = true.
Proof.
  rewrite nextToken_dispatch. cbv zeta.
  destruct (Lexer.eof (Lexer.skipSpace l)) eqn:E; [intros _; exact E|].
  unfold Lexer.scanString, Lexer.scanRealStartingWithDot,
    Lexer.scanIdentifierFSM, Lexer.scanNumberFSM, Lexer.scanOpOrSep,
    Lexer.token_here.
  repeat match goal with
         | |- context [if ?b then _ else _] => destruct b
         | |- context [let '(_, _) := ?x in _] => destruct x
         end; simpl; congruence.
Qed.

Lemma nextToken_stream_ok (l : Lexer.t) :
  stream_ok l -> stream_ok (snd (Lexer.nextToken l)).
Proof. intros H. now apply nextToken_reading_eq. Qed.

Lemma advance_ends (p : Parser.t) :
  sound p ->
  sound (fst (advance p)) /\
  tokens_left (fst (advance p)) <= tokens_left p /\
  (tokIs EndOfFile p = false -> tokens_left (fst (advance p)) < tokens_left p).
Proof.
  intros [Hok Heof]. unfold advance, sound, tokens_left, tokIs in *.
  pose proof (nextToken_stream_ok _ Hok) as Hok'.
  pose proof (end_token_at_end (lex_ p)) as He'.
  destruct (Lexer.eof (lex_ p)) eqn:E.
  - rewrite (nextToken_eof _ E) in *. simpl in *.
    apply view_nil_iff in E as Hv. rewrite Hv. simpl.
    repeat split; auto.
    + destruct (TokenType_eqb (type (tok_ p)) EndOfFile); lia.
    + intros ->. lia.
  - destruct (nextToken_progress _ Hok E) as [_ Hlt].
    destruct (Lexer.nextToken (lex_ p)) as [tk l]. simpl in *.
    repeat split; auto.
    + intros H. apply He'. now apply TokenType_eqb_eq.
    + destruct (TokenType_eqb (type (tok_ p)) EndOfFile) eqn:E2.
      * specialize (Heof eq_refl). congruence.
      * destruct (TokenType_eqb (type tk) EndOfFile); lia.
    + intros ->. destruct (TokenType_eqb (type tk) EndOfFile); lia.
Qed.

Lemma parser_at_sound (src : string) tr po :
  sound (parser_at src tr po) /\
  tokens_left (parser_at src tr po) <= String.length src.
Proof.
  destruct (init_view src) as [Hv Hok].
  unfold parser_at, Parser.init, advance, sound, tokens_left, tokIs. simpl.
  pose proof (nextToken_stream_ok _ Hok) as Hok'.
  pose proof (end_token_at_end (Lexer.init src)) as He'.
  destruct (Lexer.eof (Lexer.init src)) eqn:E.
  - rewrite (nextToken_eof _ E) in *. simpl.
    apply view_nil_iff in E as Hv'. rewrite Hv'. simpl. repeat split; auto. lia.
  - destruct (nextToken_progress _ Hok E) as [_ Hlt]. rewrite Hv in Hlt.
    destruct (Lexer.nextToken (Lexer.init src)) as [tk l]. simpl in *.
    repeat split; auto.
    + intros H. apply He'. now apply TokenType_eqb_eq.
    + destruct (TokenType_eqb (type tk) EndOfFile); lia.
Qed.

Lemma rank_bound (f : Proc) : rank f <= 4.
Proof. destruct f; simpl; lia. Qed.

Section EndsWithin.

Variable n : nat.
Variable call : Proc -> M.
Variable rk : nat.

Hypothesis call_ends :
  forall g p, sound p -> S (rank g + 5 * tokens_left p) <= n ->
              ends (call g) (strict g) p.

Local Abbreviation G := (ends_within n rk).

Lemma G_ret ne c : G ne c ret false.
Proof.
  intros p Hs _ _. unfold ends, ret. simpl.
  split; [discriminate|]. split; [exact Hs|]. split; [lia|]. discriminate.
Qed.

Lemma G_errorHere ne c msg : G ne c (errorHere msg) true.
Proof.
  intros p Hs _ _. unfold ends, errorHere. simpl.
  split; [discriminate|]. split; [exact Hs|]. split; [lia|]. discriminate.
Qed.

Lemma G_advance c : G true c advance true.
Proof.
  intros p Hs Hne _. destruct (advance_ends p Hs) as (H1 & H2 & H3).
  unfold ends. rewrite advance_done.
  split; [discriminate|]. split; [exact H1|]. split; [exact H2|]. auto.
Qed.

Lemma same_token_measure (p q : Parser.t) :
  tok_ q = tok_ p -> lex_ q = lex_ p ->
  tokens_left q = tokens_left p /\ (sound p -> sound q) /\
  tokIs EndOfFile q = tokIs EndOfFile p.
Proof.
  intros Ht Hl. unfold tokens_left, sound, tokIs. rewrite Ht, Hl. auto.
Qed.

Lemma G_output ne c m : writes_output_only m -> G ne c m false.
Proof.
  intros Hm p Hs _ _. destruct (Hm p) as (Hd & Ht & Hl).
  destruct (same_token_measure p _ Ht Hl) as (Hmu & Hso & _).
  unfold ends. rewrite Hd, Hmu.
  split; [discriminate|]. split; [auto|]. split; [lia|]. discriminate.
Qed.

Lemma allowed_same (c : bool) (p q : Parser.t) :
  tokens_left q <= tokens_left p -> allowed n rk c p -> allowed n rk c q.
Proof. unfold allowed. destruct c; nia. Qed.

Lemma allowed_after (c : bool) (p q : Parser.t) :
  tokens_left q < tokens_left p -> allowed n rk c p -> allowed n rk true q.
Proof. unfold allowed. destruct c; nia. Qed.

Lemma G_output_then ne c m k s :
  writes_output_only m -> G ne c k s -> G ne c (m ;; k) s.
Proof.
  intros Hm Hk p Hs Hne Ha. destruct (Hm p) as (Hd & Ht & Hl).
  destruct (same_token_measure p _ Ht Hl) as (Hmu & Hso & Heq).
  unfold ends, bind. destruct (m p) as [q r].
  cbn [fst snd] in Hd, Ht, Hl, Hmu, Hso, Heq. subst r.
  assert (Hq : ends k s q).
  { apply Hk; auto.
    - intros E. rewrite Heq. auto.
    - apply (allowed_same c p q); auto. lia. }
  unfold ends in Hq. rewrite <- Hmu. exact Hq.
Qed.

Lemma G_bind ne c m k s1 s2 :
  G ne c m s1 -> G false (c || s1) k s2 -> G ne c (m ;; k) (s1 || s2).
Proof.
  intros Hm Hk p Hs Hne Ha.
  destruct (Hm p Hs Hne Ha) as (H1 & H2 & H3 & H4).
  unfold ends, bind. destruct (m p) as [q r]. cbn [fst snd] in H1, H2, H3, H4.
  destruct r as [| what |]; [| | congruence].
  - assert (Hq : ends k s2 q).
    { apply Hk; auto; [discriminate|].
      destruct s1.
      - rewrite orb_true_r. apply (allowed_after c p q); auto.
      - rewrite orb_false_r. apply (allowed_same c p q); auto. }
    destruct Hq as (K1 & K2 & K3 & K4).
    split; [exact K1|]. split; [exact K2|]. split; [lia|].
    intros Hs12 Hd. apply orb_prop in Hs12 as [E|E].
    + specialize (H4 E eq_refl). lia.
    + specialize (K4 E Hd). lia.
  - cbn [fst snd]. split; [discriminate|]. split; [exact H2|].
    split; [exact H3|]. discriminate.
Qed.

Lemma G_cond ne c (b : Parser.t -> bool) m1 m2 s1 s2 :
  G ne c m1 s1 -> G ne c m2 s2 -> G ne c (cond b m1 m2) (s1 && s2).
Proof.
  intros H1 H2 p Hs Hne Ha. unfold ends, cond.
  destruct (b p);
    [destruct (H1 p Hs Hne Ha) as (K1 & K2 & K3 & K4)
    |destruct (H2 p Hs Hne Ha) as (K1 & K2 & K3 & K4)];
    (split; [exact K1|]; split; [exact K2|]; split; [exact K3|];
     intros E; apply andb_prop in E as [E1 E2]; auto).
Qed.

Lemma G_cond_guard ne c (b : Parser.t -> bool) m1 m2 s1 s2 :
  (forall p, b p = true -> tokIs EndOfFile p = false) ->
  G true c m1 s1 -> G ne c m2 s2 -> G ne c (cond b m1 m2) (s1 && s2).
Proof.
  intros Hb H1 H2 p Hs Hne Ha. unfold ends, cond.
  destruct (b p) eqn:E;
    [destruct (H1 p Hs (fun _ => Hb p E) Ha) as (K1 & K2 & K3 & K4)
    |destruct (H2 p Hs Hne Ha) as (K1 & K2 & K3 & K4)];
    (split; [exact K1|]; split; [exact K2|]; split; [exact K3|];
     intros E'; apply andb_prop in E' as [E1 E2]; auto).
Qed.

Lemma G_call_before ne g : rank g < rk -> G ne false (call g) (strict g).
Proof.
  intros Hr p Hs _ Ha. apply call_ends; auto. unfold allowed in Ha. lia.
Qed.

Lemma G_call_after ne g : G ne true (call g) (strict g).
Proof.
  intros p Hs _ Ha. apply call_ends; auto. unfold allowed in Ha.
  pose proof (rank_bound g). lia.
Qed.

End EndsWithin.

(** ** What only writes *)

Lemma write_only_ret : writes_output_only ret.
Proof. intros p. now cbv [ret fst snd]. Qed.

Lemma write_only_emit_of (text : Parser.t -> string) :
  writes_output_only (fun p => emit (text p) p).
Proof. intros p. now cbv [emit write fst snd tok_ lex_]. Qed.

Lemma write_only_emit (text : string) : writes_output_only (emit text).
Proof. apply (write_only_emit_of (fun _ => text)). Qed.

Lemma write_only_prod (r : Rule) (text : string) :
  writes_output_only (prod r text).
Proof.
  intros p. rewrite prod_spec. cbn [fst snd].
  now destruct (shown r text (trace_ p)).
Qed.

Lemma write_only_echoToken : writes_output_only echoToken.
Proof.
  intros p. unfold echoToken.
  destruct (negb (echoTokens (policy_ p))); [now cbv [ret fst snd]|].
  destruct (tokIs EndOfFile p); now cbv [ret write fst snd tok_ lex_].
Qed.

Lemma write_only_cond (b : Parser.t -> bool) (m1 m2 : M) :
  writes_output_only m1 -> writes_output_only m2 ->
  writes_output_only (cond b m1 m2).
Proof. intros H1 H2 p. unfold cond. destruct (b p); auto. Qed.

(** ** Tests that exclude the end of input *)

Lemma guards_tokIs (ty : TokenType) :
  TokenType_eqb ty EndOfFile = false -> guards (tokIs ty).
Proof.
  intros H p E. unfold tokIs in *. apply TokenType_eqb_eq in E.
  now rewrite E.
Qed.

Lemma guards_por (a b : Parser.t -> bool) :
  guards a -> guards b -> guards (a ||| b).
Proof. intros Ha Hb p E. apply orb_prop in E as [E|E]; auto. Qed.

Lemma guards_pand_l (a b : Parser.t -> bool) : guards a -> guards (a &&& b).
Proof. intros Ha p E. apply andb_prop in E as [E _]. auto. Qed.

Lemma guards_pand_r (a b : Parser.t -> bool) : guards b -> guards (a &&& b).
Proof. intros Hb p E. apply andb_prop in E as [_ E]. auto. Qed.

Lemma guards_isSep (s : string) : guards (isSep s).
Proof. apply guards_pand_l, guards_tokIs. reflexivity. Qed.

Lemma guards_isOp (s : string) : guards (isOp s).
Proof. apply guards_pand_l, guards_tokIs. reflexivity. Qed.

Lemma guards_isKw (s : string) : guards (isKw s).
Proof.
  intros p E. unfold isKw in E.
  destruct (negb (lenientKeywords (policy_ p))).
  - apply andb_prop in E as [E _]. revert E. now apply guards_tokIs.
  - destruct (tokIs Keyword p || tokIs Identifier p) eqn:E2; [|discriminate].
    apply orb_prop in E2 as [E2|E2]; revert E2; now apply guards_tokIs.
Qed.

Ltac guards_tac :=
  first [ apply guards_isKw | apply guards_isSep | apply guards_isOp
        | apply guards_tokIs; reflexivity
        | apply guards_por; guards_tac
        | apply guards_pand_r; guards_tac
        | apply guards_pand_l; guards_tac ].

Ltac write_only :=
  first [ apply write_only_prod | apply write_only_echoToken
        | apply write_only_ret | apply write_only_emit
        | apply write_only_emit_of
        | apply write_only_cond; write_only ].

Lemma ends_within_weaken n rk ne c m s s' :
  ends_within n rk ne c m s -> implb s' s = true ->
  ends_within n rk ne c m s'.
Proof.
  intros H Hi p Hs Hne Ha. destruct (H p Hs Hne Ha) as (K1 & K2 & K3 & K4).
  split; [exact K1|]. split; [exact K2|]. split; [exact K3|].
  intros E. subst s'. destruct s; [auto|discriminate].
Qed.

(** Walks the body of a procedure; [H] is what is known of the calls. *)
Ltac ends_step H :=
  lazymatch goal with
  | |- ends_within _ _ _ _ ret _ => apply G_ret
  | |- ends_within _ _ _ _ (errorHere _) _ => apply G_errorHere
  | |- ends_within _ _ _ _ advance _ => apply G_advance
  | |- ends_within _ _ _ _ (prod _ _) _ => apply G_output, write_only_prod
  | |- ends_within _ _ _ _ (bind _ _) _ =>
      first [ apply G_output_then; [solve [write_only] | ends_step H]
            | eapply G_bind; [ends_step H | cbn [orb andb strict]; ends_step H] ]
  | |- ends_within _ _ _ _ (cond _ _ _) _ =>
      first [ eapply G_cond_guard; [solve [guards_tac] | ends_step H | ends_step H]
            | eapply G_cond; [ends_step H | ends_step H] ]
  | |- ends_within _ _ _ true (_ _) _ => apply G_call_after; exact H
  | |- ends_within _ _ _ false (_ _) _ =>
      apply G_call_before; [exact H | simpl; lia]
  end.

Lemma body_ends (n : nat) (call : Proc -> M) :
  (forall g p, sound p -> S (rank g + 5 * tokens_left p) <= n ->
               ends (call g) (strict g) p) ->
  forall f, ends_within n (rank f) false false (body call f) (strict f).
Proof.
  intros H f.
  destruct f; unfold_procedures;
    (eapply ends_within_weaken; [ends_step H | reflexivity]).
Qed.

(** Every call ends within a budget of five nested calls per token left
    and the rank of the procedure. *)
Lemma run_ends (n : nat) :
  forall f p, sound p -> S (rank f + 5 * tokens_left p) <= n ->
              ends (run n f) (strict f) p.
Proof.
  induction n as [|n IH]; intros f p Hs Hn; [lia|].
  apply (body_ends n (run n) IH f p Hs); [discriminate|].
  unfold allowed. lia.
Qed.

(** X12. A grammar procedure never gives tokens back, and the procedures
    of the non-empty constructs (a function, a parameter, a declaration, a
    statement of any kind, a condition, an expression, a term, a factor, a
    primary, ...) consume at least one token whenever they return
    normally. *)
Theorem returning_procedure_consumes (n : nat) (f : Proc)
    (p p' : Parser.t) :
  sound p ->
  run n f p = (p', Done) ->
  sound p' /\
  tokens_left p' <= tokens_left p /\
  (strict f = true -> tokens_left p' < tokens_left p).
Proof.
  intros Hs Hr.
  pose (m := n + S (rank f + 5 * tokens_left p)).
  assert (Hm : run m f p = (p', Done)).
  { rewrite (run_more_fuel n m f p); [exact Hr|unfold m; lia|].
    rewrite Hr. discriminate. }
  destruct (run_ends m f p Hs) as (_ & K2 & K3 & K4); [unfold m; lia|].
  rewrite Hm in K2, K3, K4. cbn [fst snd] in K2, K3, K4. auto.
Qed.

Lemma returning_procedure_consumes_witness :
  sound (fst (run 20 P_Statement (parser_at "x = y + 1; z" quiet main_policy)))
  /\ tokens_left
       (fst (run 20 P_Statement (parser_at "x = y + 1; z" quiet main_policy)))
     <= tokens_left (parser_at "x = y + 1; z" quiet main_policy)
  /\ (strict P_Statement = true ->
      tokens_left
        (fst (run 20 P_Statement (parser_at "x = y + 1; z" quiet main_policy)))
      < tokens_left (parser_at "x = y + 1; z" quiet main_policy)).
Proof.
  apply (returning_procedure_consumes 20 P_Statement
           (parser_at "x = y + 1; z" quiet main_policy)).
  - apply parser_at_sound.
  - vm_compute. reflexivity.
Defined.

(* ================================================================== *)
(** * Keywords between scanner and parser *)

Lemma run_policy (n : nat) (f : Proc) (p : Parser.t) :
  policy_ (fst (run n f p)) = policy_ p.
Proof.
  apply (keeps_run (fun q => policy_ q = policy_ p)); auto.
  - intros q Hq. unfold advance.
    now destruct (Lexer.nextToken (lex_ q)).
  - intros q Hq. unfold echoToken, ret, write.
    repeat match goal with |- context [if ?b then _ else _] => destruct b end;
      auto.
Qed.

Lemma isKw_false_of_lexeme (s : string) (p : Parser.t) :
  lexeme (tok_ p) <> s -> isKw s p = false.
Proof.
  intros H. destruct (isKw s p) eqn:E; auto.
  apply isKw_true in E as [E _]. contradiction.
Qed.

Lemma strict_isKw_not_in_table (s : string) (p : Parser.t) (l : Lexer.t) :
  tok_ p = fst (Lexer.nextToken l) ->
  lenientKeywords (policy_ p) = false ->
  Lexer.isKeyword s = false -> isKw s p = false.
Proof.
  intros Htok Hlen Hs. destruct (isKw s p) eqn:E; auto.
  apply isKw_true in E as [E1 [E2|[E2 _]]]; [|congruence].
  rewrite Htok in E1, E2. pose proof (keyword_token l E2) as K.
  rewrite E1 in K. congruence.
Qed.

(** X13.  [function] is not in the scanner's keyword table, so with lenient
    keywords off no token the scanner returns passes [isKw("function")]:
    [parseFunction] always throws "'function' expected", and both
    [parseOptFunctionDefinitions] and [parseFunctionDefinitionsPrime] take
    their empty alternative once the banner strings are skipped.  A strict
    parser sees no function definition in any text. *)
Theorem function_needs_lenient_keywords (n : nat) (p : Parser.t) (l : Lexer.t) :
  tok_ p = fst (Lexer.nextToken l) ->
  lenientKeywords (policy_ p) = false ->
  Lexer.isKeyword "function" = false /\
  isKw "function" p = false /\
  snd (parseFunction (run n) p) =
    ParseError (error_text "'function' expected" (tok_ p)) /\
  (forall q, run n P_skipBannerStrings p = (q, Done) ->
     parseOptFunctionDefinitions (run n) p =
       prod OptFuncDefs "<Opt Function Definitions> -> ε" q /\
     parseFunctionDefinitionsPrime (run n) p =
       prod FuncDefsPrime "<Function Definitions Prime> -> ε" q).
Proof.
  intros Htok Hlen.
  assert (Hf : isKw "function" p = false)
    by (apply (strict_isKw_not_in_table _ p l); auto).
  split; [reflexivity|]. split; [exact Hf|]. split.
  - unfold parseFunction, bind at 1. rewrite prod_spec.
    set (p1 := if shown _ _ _ then _ else _).
    assert (H1 : tok_ p1 = tok_ p /\ policy_ p1 = policy_ p)
      by (unfold p1; destruct (shown _ _ _); auto).
    destruct H1 as [Ht Hp].
    assert (Hf1 : isKw "function" p1 = false).
    { unfold isKw, tokIs, lexemeIs in *. now rewrite Ht, Hp. }
    unfold bind at 1, expectKw, cond. rewrite Hf1.
    unfold errorHere. cbn [snd]. now rewrite Ht.
  - intros q Hq.
    assert (Hfq : isKw "function" q = false).
    { pose proof (run_from_scanner n P_skipBannerStrings p
                    (ex_intro _ l Htok)) as [l' Hl'].
      pose proof (run_policy n P_skipBannerStrings p) as Hp.
      rewrite Hq in Hl', Hp. cbn [fst] in Hl', Hp.
      apply (strict_isKw_not_in_table _ q l'); auto. congruence. }
    unfold parseOptFunctionDefinitions, parseFunctionDefinitionsPrime.
    unfold bind at 1 3. rewrite Hq. unfold cond. now rewrite Hfq.
Qed.

Lemma function_needs_lenient_keywords_witness :
  isKw "function" (parser_at "function f() { }" main_trace strict_policy)
  = false.
Proof.
  apply (function_needs_lenient_keywords 0
           (parser_at "function f() { }" main_trace strict_policy)
           (Lexer.init "function f() { }"));
    reflexivity.
Defined.

(** X14.  The scanner's keyword table is compared without regard to case,
    the parser's [isKw] with regard to it.  A keyword the scanner returned
    that is not written in lower case is still a word of the table once
    lowered, yet it passes no [isKw] test against a lower-case word --
    the parser makes no other --, so [parseStatement] answers it with
    "statement expected" and [parseQualifier] with its own error, under
    every policy. *)
Theorem keyword_case_mismatch (call : Proc -> M) (p : Parser.t) (l : Lexer.t) :
  tok_ p = fst (Lexer.nextToken l) ->
  type (tok_ p) = Keyword ->
  lexeme (tok_ p) <> transform_tolower (lexeme (tok_ p)) ->
  In (transform_tolower (lexeme (tok_ p))) Lexer.K /\
  (forall s, transform_tolower s = s -> isKw s p = false) /\
  parseStatement call p = errorHere "statement expected" p /\
  parseQualifier p =
    errorHere "qualifier (integer|boolean|real) expected" p.
Proof.
  intros Htok Hk Hne.
  assert (Hkw : forall s, transform_tolower s = s -> isKw s p = false).
  { intros s Hs. apply isKw_false_of_lexeme. congruence. }
  split; [|split; [exact Hkw|split]].
  - rewrite Htok in Hk. pose proof (keyword_token l Hk) as K.
    rewrite <- Htok in K. unfold Lexer.isKeyword in K.
    apply existsb_exists in K as (k & Hin & Hk').
    apply String.eqb_eq in Hk'. now rewrite Hk'.
  - unfold parseStatement, cond, isSep, pand, tokIs. rewrite Hk.
    cbn [TokenType_eqb andb].
    now rewrite !Hkw by reflexivity.
  - unfold parseQualifier, cond, por.
    now rewrite !Hkw by reflexivity.
Qed.

Lemma keyword_case_mismatch_witness :
  parseStatement (run 0) (parser_at "WHILE (i < 3) i = i + 1;" main_trace main_policy)
  = errorHere "statement expected"
      (parser_at "WHILE (i < 3) i = i + 1;" main_trace main_policy).
Proof.
  apply (keyword_case_mismatch (run 0)
           (parser_at "WHILE (i < 3) i = i + 1;" main_trace main_policy)
           (Lexer.init "WHILE (i < 3) i = i + 1;")).
  - reflexivity.
  - reflexivity.
  - vm_compute. discriminate.
Defined.

(* ================================================================== *)
(** * main.cpp: the loops of [main] *)

Lemma lor_zero (a b : N) : N.lor a b = 0%N <-> a = 0%N /\ b = 0%N.
Proof. apply N.lor_eq_0_iff. Qed.

Section MainFacts.

Variable World : Type.
Variable run_one :
  string -> string -> TraceConfig -> ParserPolicy -> World -> World * N.
Variable cerr : string -> World -> World.

Lemma run_jobs_code (announce : bool) (jobs : list (string * string)) :
  forall rc w,
    snd (run_jobs World run_one cerr announce jobs rc w) = 0%N <->
    rc = 0%N /\
    Forall (fun r => r = 0%N) (job_codes World run_one cerr announce jobs w).
Proof.
  induction jobs as [|[inP outP] rest IH]; intros rc w; simpl.
  - split; [auto|tauto].
  - destruct (run_one inP outP main_trace main_policy _) as [w2 r].
    rewrite IH, lor_zero. split.
    + intros [[H1 H2] H3]. auto.
    + intros [H1 H2]. inversion H2; subst. auto.
Qed.

Lemma pairs_length (args : list string) :
  Nat.even (List.length args) = true ->
  2 * List.length (pairs args) = List.length args.
Proof.
  revert args. fix IH 1. intros [|a [|b rest]]; simpl; try discriminate; auto.
  intros H. specialize (IH rest H). lia.
Qed.

Lemma job_codes_length (announce : bool) (jobs : list (string * string)) :
  forall w, List.length (job_codes World run_one cerr announce jobs w) =
            List.length jobs.
Proof.
  induction jobs as [|[inP outP] rest IH]; intros w; simpl; auto.
  destruct (run_one inP outP main_trace main_policy _) as [w2 r].
  simpl. now rewrite IH.
Qed.

End MainFacts.


(* ================================================================== *)
(** * C1: when a statement list is closed and when it goes on *)

(** C1, as the code has it.  Once the banner strings are skipped, leaving
    the lookahead [q], both statement-list procedures decide on [q] alone:
    - if [q] can start a statement, the list goes on: the procedure writes
      its [<Statement> <Statement List Prime>] line, parses a statement and
      then the rest of the list;
    - if [q] cannot start a statement, the list is closed by the epsilon
      production: the procedure returns normally, consumes nothing and
      writes at most the epsilon line.  End-of-input and '}' are such
      tokens, and every other token that starts no statement is treated
      alike: neither procedure raises a syntax error of its own. *)
Theorem statement_list_closes_exactly_at_non_starters
    (n : nat) (p q : Parser.t) :
  run (S n) P_skipBannerStrings p = (q, Done) ->
  tokIs String_ q = false /\
  ((tokIs EndOfFile ||| isSep "}") q = true -> can_start_statement q = false) /\
  (can_start_statement q = true ->
   run (S (S n)) P_StatementList p =
     (prod StatementList "<Statement List> -> <Statement> <Statement List Prime>" ;;
      run (S n) P_Statement ;;
      run (S n) P_StatementListPrime) q /\
   run (S (S n)) P_StatementListPrime p =
     (prod StatementListPrime
        "<Statement List Prime> -> <Statement> <Statement List Prime>" ;;
      run (S n) P_Statement ;;
      run (S n) P_StatementListPrime) q) /\
  (can_start_statement q = false ->
   run (S (S n)) P_StatementList p =
     (if shown StatementList "<Statement List> -> ε" (trace_ q)
      then wrote q [Emit "<Statement List> -> ε"] else q, Done) /\
   run (S (S n)) P_StatementListPrime p =
     (if shown StatementListPrime "<Statement List Prime> -> ε" (trace_ q)
      then wrote q [Emit "<Statement List Prime> -> ε"] else q, Done)).
Proof.
  intros Hq.
  assert (Hs : tokIs String_ q = false).
  { apply (skipBannerStrings_stops (S n) p q Done Hq). discriminate. }
  assert (Hclose : (tokIs EndOfFile ||| isSep "}") q = true ->
                   can_start_statement q = false).
  { intros H. now apply closing_token_starts_nothing. }
  assert (E1 : run (S (S n)) P_StatementList p =
               cond (tokIs EndOfFile ||| isSep "}")
                 (prod StatementList "<Statement List> -> ε")
                 (cond can_start_statement
                    (prod StatementList
                       "<Statement List> -> <Statement> <Statement List Prime>" ;;
                     run (S n) P_Statement ;;
                     run (S n) P_StatementListPrime)
                    (prod StatementList "<Statement List> -> ε")) q).
  { change (run (S (S n)) P_StatementList p)
      with (parseStatementList (run (S n)) p).
    unfold parseStatementList, bind at 1. now rewrite Hq. }
  assert (E2 : run (S (S n)) P_StatementListPrime p =
               cond (tokIs EndOfFile ||| isSep "}")
                 (prod StatementListPrime "<Statement List Prime> -> ε")
                 (cond can_start_statement
                    (prod StatementListPrime
                       "<Statement List Prime> -> <Statement> <Statement List Prime>" ;;
                     run (S n) P_Statement ;;
                     run (S n) P_StatementListPrime)
                    (prod StatementListPrime "<Statement List Prime> -> ε")) q).
  { change (run (S (S n)) P_StatementListPrime p)
      with (parseStatementListPrime (run (S n)) p).
    unfold parseStatementListPrime, bind at 1. now rewrite Hq. }
  split; [exact Hs|]. split; [exact Hclose|]. split.
  - intros Hc. rewrite E1, E2. unfold cond.
    destruct ((tokIs EndOfFile ||| isSep "}") q) eqn:E.
    + rewrite (Hclose eq_refl) in Hc. discriminate.
    + now rewrite Hc.
  - intros Hc. rewrite E1, E2. unfold cond. rewrite Hc.
    destruct ((tokIs EndOfFile ||| isSep "}") q); split; apply prod_spec.
Qed.

Lemma statement_list_closes_exactly_at_non_starters_witness :
  can_start_statement (parser_at "x = 1; ) y" show_all main_policy) = true /\
  run 2 P_StatementList (parser_at "x = 1; ) y" show_all main_policy) =
    (prod StatementList "<Statement List> -> <Statement> <Statement List Prime>" ;;
     run 1 P_Statement ;;
     run 1 P_StatementListPrime) (parser_at "x = 1; ) y" show_all main_policy).
Proof.
  split; [reflexivity|].
  apply (statement_list_closes_exactly_at_non_starters 0
           (parser_at "x = 1; ) y" show_all main_policy)
           (parser_at "x = 1; ) y" show_all main_policy));
    reflexivity.
Defined.

(* ================================================================== *)
(** * C3: a statement that begins with [if] *)





(* ================================================================== *)
(** * C8: a failed expect check *)

(** C8, as the code has it.  When an expect check fails, one [ParseError]
    is thrown; its text is "Syntax error: ", what was expected,
    " at line L, col C (near 'X')" with X the lexeme of the current token
    and L, C the line and column recorded in it; nothing is written and no
    token is consumed.  The error is fatal: the rest of any procedure the
    failing call is part of is skipped, and an error that [parse] ends
    with is always the one raised on the token the parser stopped at.
    L and C are not where the token starts.  They are the scanner's
    counters at the moment the token was returned, that is after the text
    [pre] that holds the token and the one character of lookahead behind
    it: L is one more than the number of line feeds in [pre], C the number
    of characters of [pre] behind its last line feed (both modulo 2^64). *)
Theorem expect_failure_is_fatal (e : Expect) (p : Parser.t) :
  expected e p = false ->
  let what :=
    "Syntax error: " ++ description e ++
    " at line " ++ to_string (line (tok_ p)) ++
    ", col " ++ to_string (col (tok_ p)) ++
    " (near '" ++ lexeme (tok_ p) ++ "')" in
  expect e p = (p, ParseError what) /\
  (forall k : M, (expect e ;; k) p = (p, ParseError what)) /\
  (forall (m k : M) (p0 p1 : Parser.t) (msg : string),
      m p0 = (p1, ParseError msg) -> (m ;; k) p0 = (p1, ParseError msg)) /\
  (forall (n : nat) (start : StartSymbol) (p0 p1 : Parser.t) (msg : string),
      parse n start p0 = (p1, ParseError msg) ->
      exists d, msg = error_text d (tok_ p1)) /\
  (forall (src : string) (k : nat),
      tok_ p = fst (Lexer.nextToken (snd (Lexer.nextTokens k (Lexer.init src)))) ->
      exists pre : string,
        src = pre ++ Lexer.input
                (snd (Lexer.nextToken (snd (Lexer.nextTokens k (Lexer.init src))))) /\
        line (tok_ p) = ((1 + count_newlines pre) mod size_max)%N /\
        col (tok_ p) = (chars_since_newline pre mod size_max)%N).
Proof.
  intros Hf what.
  assert (H1 : expect e p = (p, ParseError what)).
  { destruct e; simpl in *;
      unfold expectIdentifier, expectKw, expectOp, expectSep, cond;
      rewrite Hf; reflexivity. }
  split; [exact H1|]. split; [|split; [|split]].
  - intros k. now apply bind_error.
  - intros m k p0 p1 msg. apply bind_error.
  - intros n start p0 p1 msg. destruct start; apply run_error_text.
  - intros src k Htok.
    destruct (token_position (snd (Lexer.nextTokens k (Lexer.init src))))
      as [Hl Hc].
    assert (Ht : tracks src
              (snd (Lexer.nextToken (snd (Lexer.nextTokens k (Lexer.init src)))))).
    { apply (nextToken_closed (tracks src) (tracks_advance src)).
      apply (nextTokens_closed (tracks src) (tracks_advance src)).
      unfold Lexer.init. apply tracks_advance.
      exists "". unfold positioned. simpl. repeat split; reflexivity. }
    destruct Ht as (pre & Hsrc & Hline & Hcol). exists pre.
    rewrite Htok, Hl, Hc. auto.
Qed.

Lemma expect_failure_is_fatal_witness :
  expected (ExpectSep ";") (parser_at "integer x x = 1;" main_trace main_policy)
  = false /\
  expect (ExpectSep ";") (parser_at "integer x x = 1;" main_trace main_policy) =
    (parser_at "integer x x = 1;" main_trace main_policy,
     ParseError "Syntax error: separator ';' expected at line 1, col 8 (near 'integer')") /\
  exists pre : string,
    "integer x x = 1;" =
      pre ++ Lexer.input
               (snd (Lexer.nextToken
                       (snd (Lexer.nextTokens 0 (Lexer.init "integer x x = 1;"))))) /\
    line (tok_ (parser_at "integer x x = 1;" main_trace main_policy)) =
      ((1 + count_newlines pre) mod size_max)%N /\
    col (tok_ (parser_at "integer x x = 1;" main_trace main_policy)) =
      (chars_since_newline pre mod size_max)%N.
Proof.
  pose proof (expect_failure_is_fatal (ExpectSep ";")
                (parser_at "integer x x = 1;" main_trace main_policy) eq_refl)
    as H.
  cbv zeta in H. destruct H as (H1 & _ & _ & _ & H5).
  split; [reflexivity|]. split; [exact H1|].
  apply (H5 "integer x x = 1;" 0). reflexivity.
Defined.

(** The text is "x", a line feed, "y".  The first token, "x", starts at
    line 1, column 1, the first character of the text.  The token records
    line 2, column 0, where the scanner stood once it had read the line
    feed as lookahead, and that is what the failed check reports. *)
Lemma error_position_is_behind_the_token :
  kind_lexeme (tok_ (parser_at x_newline_y main_trace main_policy)) =
    (Identifier, "x") /\
  x_newline_y = "" ++ lexeme (tok_ (parser_at x_newline_y main_trace main_policy))
                   ++ String newline "y" /\
  start_of "" = (1%N, 1%N) /\
  (line (tok_ (parser_at x_newline_y main_trace main_policy)),
   col (tok_ (parser_at x_newline_y main_trace main_policy))) = (2%N, 0%N) /\
  expected (ExpectSep ";") (parser_at x_newline_y main_trace main_policy) = false /\
  snd (expect (ExpectSep ";") (parser_at x_newline_y main_trace main_policy)) =
    ParseError "Syntax error: separator ';' expected at line 2, col 0 (near 'x')".
Proof. vm_compute. repeat split; reflexivity. Qed.

(* ================================================================== *)
(** * C4: the token echo *)

Lemma echoed_app (a b : list OutLine) : echoed (a ++ b) = (echoed a ++ echoed b)%list.
Proof.
  induction a as [|[k lex|text] a IH]; simpl; auto. now rewrite IH.
Qed.

Lemma nextTokens_snoc (k : nat) :
  forall l : Lexer.t,
    Lexer.nextTokens (S k) l =
    ((fst (Lexer.nextTokens k l) ++
      [fst (Lexer.nextToken (snd (Lexer.nextTokens k l)))])%list,
     snd (Lexer.nextToken (snd (Lexer.nextTokens k l)))).
Proof.
  induction k as [|k IH]; intros l.
  - simpl. now destruct (Lexer.nextToken l).
  - change (Lexer.nextTokens (S (S k)) l)
      with (let '(tk, l1) := Lexer.nextToken l in
            let '(tks, l2) := Lexer.nextTokens (S k) l1 in (tk :: tks, l2)).
    change (Lexer.nextTokens (S k) l)
      with (let '(tk, l1) := Lexer.nextToken l in
            let '(tks, l2) := Lexer.nextTokens k l1 in (tk :: tks, l2)).
    destruct (Lexer.nextToken l) as [tk l1]. rewrite (IH l1).
    destruct (Lexer.nextTokens k l1) as [tks l2]. reflexivity.
Qed.

Lemma follows_echo_take (src : string) (p : Parser.t) (lines : list OutLine) :
  follows_echo src p ->
  not_end (tok_ p) = true ->
  (echoed lines = [kind_lexeme (tok_ p)] \/
   (echoed lines = [] /\ type (tok_ p) = String_)) ->
  follows_echo src
    (Parser.mk (snd (Lexer.nextToken (lex_ p))) (fst (Lexer.nextToken (lex_ p)))
       (trace_ p) (policy_ p) (out p ++ lines)).
Proof.
  intros [Hpol (k & Ht & Hl & Hne & Hap)] Hnot Hlines.
  split; [exact Hpol|]. exists (S k). rewrite nextTokens_snoc.
  cbn [fst snd tok_ lex_ out]. rewrite <- Ht, <- Hl.
  split; [reflexivity|]. split; [reflexivity|]. split.
  - rewrite forallb_app, Hne. simpl. now rewrite Hnot.
  - rewrite echoed_app. destruct Hlines as [->|[-> Hs]].
    + now constructor.
    + rewrite app_nil_r. now constructor.
Qed.

Lemma follows_echo_same (src : string) (p q : Parser.t) :
  tok_ q = tok_ p -> lex_ q = lex_ p -> policy_ q = policy_ p ->
  echoed (out q) = echoed (out p) ->
  follows_echo src p -> follows_echo src q.
Proof.
  intros Ht Hl Hp Ho. unfold follows_echo. now rewrite Ht, Hl, Hp, Ho.
Qed.

Section EchoKept.

Variable src : string.
Variable call : Proc -> M.

Hypothesis call_kept : forall g, echo_kept src any_token (call g).

Lemma E_ret C : echo_kept src C ret.
Proof. intros p Hp _. exact Hp. Qed.

Lemma E_errorHere C msg : echo_kept src C (errorHere msg).
Proof. intros p Hp _. exact Hp. Qed.

Lemma E_silent C m : silent m -> echo_kept src C m.
Proof.
  intros Hm p Hp _. destruct (Hm p) as (H1 & H2 & H3 & H4).
  now apply (follows_echo_same src p).
Qed.

Lemma E_silent_then C m k :
  silent m -> echo_kept src C k -> echo_kept src C (m ;; k).
Proof.
  intros Hm Hk p Hp HC. destruct (Hm p) as (H1 & H2 & H3 & H4).
  assert (Hq : follows_echo src (fst (m p)))
    by now apply (follows_echo_same src p).
  unfold bind. destruct (m p) as [q [| what |]]; cbn [fst] in *; auto.
  apply Hk; auto. now rewrite H1.
Qed.

Lemma E_bind C m k :
  echo_kept src C m -> echo_kept src any_token k -> echo_kept src C (m ;; k).
Proof.
  intros Hm Hk p Hp HC. specialize (Hm p Hp HC).
  unfold bind. destruct (m p) as [q [| what |]]; cbn [fst] in *; auto.
Qed.

Lemma echo_advance_step (p : Parser.t) :
  follows_echo src p -> not_end (tok_ p) = true ->
  (echoToken ;; advance) p =
    (fst ((echoToken ;; advance) p), Done) /\
  follows_echo src (fst ((echoToken ;; advance) p)).
Proof.
  intros Hp Hne. pose proof Hp as [Hpol _].
  unfold bind, echoToken, tokIs. rewrite Hpol.
  unfold not_end in Hne. apply negb_true_iff in Hne. rewrite Hne.
  cbn [negb]. unfold write, advance. cbn [lex_ tok_ trace_ policy_ out].
  destruct (Lexer.nextToken (lex_ p)) as [tk l] eqn:E. cbn [fst snd].
  split; [reflexivity|].
  pose proof (follows_echo_take src p
                [Echo (type (tok_ p)) (lexeme (tok_ p))] Hp) as H.
  rewrite E in H. cbn [fst snd] in H. apply H.
  - unfold not_end. now rewrite Hne.
  - left. reflexivity.
Qed.

Lemma E_echo_advance : echo_kept src not_end (echoToken ;; advance).
Proof. intros p Hp Hne. now apply echo_advance_step. Qed.

Lemma E_echo_advance_then k :
  echo_kept src any_token k ->
  echo_kept src not_end (echoToken ;; advance ;; k).
Proof.
  intros Hk p Hp Hne. destruct (echo_advance_step p Hp Hne) as [E H].
  assert (Eq : (echoToken ;; advance ;; k) p =
               k (fst ((echoToken ;; advance) p))).
  { revert E. unfold bind. destruct (echoToken p) as [p1 [| w |]]; cbn [fst];
      try (intros; discriminate).
    destruct (advance p1) as [p2 [| w |]]; cbn [fst]; intros E;
      try discriminate; reflexivity. }
  rewrite Eq. now apply Hk.
Qed.

Lemma E_advance_then k :
  echo_kept src any_token k -> echo_kept src is_string (advance ;; k).
Proof.
  intros Hk p Hp Hs. unfold bind, advance.
  destruct (Lexer.nextToken (lex_ p)) as [tk l] eqn:E.
  apply Hk; [|reflexivity].
  unfold is_string in Hs. apply TokenType_eqb_eq in Hs.
  pose proof (follows_echo_take src p [] Hp) as H.
  rewrite E, app_nil_r in H. cbn [fst snd] in H. apply H.
  - unfold not_end. now rewrite Hs.
  - right. auto.
Qed.

Lemma E_cond C (b : Parser.t -> bool) m1 m2 :
  echo_kept src C m1 -> echo_kept src C m2 -> echo_kept src C (cond b m1 m2).
Proof. intros H1 H2 p Hp HC. unfold cond. destruct (b p); auto. Qed.

Lemma E_cond_guard C (b : Parser.t -> bool) m1 m2 :
  guards b ->
  echo_kept src not_end m1 -> echo_kept src C m2 ->
  echo_kept src C (cond b m1 m2).
Proof.
  intros Hb H1 H2 p Hp HC. unfold cond. destruct (b p) eqn:E; auto.
  apply H1; auto. unfold not_end. apply Hb in E. unfold tokIs in E.
  now rewrite E.
Qed.

Lemma E_cond_string C m1 m2 :
  echo_kept src is_string m1 -> echo_kept src C m2 ->
  echo_kept src C (cond (tokIs String_) m1 m2).
Proof.
  intros H1 H2 p Hp HC. unfold cond. destruct (tokIs String_ p) eqn:E; auto.
Qed.

Lemma E_call C g : echo_kept src C (call g).
Proof. intros p Hp _. now apply call_kept. Qed.

End EchoKept.

Lemma silent_ret : silent ret.
Proof. intros p. now cbv [ret fst]. Qed.

Lemma silent_emit_of (text : Parser.t -> string) :
  silent (fun p => emit (text p) p).
Proof.
  intros p. cbv [emit write fst tok_ lex_ policy_ out].
  repeat split; auto. rewrite echoed_app. simpl. apply app_nil_r.
Qed.

Lemma silent_prod (r : Rule) (text : string) : silent (prod r text).
Proof.
  intros p. rewrite prod_spec. cbn [fst].
  destruct (shown r text (trace_ p)); [|now repeat split].
  unfold wrote. cbn [tok_ lex_ policy_ out]. repeat split; auto.
  rewrite echoed_app. simpl. apply app_nil_r.
Qed.

Lemma silent_cond (b : Parser.t -> bool) (m1 m2 : M) :
  silent m1 -> silent m2 -> silent (cond b m1 m2).
Proof. intros H1 H2 p. unfold cond. destruct (b p); auto. Qed.

Ltac silent_tac :=
  first [ apply silent_prod | apply silent_ret | apply silent_emit_of
        | apply silent_cond; silent_tac ].

(** Walks the body of a procedure; [H] is what is known of the calls. *)
Ltac echo_step H :=
  lazymatch goal with
  | |- echo_kept _ _ ret => apply E_ret
  | |- echo_kept _ _ (errorHere _) => apply E_errorHere
  | |- echo_kept _ _ (prod _ _) => apply E_silent, silent_prod
  | |- echo_kept _ _ (bind echoToken advance) => apply E_echo_advance
  | |- echo_kept _ _ (bind echoToken (bind advance _)) =>
      apply E_echo_advance_then; echo_step H
  | |- echo_kept _ _ (bind advance _) => apply E_advance_then; echo_step H
  | |- echo_kept _ _ (bind _ _) =>
      first [ apply E_silent_then; [solve [silent_tac] | echo_step H]
            | apply E_bind; [echo_step H | echo_step H] ]
  | |- echo_kept _ _ (cond _ _ _) =>
      first [ apply E_cond_string; [echo_step H | echo_step H]
            | apply E_cond_guard; [solve [guards_tac] | echo_step H | echo_step H]
            | apply E_cond; [echo_step H | echo_step H] ]
  | |- echo_kept _ _ (_ _) => apply E_call; exact H
  end.

Lemma echo_kept_body (src : string) (call : Proc -> M) :
  (forall g, echo_kept src any_token (call g)) ->
  forall f, echo_kept src any_token (body call f).
Proof.
  intros H f. destruct f; unfold_procedures; echo_step H.
Qed.

Lemma echo_kept_run (src : string) (n : nat) :
  forall f, echo_kept src any_token (run n f).
Proof.
  induction n as [|n IH]; intros f.
  - intros p Hp _. exact Hp.
  - intros p Hp HC. apply (echo_kept_body src (run n) IH f p Hp HC).
Qed.

(** ** The tokens consumed are the first tokens of the text *)

Lemma not_end_type (tk : Token) : not_end tk = true <-> type tk <> EndOfFile.
Proof.
  unfold not_end. rewrite negb_true_iff. apply TokenType_eqb_neq.
Qed.

Lemma nextTokens_cons (k : nat) (l : Lexer.t) :
  Lexer.nextTokens (S k) l =
  (fst (Lexer.nextToken l) :: fst (Lexer.nextTokens k (snd (Lexer.nextToken l))),
   snd (Lexer.nextTokens k (snd (Lexer.nextToken l)))).
Proof.
  simpl. destruct (Lexer.nextToken l) as [tk l1]. simpl.
  now destruct (Lexer.nextTokens k l1).
Qed.

Lemma drain_cons (n : nat) (l : Lexer.t) :
  type (fst (Lexer.nextToken l)) <> EndOfFile ->
  drain (S n) l = fst (Lexer.nextToken l) :: drain n (snd (Lexer.nextToken l)).
Proof.
  intros H. simpl. destruct (Lexer.nextToken l) as [tk l1]. simpl in *.
  apply TokenType_eqb_neq in H. now rewrite H.
Qed.

Lemma drain_end (n : nat) (l : Lexer.t) :
  type (fst (Lexer.nextToken l)) = EndOfFile -> drain n l = [].
Proof.
  intros H. destruct n as [|n]; simpl; auto.
  destruct (Lexer.nextToken l) as [tk l1]. simpl in *.
  apply TokenType_eqb_eq in H. now rewrite H.
Qed.

(** Tokens other than the end-of-input token take at least a character
    each. *)
Lemma consumed_bound (k : nat) :
  forall l : Lexer.t,
    stream_ok l ->
    forallb not_end (fst (Lexer.nextTokens k l)) = true ->
    k <= String.length (view l).
Proof.
  induction k as [|k IH]; intros l Hok H; [lia|].
  rewrite nextTokens_cons in H. cbn [fst forallb] in H.
  apply andb_prop in H as [H1 H2]. apply not_end_type in H1.
  destruct (Lexer.eof l) eqn:E.
  - rewrite (nextToken_eof l E) in H1. simpl in H1. congruence.
  - destruct (nextToken_progress l Hok E) as [Hok' Hlt].
    specialize (IH _ Hok' H2). lia.
Qed.

Lemma consumed_prefix (k : nat) :
  forall (n : nat) (l : Lexer.t),
    k <= n ->
    forallb not_end (fst (Lexer.nextTokens k l)) = true ->
    firstn k (drain n l) = fst (Lexer.nextTokens k l) /\
    k <= List.length (drain n l) /\
    (type (fst (Lexer.nextToken (snd (Lexer.nextTokens k l)))) = EndOfFile ->
     drain n l = fst (Lexer.nextTokens k l)) /\
    (k < List.length (drain n l) ->
     forall d, nth k (drain n l) d =
               fst (Lexer.nextToken (snd (Lexer.nextTokens k l)))).
Proof.
  induction k as [|k IH]; intros n l Hle H.
  - simpl. split; [reflexivity|]. split; [lia|]. split.
    + intros He. now apply drain_end.
    + intros Hlt d. destruct n as [|n]; [simpl in Hlt; lia|].
      destruct (TokenType_eqb (type (fst (Lexer.nextToken l))) EndOfFile) eqn:E.
      * apply TokenType_eqb_eq in E. rewrite (drain_end _ _ E) in Hlt.
        simpl in Hlt. lia.
      * apply TokenType_eqb_neq in E. now rewrite (drain_cons _ _ E).
  - destruct n as [|n]; [lia|].
    rewrite nextTokens_cons in *. cbn [fst snd forallb] in *.
    apply andb_prop in H as [H1 H2]. apply not_end_type in H1.
    rewrite (drain_cons _ _ H1).
    destruct (IH n (snd (Lexer.nextToken l)) ltac:(lia) H2) as (A & B & C & D).
    cbn [firstn List.length nth]. rewrite A.
    split; [reflexivity|]. split; [lia|]. split.
    + intros He. now rewrite (C He).
    + intros Hlt d. apply D. lia.
Qed.

Lemma strings_apart_filter (tks : list Token) (es : list (TokenType * string)) :
  strings_apart tks es ->
  filter not_string es = filter not_string (map kind_lexeme tks).
Proof.
  induction 1 as [|tks es tk H IH|tks es tk Hs H IH]; auto.
  - now rewrite map_app, !filter_app, IH.
  - rewrite map_app, filter_app, <- IH. simpl.
    unfold not_string, kind_lexeme. simpl. rewrite Hs. simpl.
    now rewrite app_nil_r.
Qed.

Lemma in_echoed (o : list OutLine) (kd : TokenType) (lex : string) :
  In (kd, lex) (echoed o) -> In (Echo kd lex) o.
Proof.
  induction o as [|[k x|text] o IH]; simpl; auto.
  intros [H|H]; [left; now inversion H|right; auto].
Qed.

Lemma follows_echo_init (src : string) (tr : TraceConfig) (po : ParserPolicy) :
  echoTokens po = true -> follows_echo src (parser_at src tr po).
Proof.
  intros H. unfold parser_at, Parser.init, advance.
  cbn [lex_ tok_ trace_ policy_ out].
  destruct (Lexer.nextToken (Lexer.init src)) as [tk l] eqn:E. cbn [fst].
  split; [exact H|]. exists 0. cbn [Lexer.nextTokens fst snd tok_ lex_ out].
  rewrite E. repeat split. constructor.
Qed.

(** C4, as the code has it.  Token echo on, a parse over [src], whether or
    not it succeeds.  The echo lines are, in order, the tokens the parser
    consumed, which are the first tokens of the text: each line shows the
    kind and lexeme of one of them, none is repeated or out of place, and
    only string literals can be missing (banner strings are consumed
    without echo).  The token the parser stopped at is the next one of the
    text; if it is the end-of-input token, the echo covers the whole token
    stream of the text.  Each echoed lexeme that is no string literal,
    scanned on its own, gives back exactly its token.  (Gluing the lexemes
    together without white space does not.) *)
Theorem echo_is_the_consumed_tokens
    (src : string) (tr : TraceConfig) (po : ParserPolicy)
    (n : nat) (start : StartSymbol) :
  echoTokens po = true ->
  echo_is_consumed src (fst (parse n start (parser_at src tr po))).
Proof.
  intros Hecho.
  assert (Hf : follows_echo src (fst (parse n start (parser_at src tr po)))).
  { destruct start; apply echo_kept_run; auto using follows_echo_init. }
  set (p' := fst (parse n start (parser_at src tr po))) in *.
  destruct Hf as [_ (k & Ht & _ & Hne & Hap)].
  destruct (init_view src) as [Hv Hok].
  pose proof (consumed_bound k _ Hok Hne) as Hk. rewrite Hv in Hk.
  destruct (consumed_prefix k (S (String.length src)) (Lexer.init src)
              ltac:(lia) Hne) as (A & B & C & D).
  fold (tokens_of src) in A, B, C, D.
  exists k. split; [exact B|]. split; [|split; [|split; [|split]]].
  - destruct (Nat.eq_dec k (List.length (tokens_of src))) as [E|E].
    + rewrite nth_overflow by (rewrite length_map; lia).
      destruct (drain_spec (S (String.length src)) (Lexer.init src) Hok)
        as (_ & _ & _ & H4); [rewrite Hv; lia|].
      fold (tokens_of src) in H4. rewrite <- E, <- Ht in H4.
      unfold kind_lexeme. rewrite H4. f_equal.
      rewrite Ht in H4 |- *. now apply end_token_lexeme.
    + change (EndOfFile, "") with (kind_lexeme (mkToken EndOfFile "" 0%N 0%N)).
      rewrite map_nth, D by lia. now rewrite Ht.
  - now rewrite A.
  - rewrite A. now apply strings_apart_filter.
  - intros He. rewrite A. symmetry. apply C.
    rewrite <- Ht. unfold tokIs in He. now apply TokenType_eqb_eq.
  - intros kd lex Hin Hns. apply in_echoed in Hin.
    now apply (echo_line_reads_back src tr po n start kd lex Hin).
Qed.

Lemma echo_is_the_consumed_tokens_witness :
  echo_is_consumed "return x;"
    (fst (parse 40 Program (parser_at "return x;" quiet main_policy))).
Proof.
  apply (echo_is_the_consumed_tokens "return x;" quiet main_policy 40 Program).
  reflexivity.
Defined.

(* ================================================================== *)
(** * The parser: how deep the calls nest *)

Lemma out_of_fuel_bind (m k : M) (p : Parser.t) :
  snd (m p) = OutOfFuel -> snd ((m ;; k) p) = OutOfFuel.
Proof.
  intros H. unfold bind. destruct (m p) as [q r]. simpl in H. now subst r.
Qed.

Lemma out_of_fuel_after_prod (r : Rule) (text : string) (k : M) (p : Parser.t) :
  (forall q, tok_ q = tok_ p -> lex_ q = lex_ p -> policy_ q = policy_ p ->
             snd (k q) = OutOfFuel) ->
  snd ((prod r text ;; k) p) = OutOfFuel.
Proof.
  intros H. unfold bind. rewrite prod_spec.
  destruct (shown r text (trace_ p)); apply H; reflexivity.
Qed.

Lemma out_of_fuel_after_done (m k : M) (p q : Parser.t) :
  m p = (q, Done) -> snd (k q) = OutOfFuel -> snd ((m ;; k) p) = OutOfFuel.
Proof. intros E H. unfold bind. now rewrite E. Qed.

Lemma out_of_fuel_after_take (b : Parser.t -> bool) (e k : M) (p : Parser.t) :
  b p = true ->
  (forall q, tok_ q = fst (Lexer.nextToken (lex_ p)) ->
             lex_ q = snd (Lexer.nextToken (lex_ p)) ->
             policy_ q = policy_ p ->
             snd (k q) = OutOfFuel) ->
  snd ((cond b (echoToken ;; advance) e ;; k) p) = OutOfFuel.
Proof.
  intros Hs H. unfold bind at 1, cond. rewrite Hs.
  unfold bind, echoToken, ret, write, advance.
  repeat match goal with |- context [if ?b then _ else _] => destruct b end;
    cbn [lex_ tok_ policy_];
    destruct (Lexer.nextToken (lex_ p)) as [tk l]; apply H; reflexivity.
Qed.

Lemma at_paren_tests (p : Parser.t) :
  at_paren p ->
  isSep "(" p = true /\ isOp "-" p = false /\ tokIs Identifier p = false /\
  tokIs Integer p = false /\ tokIs Real p = false.
Proof.
  unfold at_paren, kind_lexeme, isSep, isOp, pand, tokIs, lexemeIs.
  intros H. inversion H as [[H1 H2]]. now rewrite H1, H2.
Qed.

Lemma at_paren_same (p q : Parser.t) :
  tok_ q = tok_ p -> at_paren p -> at_paren q.
Proof. unfold at_paren. now intros ->. Qed.

(** An expression that starts with a parenthesis reaches the expression
    inside it through four nested calls. *)
Lemma paren_descends (n : nat) (p : Parser.t) :
  at_paren p ->
  (forall q, tok_ q = fst (Lexer.nextToken (lex_ p)) ->
             lex_ q = snd (Lexer.nextToken (lex_ p)) ->
             snd (run n P_Expression q) = OutOfFuel) ->
  snd (run (4 + n) P_Expression p) = OutOfFuel.
Proof.
  intros Hp H.
  change (run (4 + n) P_Expression p)
    with (parseExpression (run (3 + n)) p).
  unfold parseExpression. apply out_of_fuel_after_prod. intros q1 T1 L1 _.
  apply out_of_fuel_bind.
  change (run (3 + n) P_Term q1) with (parseTerm (run (2 + n)) q1).
  unfold parseTerm. apply out_of_fuel_after_prod. intros q2 T2 L2 _.
  apply out_of_fuel_bind.
  change (run (2 + n) P_Factor q2) with (parseFactor (run (1 + n)) q2).
  assert (P2 : at_paren q2) by (apply (at_paren_same p); congruence).
  destruct (at_paren_tests q2 P2) as (_ & Hm & _).
  unfold parseFactor, cond. rewrite Hm.
  apply out_of_fuel_after_prod. intros q3 T3 L3 _.
  change (run (1 + n) P_Primary q3) with (parsePrimary (run n) q3).
  assert (P3 : at_paren q3) by (apply (at_paren_same q2); congruence).
  destruct (at_paren_tests q3 P3) as (Hs & _ & Hi & Hn & Hr).
  unfold parsePrimary, cond. rewrite Hi, Hn, Hr, Hs.
  apply out_of_fuel_after_prod. intros q4 T4 L4 _.
  unfold expectSep at 1. apply out_of_fuel_after_take.
  { destruct (at_paren_tests q4) as (Hs4 & _); auto.
    apply (at_paren_same q3); congruence. }
  intros q5 T5 L5 _. apply out_of_fuel_bind. apply H; congruence.
Qed.

Lemma paren_read (l : Lexer.t) (s : string) :
  view l = String "(" s ->
  kind_lexeme (fst (Lexer.nextToken l)) = (Separator, "(") /\
  view (snd (Lexer.nextToken l)) = s.
Proof.
  intros Hv. pose proof (nextToken_reading_any l) as H.
  rewrite Hv in H. unfold kind_lexeme. inversion H. auto.
Qed.

(** In front of [k] opening parentheses, the expression procedure does not
    finish within [4 * k] nested calls. *)
Lemma parens_need_depth (k : nat) :
  forall (p : Parser.t) (l : Lexer.t) (rest : string),
    view l = parens k rest ->
    tok_ p = fst (Lexer.nextToken l) -> lex_ p = snd (Lexer.nextToken l) ->
    snd (run (4 * k) P_Expression p) = OutOfFuel.
Proof.
  induction k as [|k IH]; intros p l rest Hv Ht Hl; [reflexivity|].
  replace (4 * S k) with (4 + 4 * k) by lia.
  destruct (paren_read l _ Hv) as [Hk Hv'].
  apply paren_descends.
  - unfold at_paren. now rewrite Ht.
  - intros q Tq Lq. apply (IH q (lex_ p) rest); auto. now rewrite Hl.
Qed.

(** The parser holds the identifier [x]. *)
Lemma at_x_tests (p : Parser.t) :
  kind_lexeme (tok_ p) = (Identifier, "x") ->
  tokIs String_ p = false /\ tokIs Identifier p = true /\
  isKw "function" p = false /\
  (isKw "integer" ||| isKw "boolean" ||| isKw "real") p = false /\
  (tokIs EndOfFile ||| isSep "}") p = false /\
  can_start_statement p = true /\ isSep "{" p = false.
Proof.
  unfold kind_lexeme, can_start_statement, por, isSep, pand, isKw, tokIs, lexemeIs.
  intros H. inversion H as [[H1 H2]]. rewrite H1, H2.
  destruct (lenientKeywords (policy_ p)); simpl; repeat split; reflexivity.
Qed.

Lemma x_equals_read (l : Lexer.t) (s : string) :
  view l = "x=" ++ String "(" s ->
  kind_lexeme (fst (Lexer.nextToken l)) = (Identifier, "x") /\
  kind_lexeme (fst (Lexer.nextToken (snd (Lexer.nextToken l)))) =
    (Operator, "=") /\
  view (snd (Lexer.nextToken (snd (Lexer.nextToken l)))) = String "(" s.
Proof.
  intros Hv. pose proof (nextToken_reading_any l) as H1.
  rewrite Hv in H1. inversion H1 as [[A B C]].
  pose proof (nextToken_reading_any (snd (Lexer.nextToken l))) as H2.
  rewrite C in H2. inversion H2 as [[D E F]].
  unfold kind_lexeme. rewrite A, B, D, E. auto.
Qed.

(** A program that starts with an assignment reaches the expression of
    the assignment through four nested calls. *)
Lemma assignment_descends (n : nat) (p : Parser.t) :
  kind_lexeme (tok_ p) = (Identifier, "x") ->
  kind_lexeme (fst (Lexer.nextToken (lex_ p))) = (Operator, "=") ->
  (forall q,
      tok_ q = fst (Lexer.nextToken (snd (Lexer.nextToken (lex_ p)))) ->
      lex_ q = snd (Lexer.nextToken (snd (Lexer.nextToken (lex_ p)))) ->
      snd (run n P_Expression q) = OutOfFuel) ->
  snd (run (4 + n) P_Rat25F p) = OutOfFuel.
Proof.
  intros Hx Heq H.
  assert (same : forall q, tok_ q = tok_ p ->
                           kind_lexeme (tok_ q) = (Identifier, "x"))
    by (intros q ->; exact Hx).
  assert (skip : forall m q, tok_ q = tok_ p ->
                             run (S m) P_skipBannerStrings q = (q, Done)).
  { intros m q Tq. apply skipBannerStrings_no_banner.
    now destruct (at_x_tests q (same q Tq)). }
  change (run (4 + n) P_Rat25F p) with (parseRat25F (run (3 + n)) p).
  unfold parseRat25F. apply out_of_fuel_after_prod. intros q1 T1 L1 _.
  apply (out_of_fuel_after_done _ _ q1 q1); [now apply (skip (2 + n))|].
  (* the function definitions: none *)
  destruct (at_x_tests q1 (same q1 T1)) as (_ & _ & Hf1 & Hd1 & _).
  assert (E1 : exists q2, run (3 + n) P_OptFunctionDefinitions q1 = (q2, Done)
                          /\ tok_ q2 = tok_ q1 /\ lex_ q2 = lex_ q1).
  { change (run (3 + n) P_OptFunctionDefinitions q1)
      with (parseOptFunctionDefinitions (run (2 + n)) q1).
    unfold parseOptFunctionDefinitions, bind.
    rewrite (skip (1 + n) q1 T1 : run (2 + n) P_skipBannerStrings q1 = (q1, Done)).
    unfold cond. rewrite Hf1, prod_spec.
    destruct (shown _ _ _); eexists; repeat split. }
  destruct E1 as (q2 & E1 & T2 & L2).
  apply (out_of_fuel_after_done _ _ q1 q2 E1).
  assert (T2' : tok_ q2 = tok_ p) by congruence.
  apply (out_of_fuel_after_done _ _ q2 q2); [now apply (skip (2 + n))|].
  (* the declarations: none *)
  destruct (at_x_tests q2 (same q2 T2')) as (_ & _ & _ & Hd2 & _).
  assert (E2 : exists q3, run (3 + n) P_OptDeclarationList q2 = (q3, Done)
                          /\ tok_ q3 = tok_ q2 /\ lex_ q3 = lex_ q2).
  { change (run (3 + n) P_OptDeclarationList q2)
      with (parseOptDeclarationList (run (2 + n)) q2).
    unfold parseOptDeclarationList, cond. rewrite Hd2, prod_spec.
    destruct (shown _ _ _); eexists; repeat split. }
  destruct E2 as (q3 & E2 & T3 & L3).
  apply (out_of_fuel_after_done _ _ q2 q3 E2).
  assert (T3' : tok_ q3 = tok_ p) by congruence.
  apply (out_of_fuel_after_done _ _ q3 q3); [now apply (skip (2 + n))|].
  (* the statement list *)
  change (run (3 + n) P_StatementList q3)
    with (parseStatementList (run (2 + n)) q3).
  unfold parseStatementList.
  apply (out_of_fuel_after_done _ _ q3 q3); [now apply (skip (1 + n))|].
  destruct (at_x_tests q3 (same q3 T3')) as (_ & _ & _ & _ & Hc3 & Hs3 & _).
  unfold cond. rewrite Hc3, Hs3.
  apply out_of_fuel_after_prod. intros q4 T4 L4 _.
  apply out_of_fuel_bind.
  (* the statement: an assignment *)
  assert (T4' : tok_ q4 = tok_ p) by congruence.
  change (run (2 + n) P_Statement q4) with (parseStatement (run (1 + n)) q4).
  destruct (at_x_tests q4 (same q4 T4')) as (Hn4 & Hi4 & _ & _ & _ & _ & Hb4).
  unfold parseStatement, cond. rewrite Hn4, Hb4, Hi4.
  apply out_of_fuel_after_prod. intros q5 T5 L5 _.
  change (run (1 + n) P_Assign q5) with (parseAssign (run n) q5).
  unfold parseAssign. apply out_of_fuel_after_prod. intros q6 T6 L6 _.
  assert (T6' : tok_ q6 = tok_ p) by congruence.
  assert (L6' : lex_ q6 = lex_ p) by congruence.
  unfold expectIdentifier. apply out_of_fuel_after_take.
  { now destruct (at_x_tests q6 (same q6 T6')). }
  intros q7 T7 L7 _. rewrite L6' in T7, L7.
  unfold expectOp. apply out_of_fuel_after_take.
  { unfold isOp, pand, tokIs, lexemeIs. rewrite T7.
    unfold kind_lexeme in Heq. inversion Heq as [[A B]]. now rewrite A, B. }
  intros q8 T8 L8 _. rewrite L7 in T8, L8.
  apply out_of_fuel_bind. now apply H.
Qed.

(** A program that starts with [x=] and [k + 1] opening parentheses is not
    parsed within [4 * (k + 1) + 4] nested calls. *)
Lemma nested_program_needs_depth (k : nat) (rest : string)
    (tr : TraceConfig) (po : ParserPolicy) :
  snd (run (4 * S k + 4) P_Rat25F
         (parser_at ("x=" ++ parens (S k) rest) tr po)) = OutOfFuel.
Proof.
  set (s := "x=" ++ parens (S k) rest).
  assert (Hat : tok_ (parser_at s tr po) =
                  fst (Lexer.nextToken (Lexer.init s)) /\
                lex_ (parser_at s tr po) =
                  snd (Lexer.nextToken (Lexer.init s))).
  { unfold parser_at, Parser.init, advance. cbn [lex_].
    now destruct (Lexer.nextToken (Lexer.init s)). }
  destruct Hat as [Ht Hx].
  destruct (x_equals_read (Lexer.init s) (parens k rest)) as (A & B & C).
  { apply init_view. }
  replace (4 * S k + 4) with (4 + 4 * S k) by lia.
  apply assignment_descends.
  - now rewrite Ht.
  - now rewrite Hx.
  - intros q Tq Lq. rewrite Hx in Tq, Lq.
    apply (parens_need_depth (S k) q
             (snd (Lexer.nextToken (snd (Lexer.nextToken (Lexer.init s)))))
             rest); auto.
Qed.

(** X11.  How deep the calls nest.  The grammar procedures call one
    another to a depth that is bounded by the length of the text: with
    room for [5 + 5 * length src] nested calls, [Parser::parse] returns
    normally or throws [ParseError] for every text, trace configuration,
    policy and start symbol, so no input makes the parser loop, and more
    room than that changes nothing of the outcome.  Whether the call stack
    has that much room is not part of the statement, and the depth needed
    does grow with the text: each opening parenthesis takes four nested
    calls, so that an expression that starts with [k] of them is not
    parsed within [4 * k] nested calls, nor a program that starts with
    [x=] and [k + 1] of them within [4 * (k + 1) + 4]. *)
Theorem parse_nesting_is_bounded (src : string) (tr : TraceConfig)
    (po : ParserPolicy) (start : StartSymbol) (more k : nat) (rest : string) :
  snd (parse (enough_fuel src) start (parser_at src tr po)) <> OutOfFuel /\
  parse (enough_fuel src + more) start (parser_at src tr po) =
    parse (enough_fuel src) start (parser_at src tr po) /\
  snd (parse (4 * k) Expression_ (parser_at (parens k rest) tr po)) = OutOfFuel /\
  snd (parse (4 * S k + 4) Program
         (parser_at ("x=" ++ parens (S k) rest) tr po)) = OutOfFuel.
Proof.
  destruct (parser_at_sound src tr po) as [Hs Hl].
  assert (H : forall f, snd (run (enough_fuel src) f (parser_at src tr po))
                        <> OutOfFuel).
  { intros f. apply (run_ends (enough_fuel src) f _ Hs).
    pose proof (rank_bound f). unfold enough_fuel. lia. }
  assert (Hat : forall s, tok_ (parser_at s tr po) =
                            fst (Lexer.nextToken (Lexer.init s)) /\
                          lex_ (parser_at s tr po) =
                            snd (Lexer.nextToken (Lexer.init s))).
  { intros s. unfold parser_at, Parser.init, advance. cbn [lex_].
    now destruct (Lexer.nextToken (Lexer.init s)). }
  split; [destruct start; apply H|]. split; [|split].
  - destruct start; unfold parse; apply run_more_fuel; auto; lia.
  - unfold parse. destruct (Hat (parens k rest)) as [Ht Hx].
    apply (parens_need_depth k _ (Lexer.init (parens k rest)) rest); auto.
    apply init_view.
  - apply nested_program_needs_depth.
Qed.

(* ================================================================== *)
(** * main.cpp: verdicts and exit codes *)

Lemma c_str_syntax_error (s : string) :
  c_str ("Syntax error: " ++ s) = "Syntax error: " ++ c_str s.
Proof. reflexivity. Qed.

(** X15.  The verdict of [run_one].  Once both files are open and the call
    stack has room for [5 + 5 * length src] nested calls, [run_one] returns
    0 and the output ends with the line "Parsing finished successfully.",
    or it returns 1 and the output ends with the [what()] of the
    [ParseError] that [errorHere] made for the token the parser stopped at,
    printed as a C string: it starts with "Syntax error: " and stops at the
    first NUL character, if the message holds one.  Before that line the
    output holds the lines the parser wrote.  It returns 0 exactly when
    [parse(Program)] returned normally.  [run_one] fails to return only
    when the stack has less room than that, and this does happen: on a
    text that starts with [x=] and [k + 1] opening parentheses it does not
    return when there is room for [4 * (k + 1) + 4] nested calls only. *)
Theorem run_one_gives_a_verdict (trace : TraceConfig) (policy : ParserPolicy)
    (src : string) (more k : nat) (rest : string) :
  let p := fst (parse (enough_fuel src) Program (parser_at src trace policy)) in
  let r := snd (parse (enough_fuel src) Program (parser_at src trace policy)) in
  ((r = Done /\
    run_one_opened (enough_fuel src + more) trace policy src =
    Some (print_lines (out p) ++ "Parsing finished successfully."
            ++ String newline "", 0%N)) \/
   (exists msg,
       r = ParseError (error_text msg (tok_ p)) /\
       run_one_opened (enough_fuel src + more) trace policy src =
       Some (print_lines (out p) ++ c_str (error_text msg (tok_ p))
               ++ String newline "", 1%N) /\
       c_str (error_text msg (tok_ p)) =
       "Syntax error: " ++
       c_str (msg ++ " at line " ++ to_string (line (tok_ p)) ++
              ", col " ++ to_string (col (tok_ p)) ++
              " (near '" ++ lexeme (tok_ p) ++ "')"))) /\
  (forall depth,
      run_one_opened depth trace policy src = None ->
      depth < enough_fuel src) /\
  run_one_opened (4 * S k + 4) trace policy ("x=" ++ parens (S k) rest) = None.
Proof.
  intros p r.
  destruct (parser_at_sound src trace policy) as [Hs Hl].
  assert (Hne : snd (run (enough_fuel src) P_Rat25F (parser_at src trace policy))
                <> OutOfFuel).
  { apply (run_ends (enough_fuel src) P_Rat25F _ Hs).
    unfold enough_fuel. simpl rank. lia. }
  assert (Hmore : forall d, enough_fuel src <= d ->
            run d P_Rat25F (parser_at src trace policy) =
            run (enough_fuel src) P_Rat25F (parser_at src trace policy)).
  { intros d Hd. now apply run_more_fuel. }
  split; [|split].
  - unfold run_one_opened, run_text. fold (parser_at src trace policy).
    cbn [parse] in *. rewrite Hmore by lia. subst p r.
    destruct (run (enough_fuel src) P_Rat25F (parser_at src trace policy))
      as [p1 [| what |]] eqn:E; cbn [fst snd] in *.
    + left. auto.
    + right. destruct (run_error_text _ _ _ _ _ E) as [d ->]. exists d.
      repeat split.
    + congruence.
  - intros depth Hnone.
    destruct (Nat.lt_ge_cases depth (enough_fuel src)) as [Hlt|Hge]; auto.
    exfalso. unfold run_one_opened, run_text in Hnone.
    fold (parser_at src trace policy) in Hnone. cbn [parse] in Hnone.
    rewrite (Hmore depth Hge) in Hnone.
    destruct (run (enough_fuel src) P_Rat25F (parser_at src trace policy))
      as [p1 [| what |]]; cbn [snd] in *; congruence.
  - pose proof (nested_program_needs_depth k rest trace policy) as H.
    unfold run_one_opened, run_text.
    fold (parser_at ("x=" ++ parens (S k) rest) trace policy). cbn [parse].
    destruct (run (4 * S k + 4) P_Rat25F
                (parser_at ("x=" ++ parens (S k) rest) trace policy))
      as [p1 r1]. cbn [snd] in H. now subst r1.
Qed.

Section MainWorld.

Variable World : Type.
Variable run_one :
  string -> string -> TraceConfig -> ParserPolicy -> World -> World * N.
Variable cerr : string -> World -> World.

Lemma run_jobs_world (announce : bool) (jobs : list (string * string)) :
  forall rc w,
    fst (run_jobs World run_one cerr announce jobs rc w) =
    after_jobs World run_one cerr announce jobs w.
Proof.
  induction jobs as [|[inP outP] rest IH]; intros rc w; simpl; auto.
  destruct (run_one inP outP main_trace main_policy _) as [w2 r].
  apply IH.
Qed.

End MainWorld.

Lemma after_jobs_log (code : string -> string -> N)
    (jobs log : list (string * string)) (announce : bool) :
  after_jobs (list (string * string))
    (fun i o _ _ w => ((w ++ [(i, o)])%list, code i o)) (fun _ w => w)
    announce jobs log = (log ++ jobs)%list.
Proof.
  revert log. induction jobs as [|[i o] rest IH]; intros log; simpl.
  - now rewrite app_nil_r.
  - destruct announce; rewrite IH, <- app_assoc; reflexivity.
Qed.

Lemma even_mod2 (n : nat) : (n mod 2 =? 0) = Nat.even n.
Proof.
  destruct (Nat.even n) eqn:E.
  - apply Nat.even_spec in E as [k ->]. apply Nat.eqb_eq.
    rewrite Nat.mul_comm. apply Nat.Div0.mod_mul.
  - apply Nat.eqb_neq. intros H. apply Nat.Lcm0.mod_divide in H.
    destruct H as [k Hk]. rewrite Hk, Nat.even_mul in E. simpl in E.
    now rewrite orb_true_r in E.
Qed.

(** X16.  What [main] runs and returns, for any file system and any
    behaviour of [run_one].
    - Without arguments the four test jobs are run, each announced on
      [std::cerr]; with an even number of at least two arguments every
      argument is used, each pair being one job.  [run_one] is called for
      every job, in order, whatever the earlier calls returned: a failure
      does not stop the later jobs, it is only kept in the exit code, which
      is 0 exactly when every call returned 0.
    - With one argument or an odd number of them the two usage lines go to
      [std::cerr], [run_one] is not called, and the exit code is 1.
    The last part lists the calls of [run_one] that [main] makes. *)
Theorem main_exit_code (World : Type)
    (run_one : string -> string -> TraceConfig -> ParserPolicy ->
               World -> World * N)
    (cerr : string -> World -> World) (argv : list string) (w : World) :
  (List.length argv = 1 ->
   fst (main World run_one cerr argv w) =
     after_jobs World run_one cerr true default_jobs w /\
   (snd (main World run_one cerr argv w) = 0%N <->
    Forall (fun r => r = 0%N)
      (job_codes World run_one cerr true default_jobs w))) /\
  (3 <= List.length argv -> Nat.odd (List.length argv) = true ->
   fst (main World run_one cerr argv w) =
     after_jobs World run_one cerr false (pairs (tl argv)) w /\
   (snd (main World run_one cerr argv w) = 0%N <->
    Forall (fun r => r = 0%N)
      (job_codes World run_one cerr false (pairs (tl argv)) w)) /\
   2 * List.length (pairs (tl argv)) = List.length argv - 1 /\
   List.length (job_codes World run_one cerr false (pairs (tl argv)) w) =
     List.length (pairs (tl argv))) /\
  (List.length argv <> 1 ->
   List.length argv < 3 \/ Nat.even (List.length argv) = true ->
   main World run_one cerr argv w =
     (cerr ("Or run with no args to process tests/test{0..3}.rat25f."
            ++ String newline "")
        (cerr ("Usage: " ++ hd "" argv
               ++ " <input1> <output1> [<input2> <output2> ...]"
               ++ String newline "") w),
      1%N)) /\
  (forall code : string -> string -> N,
      fst (main (list (string * string))
             (fun i o _ _ log => ((log ++ [(i, o)])%list, code i o))
             (fun _ log => log) argv []) =
      if List.length argv =? 1 then default_jobs
      else if (List.length argv <? 3) || Nat.even (List.length argv) then []
      else pairs (tl argv)).
Proof.
  unfold main. rewrite !even_mod2.
  split; [|split; [|split]].
  - intros H1. rewrite H1. cbn [Nat.eqb]. split.
    + apply run_jobs_world.
    + rewrite run_jobs_code. tauto.
  - intros H3 Hodd.
    assert (E1 : (List.length argv =? 1) = false) by (apply Nat.eqb_neq; lia).
    assert (E2 : (List.length argv <? 3) = false) by (apply Nat.ltb_ge; lia).
    assert (E3 : Nat.even (List.length argv) = false).
    { rewrite <- Nat.negb_odd, Hodd. reflexivity. }
    rewrite E1, E2, E3. cbn [orb]. split; [apply run_jobs_world|].
    split; [rewrite run_jobs_code; tauto|]. split.
    + destruct argv as [|a0 args]; cbn [List.length tl] in *; [lia|].
      rewrite Nat.odd_succ in Hodd.
      pose proof (pairs_length args Hodd). lia.
    + apply job_codes_length.
  - intros H1 H2.
    assert (E1 : (List.length argv =? 1) = false) by now apply Nat.eqb_neq.
    rewrite E1. destruct H2 as [H2|H2].
    + apply Nat.ltb_lt in H2. now rewrite H2.
    + rewrite H2, orb_true_r. reflexivity.
  - intros code. destruct (List.length argv =? 1).
    + rewrite run_jobs_world. apply (after_jobs_log code default_jobs []).
    + destruct ((List.length argv <? 3) || Nat.even (List.length argv));
        [reflexivity|].
      rewrite run_jobs_world. apply (after_jobs_log code _ []).
Qed.
